(** * chapter_rewriter.py: chapter detection, quality assessment and the
      quality-gated rewrite loop

    A shallow embedding of [scripts/chapter_rewriter.py] and the properties of
    its specification.

    Conventions of the embedding.
    - A Python [str] is a list of characters; a character is a code point
      below 256, so the texts covered are the Latin-1 ones.  The character
      classes ([str.isspace], the classes of [re]) are those of CPython on
      that range.
    - A Python [float] score is an exact rational of [Q]: the scores are sums
      of a few decimal literals and quotients of counts, and the properties
      below only compare and subtract them.
    - An exception is a value of [exn]; code that can raise returns a
      [result].
    - [random.choice] and the iteration order of a [set] are not functions
      of the program text; they are inputs of the model ([Env]). *)

From Stdlib Require Import List Ascii QArith ZArith Lia Lqa Bool Arith.
From Stdlib Require String DecimalString.
Import ListNotations.

Set Implicit Arguments.

(* ================================================================== *)
(** * The Python runtime the program uses *)
(* ================================================================== *)

(** ** Strings *)

Definition str := list ascii.

Inductive strlit := LNil | LCons (c : ascii) (s : strlit).

Fixpoint strlit_of_bytes (l : list Byte.byte) : strlit :=
  match l with
  | [] => LNil
  | b :: l' => LCons (ascii_of_byte b) (strlit_of_bytes l')
  end.

Fixpoint bytes_of_strlit (s : strlit) : list Byte.byte :=
  match s with
  | LNil => []
  | LCons c s' => byte_of_ascii c :: bytes_of_strlit s'
  end.

Declare Scope str_scope.
Delimit Scope str_scope with str.
Bind Scope str_scope with str.
#[warnings="-via-type-remapping,-via-type-mismatch"]
String Notation str strlit_of_bytes bytes_of_strlit
  (via strlit mapping [[nil] => LNil, [cons] => LCons]) : str_scope.
Open Scope str_scope.
Open Scope nat_scope.

(** ** Exceptions *)

Inductive exn :=
| ZeroDivisionError
| StatisticsError
| ValueError (msg : str).

Inductive result (A : Type) :=
| Ok (a : A)
| Raise (e : exn).

Arguments Ok {A} a.
Arguments Raise {A} e.

Definition bind {A B} (m : result A) (f : A -> result B) : result B :=
  match m with
  | Ok a => f a
  | Raise e => Raise e
  end.

Notation "x <- m ;; k" := (bind m (fun x => k))
  (at level 61, m at next level, right associativity).

Module Py.

(** *** Character classes (CPython, code points 0..255) *)

Definition code (c : ascii) : nat := nat_of_ascii c.

Definition in_range (lo hi : nat) (c : ascii) : bool :=
  (lo <=? code c) && (code c <=? hi).

(** [str.isspace], also the class [\s] of [re]. *)
Definition isspace (c : ascii) : bool :=
  in_range 9 13 c || in_range 28 32 c || (code c =? 133) || (code c =? 160).

(** [\d]: the decimal digits. *)
Definition isdigit (c : ascii) : bool := in_range 48 57 c.

(** [[A-Z]] and [[a-z]]. *)
Definition isupper_az (c : ascii) : bool := in_range 65 90 c.
Definition islower_az (c : ascii) : bool := in_range 97 122 c.

(** [\w]: [str.isalnum] or the underscore. *)
Definition isword (c : ascii) : bool :=
  isdigit c || isupper_az c || islower_az c || (code c =? 95)
  || (code c =? 170) || (code c =? 178) || (code c =? 179) || (code c =? 181)
  || (code c =? 185) || (code c =? 186) || in_range 188 190 c
  || in_range 192 214 c || in_range 216 246 c || in_range 248 255 c.

(** [str.isprintable] on one character, as [repr] uses it. *)
Definition isprintable (c : ascii) : bool :=
  in_range 32 126 c || in_range 161 172 c || in_range 174 255 c.

(** [str.lower] on one character. *)
Definition lower_char (c : ascii) : ascii :=
  if in_range 65 90 c || in_range 192 214 c || in_range 216 222 c
  then ascii_of_nat (code c + 32) else c.

Definition lower (s : str) : str := map lower_char s.

(** *** Tests and searches *)

Definition is_empty {A} (l : list A) : bool :=
  match l with [] => true | _ => false end.

Fixpoint str_eqb (a b : str) : bool :=
  match a, b with
  | [], [] => true
  | x :: a', y :: b' => Ascii.eqb x y && str_eqb a' b'
  | _, _ => false
  end.

(** [s.startswith(p)] *)
Fixpoint startswith (p s : str) : bool :=
  match p, s with
  | [], _ => true
  | a :: p', b :: s' => Ascii.eqb a b && startswith p' s'
  | _ :: _, [] => false
  end.

(** [s.endswith(p)] *)
Definition endswith (p s : str) : bool := startswith (rev p) (rev s).

(** [sub in s] *)
Fixpoint contains (sub s : str) : bool :=
  startswith sub s ||
  match s with
  | [] => false
  | _ :: s' => contains sub s'
  end.

(** [x in l] for a list of strings *)
Definition mem (x : str) (l : list str) : bool := existsb (str_eqb x) l.

(** [s.count(sub)], for a non-empty [sub]: occurrences that do not overlap,
    from the left.  [skip] characters of the last occurrence remain to be
    passed over. *)
Fixpoint count_from (sub s : str) (skip : nat) : nat :=
  match s with
  | [] => 0
  | _ :: s' =>
      match skip with
      | S k => count_from sub s' k
      | 0 => if startswith sub s
             then S (count_from sub s' (length sub - 1))
             else count_from sub s' 0
      end
  end.

Definition count (sub s : str) : nat :=
  match sub with
  | [] => S (length s)
  | _ => count_from sub s 0
  end.

(** [l.count(x)] for a list of strings *)
Definition list_count (x : str) (l : list str) : nat :=
  length (filter (str_eqb x) l).

(** *** Splitting and joining *)

(** Adds a character to the piece in progress, the head of the list. *)
Definition push (c : ascii) (ps : list str) : list str :=
  match ps with
  | p :: ps' => (c :: p) :: ps'
  | [] => [[c]]
  end.

(** [s.split(sep)] for a non-empty [sep]. *)
Fixpoint split_from (sep s : str) (skip : nat) : list str :=
  match s with
  | [] => [[]]
  | c :: s' =>
      match skip with
      | S k => split_from sep s' k
      | 0 => if startswith sep s
             then [] :: split_from sep s' (length sep - 1)
             else push c (split_from sep s' 0)
      end
  end.

Definition split (sep s : str) : list str := split_from sep s 0.

(** [s.split()]: the maximal runs of characters that are not whitespace. *)
Fixpoint split_ws (s : str) : list str :=
  match s with
  | [] => []
  | c :: s' =>
      if isspace c then split_ws s'
      else match s' with
           | [] => [[c]]
           | d :: _ => if isspace d then [c] :: split_ws s'
                       else push c (split_ws s')
           end
  end.

Fixpoint lstrip (s : str) : str :=
  match s with
  | [] => []
  | c :: s' => if isspace c then lstrip s' else s
  end.

Definition rstrip (s : str) : str := rev (lstrip (rev s)).

(** [s.strip()] *)
Definition strip (s : str) : str := rstrip (lstrip s).

(** [sep.join(l)] *)
Fixpoint join (sep : str) (l : list str) : str :=
  match l with
  | [] => []
  | [x] => x
  | x :: l' => x ++ sep ++ join sep l'
  end.

(** [s[a:b]] for [0 <= a] and [0 <= b]. *)
Definition slice (s : str) (a b : nat) : str := firstn (b - a) (skipn a s).

(** *** Replacing *)

(** [s.replace(old, new, 1)] *)
Fixpoint replace1 (old new s : str) : str :=
  if startswith old s then new ++ skipn (length old) s
  else match s with
       | [] => []
       | c :: s' => c :: replace1 old new s'
       end.

(** [s.replace(old, new)] for a non-empty [old]. *)
Fixpoint replace_from (old new s : str) (skip : nat) : str :=
  match s with
  | [] => []
  | c :: s' =>
      match skip with
      | S k => replace_from old new s' k
      | 0 => if startswith old s
             then new ++ replace_from old new s' (length old - 1)
             else c :: replace_from old new s' 0
      end
  end.

Definition replace (old new s : str) : str := replace_from old new s 0.

(** *** Sets of strings, as the list of their elements without repetition,
        in the order of first occurrence *)

Fixpoint dedup (l : list str) : list str :=
  match l with
  | [] => []
  | x :: l' => x :: filter (fun y => negb (str_eqb x y)) (dedup l')
  end.

Definition set_diff (a b : list str) : list str :=
  filter (fun x => negb (mem x b)) a.

(** *** Numbers *)

(** [str(n)] for a natural number, as an f-string formats it. *)
Definition str_of_nat (n : nat) : str :=
  String.list_ascii_of_string
    (DecimalString.NilEmpty.string_of_uint (Nat.to_uint n)).

Definition Qnat (n : nat) : Q := inject_Z (Z.of_nat n).

Definition Qltb (a b : Q) : bool := negb (Qle_bool b a).
Definition Qleb (a b : Q) : bool := Qle_bool a b.

(** [min(a, b)] and [max(a, b)]: the first argument unless the second is
    strictly smaller (larger). *)
Definition min (a b : Q) : Q := if Qltb b a then b else a.
Definition max (a b : Q) : Q := if Qltb a b then b else a.

(** [a / b] on two [int]s. *)
Definition truediv (a b : nat) : result Q :=
  match b with
  | 0 => Raise ZeroDivisionError
  | S _ => Ok (Qred (Z.of_nat a # Pos.of_nat b))
  end.

Definition sumQ (l : list Q) : Q :=
  fold_right (fun x acc => Qred (x + acc)) 0%Q l.

(** [statistics.mean] *)
Definition mean (l : list Q) : result Q :=
  match l with
  | [] => Raise StatisticsError
  | _ => Ok (Qred (sumQ l / Qnat (length l)))
  end.

(** [statistics.variance]: the sample variance. *)
Definition variance (l : list Q) : result Q :=
  if length l <? 2 then Raise StatisticsError
  else
    let m := Qred (sumQ l / Qnat (length l)) in
    let ss := sumQ (map (fun x => (x - m) * (x - m))%Q l) in
    Ok (Qred (ss / Qnat (length l - 1))).

(** *** [repr] of a string and [str] of a list of strings *)

Definition hex_digit (n : nat) : ascii :=
  if n <? 10 then ascii_of_nat (48 + n) else ascii_of_nat (87 + n).

Definition squote : ascii := "'"%char.
Definition dquote : ascii := ascii_of_nat 34.
Definition backslash : ascii := ascii_of_nat 92.
Definition newline : ascii := ascii_of_nat 10.

Definition repr_char (quote : ascii) (c : ascii) : str :=
  if Ascii.eqb c quote || Ascii.eqb c backslash then [backslash; c]
  else if code c =? 9 then [backslash; "t"%char]
  else if code c =? 10 then [backslash; "n"%char]
  else if code c =? 13 then [backslash; "r"%char]
  else if isprintable c then [c]
  else [backslash; "x"%char;
        hex_digit (code c / 16); hex_digit (code c mod 16)].

Definition repr (s : str) : str :=
  let quote :=
    if existsb (Ascii.eqb squote) s && negb (existsb (Ascii.eqb dquote) s)
    then dquote else squote in
  quote :: flat_map (repr_char quote) s ++ [quote].

Definition str_of_list (l : list str) : str :=
  "[" ++ join ", " (map repr l) ++ "]".

End Py.

(* ================================================================== *)
(** * The regular expressions of [re] that the program uses *)
(* ================================================================== *)

Module Re.

Import Py.

(** The patterns of the program are built from literal characters, classes,
    sequence, alternation, repetition of one class (greedy and lazy), [^]
    and [\b].  Every one of them consumes at least one character. *)
Inductive regex :=
| Eps
| Chr (c : ascii)                    (* a literal character *)
| Cls (p : ascii -> bool)            (* a class: [\s], [\d], [[a-z]], ... *)
| Seq (a b : regex)
| Alt (a b : regex)                  (* [a|b], [a] tried first *)
| Star (p : ascii -> bool)           (* [p*], longest first *)
| StarLazy (p : ascii -> bool)       (* [p*?], shortest first *)
| Bol                                (* [^] *)
| WordB.                             (* [\b] *)

(** One character against a literal or a class; [ic] is [re.IGNORECASE], under
    which the character is lowered first (no class used under that flag
    holds an upper-case letter). *)
Definition chr_ok (ic : bool) (l c : ascii) : bool :=
  if ic then Ascii.eqb (lower_char c) (lower_char l) else Ascii.eqb c l.

Definition cls_ok (ic : bool) (p : ascii -> bool) (c : ascii) : bool :=
  if ic then p (lower_char c) else p c.

Definition word_at (o : option ascii) : bool :=
  match o with
  | Some c => isword c
  | None => false
  end.

Section Exec.

Variable A : Type.
Variable ic : bool.

(** The continuation receives the character before the position reached
    and the rest of the input. *)
Definition cont := option ascii -> str -> option A.

Fixpoint star_greedy (p : ascii -> bool) (prev : option ascii) (s : str)
    (k : cont) : option A :=
  match s with
  | [] => k prev s
  | c :: s' =>
      if cls_ok ic p c then
        match star_greedy p (Some c) s' k with
        | Some x => Some x
        | None => k prev s
        end
      else k prev s
  end.

Fixpoint star_lazy (p : ascii -> bool) (prev : option ascii) (s : str)
    (k : cont) : option A :=
  match k prev s with
  | Some x => Some x
  | None =>
      match s with
      | [] => None
      | c :: s' => if cls_ok ic p c then star_lazy p (Some c) s' k else None
      end
  end.

(** Backtracking search in the order of [re]: the first success wins. *)
Fixpoint exec (r : regex) (prev : option ascii) (s : str) (k : cont)
    : option A :=
  match r with
  | Eps => k prev s
  | Chr l =>
      match s with
      | c :: s' => if chr_ok ic l c then k (Some c) s' else None
      | [] => None
      end
  | Cls p =>
      match s with
      | c :: s' => if cls_ok ic p c then k (Some c) s' else None
      | [] => None
      end
  | Seq a b => exec a prev s (fun prev' s' => exec b prev' s' k)
  | Alt a b =>
      match exec a prev s k with
      | Some x => Some x
      | None => exec b prev s k
      end
  | Star p => star_greedy p prev s k
  | StarLazy p => star_lazy p prev s k
  | Bol =>
      match prev with
      | None => k prev s
      | Some _ => None
      end
  | WordB =>
      if xorb (word_at prev) (word_at (hd_error s)) then k prev s else None
  end.

End Exec.

(** A match of [r] at the head of [s], [prev] being the character before:
    the rest of the input after the match. *)
Definition match_at (ic : bool) (r : regex) (prev : option ascii) (s : str)
    : option str :=
  exec ic r prev s (fun _ rest => Some rest).

(** [re.match(r, s)] as a truth value. *)
Definition re_match (ic : bool) (r : regex) (s : str) : bool :=
  match match_at ic r None s with
  | Some _ => true
  | None => false
  end.

(** The scan of [re.finditer]: the text as unmatched characters and matches,
    from the left, a match being sought where the previous one ended. *)
Fixpoint tokens (ic : bool) (r : regex) (prev : option ascii) (s : str)
    (skip : nat) : list (ascii + str) :=
  match s with
  | [] => []
  | c :: s' =>
      match skip with
      | S k => tokens ic r (Some c) s' k
      | 0 =>
          match match_at ic r prev s with
          | Some rest =>
              match length s - length rest with
              | 0 => inl c :: tokens ic r (Some c) s' 0
              | S k => inr (firstn (S k) s) :: tokens ic r (Some c) s' k
              end
          | None => inl c :: tokens ic r (Some c) s' 0
          end
      end
  end.

Definition scan (ic : bool) (r : regex) (s : str) : list (ascii + str) :=
  tokens ic r None s 0.

(** [re.findall(r, s)]: the matches. *)
Fixpoint matches (ts : list (ascii + str)) : list str :=
  match ts with
  | [] => []
  | inl _ :: ts' => matches ts'
  | inr m :: ts' => m :: matches ts'
  end.

Definition findall (ic : bool) (r : regex) (s : str) : list str :=
  matches (scan ic r s).

(** [re.sub(r, f, s)] *)
Fixpoint subst (f : str -> str) (ts : list (ascii + str)) : str :=
  match ts with
  | [] => []
  | inl c :: ts' => c :: subst f ts'
  | inr m :: ts' => f m ++ subst f ts'
  end.

Definition sub (ic : bool) (r : regex) (f : str -> str) (s : str) : str :=
  subst f (scan ic r s).

(** [re.split(r, s)]; [keep] is for a pattern that is one capturing group,
    whose matches are then part of the result. *)
Fixpoint pieces (keep : bool) (ts : list (ascii + str)) : list str :=
  match ts with
  | [] => [[]]
  | inl c :: ts' => push c (pieces keep ts')
  | inr m :: ts' =>
      if keep then [] :: m :: pieces keep ts' else [] :: pieces keep ts'
  end.

Definition re_split (keep : bool) (r : regex) (s : str) : list str :=
  pieces keep (scan false r s).

(** *** Abbreviations for patterns *)

Definition Plus (p : ascii -> bool) : regex := Seq (Cls p) (Star p).
Definition Opt (r : regex) : regex := Alt r Eps.

Fixpoint lit (s : str) : regex :=
  match s with
  | [] => Eps
  | [c] => Chr c
  | c :: s' => Seq (Chr c) (lit s')
  end.

Fixpoint cat (rs : list regex) : regex :=
  match rs with
  | [] => Eps
  | [r] => r
  | r :: rs' => Seq r (cat rs')
  end.

Fixpoint alt (rs : list regex) : regex :=
  match rs with
  | [] => Eps
  | [r] => r
  | r :: rs' => Alt r (alt rs')
  end.

Definition only (c : ascii) : ascii -> bool := Ascii.eqb c.
Definition one_of (s : str) : ascii -> bool := fun c => existsb (Ascii.eqb c) s.
Definition none_of (s : str) : ascii -> bool := fun c => negb (one_of s c).

End Re.

(* ================================================================== *)
(** * The data model *)
(* ================================================================== *)

Inductive RewriteIntensity := LIGHT | MODERATE | COMPREHENSIVE.

Record QualityMetrics := {
  readability_score : Q;
  story_structure_score : Q;
  character_consistency_score : Q;
  pacing_score : Q;
  dialogue_effectiveness_score : Q;
  narrative_flow_score : Q;
  tension_score : Q;
  prose_quality_score : Q;
  overall_score : Q
}.

(** [self >= other] on every dimension and [self > other] on the overall
    score. *)
Definition is_better_than (self other : QualityMetrics) : bool :=
  Py.Qleb (readability_score other) (readability_score self) &&
  Py.Qleb (story_structure_score other) (story_structure_score self) &&
  Py.Qleb (character_consistency_score other)
          (character_consistency_score self) &&
  Py.Qleb (pacing_score other) (pacing_score self) &&
  Py.Qleb (dialogue_effectiveness_score other)
          (dialogue_effectiveness_score self) &&
  Py.Qleb (narrative_flow_score other) (narrative_flow_score self) &&
  Py.Qleb (tension_score other) (tension_score self) &&
  Py.Qleb (prose_quality_score other) (prose_quality_score self) &&
  Py.Qltb (overall_score other) (overall_score self).

Record ChapterBoundary := {
  chapter_number : nat;
  start_position : nat;
  end_position : nat;
  title : option str;
  confidence : Q
}.

Record ProblemAnalysis := {
  structural_issues : list str;
  narrative_issues : list str;
  character_issues : list str;
  pacing_issues : list str;
  dialogue_issues : list str;
  prose_issues : list str;
  severity_score : Q
}.

(** The field [custom_preservations], an open mapping that the program never
    reads, is left out. *)
Record PreservationControls := {
  preserve_dialogue : option (list str);
  preserve_character_names : bool;
  preserve_plot_points : option (list str);
  preserve_scenes : option (list Z)
}.

(** The keys of [improvements] are the nine metric names. *)
Record Improvements := {
  readability : Q;
  story_structure : Q;
  character_consistency : Q;
  pacing : Q;
  dialogue_effectiveness : Q;
  narrative_flow : Q;
  tension : Q;
  prose_quality : Q;
  overall : Q
}.

(** [changes_made] and [preserved_elements], two lists of descriptions that
    are computed after the loop from the two texts and that cannot raise,
    are left out. *)
Record RewriteReport := {
  original_metrics : QualityMetrics;
  final_metrics : QualityMetrics;
  improvements : Improvements;
  iterations_required : nat
}.

(* ================================================================== *)
(** * ChapterDetector *)
(* ================================================================== *)

Module ChapterDetector.

Import Py Re.

Definition chapter_patterns : list regex :=
  [ (* ^Chapter\s+\d+ *)
    cat [Bol; lit "Chapter"; Plus isspace; Plus isdigit];
    (* ^CHAPTER\s+\d+ *)
    cat [Bol; lit "CHAPTER"; Plus isspace; Plus isdigit];
    (* ^\d+\. *)
    cat [Bol; Plus isdigit; Chr "."];
    (* ^Part\s+\d+ *)
    cat [Bol; lit "Part"; Plus isspace; Plus isdigit];
    (* ^PART\s+\d+ *)
    cat [Bol; lit "PART"; Plus isspace; Plus isdigit];
    (* ^\*\s*\*\s*\* *)
    cat [Bol; Chr "*"; Star isspace; Chr "*"; Star isspace; Chr "*"];
    (* ^-{3,} *)
    cat [Bol; Chr "-"; Chr "-"; Chr "-"; Star (only "-")];
    (* ^#{1,3}\s *)
    cat [Bol; Chr "#"; Opt (Seq (Chr "#") (Opt (Chr "#"))); Cls isspace] ].

(** Get character position at the start of a given line. *)
Definition _get_position_at_line (text : str) (line_number : nat) : nat :=
  let lines := split [newline] text in
  list_sum (map (fun line => length line + 1) (firstn line_number lines)).

(** Extract chapter title from header line.  The four patterns are
    [^(Chapter|CHAPTER|Part|PART)\s*\d*:?\s*] under [re.IGNORECASE],
    [^\d+\.?\s*], [^[*-]+\s*] and [^#+\s*]. *)
Definition _extract_chapter_title (line : str) : option str :=
  let title :=
    sub true
      (cat [Bol; alt [lit "Chapter"; lit "CHAPTER"; lit "Part"; lit "PART"];
            Star isspace; Star isdigit; Opt (Chr ":"); Star isspace])
      (fun _ => "") line in
  let title :=
    sub false (cat [Bol; Plus isdigit; Opt (Chr "."); Star isspace])
      (fun _ => "") title in
  let title :=
    sub false (cat [Bol; Plus (one_of "*-"); Star isspace])
      (fun _ => "") title in
  let title :=
    sub false (cat [Bol; Plus (only "#"); Star isspace]) (fun _ => "") title in
  if is_empty (strip title) then None else Some (strip title).

(** Calculate confidence score for chapter boundary detection.  The
    pattern is [^(Chapter|CHAPTER)\s+\d+], without [re.IGNORECASE]. *)
Definition _calculate_confidence (line : str) (line_index : nat)
    (all_lines : list str) : Q :=
  let confidence := 0.5%Q in
  let confidence :=
    if re_match false
         (cat [Bol; Alt (lit "Chapter") (lit "CHAPTER");
               Plus isspace; Plus isdigit]) line
    then (confidence + 0.4)%Q else confidence in
  let confidence :=
    if (0 <? line_index) &&
       is_empty (strip (nth (line_index - 1) all_lines []))
    then (confidence + 0.1)%Q else confidence in
  let confidence :=
    if (line_index <? length all_lines - 1) &&
       is_empty (strip (nth (line_index + 1) all_lines []))
    then (confidence + 0.1)%Q else confidence in
  Py.min confidence 1.0%Q.

(** [chapters[-1].end_position = e] *)
Fixpoint set_last_end (chapters : list ChapterBoundary) (e : nat)
    : list ChapterBoundary :=
  match chapters with
  | [] => []
  | [c] => [ {| chapter_number := chapter_number c;
                start_position := start_position c;
                end_position := e;
                title := title c;
                confidence := confidence c |} ]
  | c :: cs => c :: set_last_end cs e
  end.

(** The first pattern that matches ends the search through the patterns,
    and what is done then does not depend on which one it was. *)
Definition is_heading (line_stripped : str) : bool :=
  existsb (fun pattern => re_match true pattern line_stripped)
          chapter_patterns.

(** One turn of the loop over the lines; the state is [chapters] and
    [current_chapter]. *)
Definition detect_line (manuscript : str) (lines : list str)
    (st : list ChapterBoundary * nat) (il : nat * str)
    : list ChapterBoundary * nat :=
  let '(chapters, current_chapter) := st in
  let '(i, line) := il in
  let line_stripped := strip line in
  if is_heading line_stripped then
    let chapters :=
      if is_empty chapters then chapters
      else set_last_end chapters (_get_position_at_line manuscript i) in
    let title := _extract_chapter_title line_stripped in
    let start_pos := _get_position_at_line manuscript i in
    let confidence := _calculate_confidence line_stripped i lines in
    let chapter := {| chapter_number := current_chapter;
                      start_position := start_pos;
                      end_position := length manuscript;
                      title := title;
                      confidence := confidence |} in
    (chapters ++ [chapter], current_chapter + 1)
  else st.

Definition enumerate {A} (l : list A) : list (nat * A) :=
  combine (List.seq 0 (length l)) l.

(** Detect chapter boundaries in the manuscript. *)
Definition detect_chapters (manuscript : str) : list ChapterBoundary :=
  let lines := split [newline] manuscript in
  let chapters :=
    fst (fold_left (detect_line manuscript lines) (enumerate lines) ([], 1)) in
  if is_empty chapters then
    [ {| chapter_number := 1;
         start_position := 0;
         end_position := length manuscript;
         title := None;
         confidence := 1.0%Q |} ]
  else chapters.

End ChapterDetector.

(* ================================================================== *)
(** * QualityAssessor *)
(* ================================================================== *)

Module QualityAssessor.

Import Py Re.

(** [[.!?]+] *)
Definition sentence_end : regex := Plus (one_of ".!?").

(** A quoted segment: a double quote, any characters but a double quote,
    a double quote. *)
Definition quoted : regex :=
  cat [Chr dquote; Star (none_of [dquote]); Chr dquote].

(** [\b[A-Z][a-z]+\b] *)
Definition capitalized : regex :=
  cat [WordB; Cls isupper_az; Plus islower_az; WordB].

(** [s.strip()] as a truth value. *)
Definition nonblank (s : str) : bool := negb (is_empty (strip s)).

(** [[p.strip() for p in text.split('\n\n') if p.strip()]] *)
Definition paragraphs_of (text : str) : list str :=
  map strip (filter nonblank (split [newline; newline] text)).

(** [[len(s.split()) for s in sentences if s.strip()]] *)
Definition sentence_lengths_of (sentences : list str) : list nat :=
  map (fun s => length (split_ws s)) (filter nonblank sentences).

(** [sum(1 for x in l if f x)] *)
Definition count_if {A} (f : A -> bool) (l : list A) : nat :=
  length (filter f l).

(** Assess readability using various metrics. *)
Definition _assess_readability (text : str) : result Q :=
  let words := split_ws text in
  let sentences := re_split false sentence_end text in
  if is_empty words || is_empty sentences then Ok 0.0%Q
  else
    avg_words_per_sentence <-
      truediv (length words) (length (filter nonblank sentences)) ;;
    let sentence_lengths := sentence_lengths_of sentences in
    length_variance <-
      (if 1 <? length sentence_lengths
       then variance (map Qnat sentence_lengths) else Ok 0%Q) ;;
    let complex_words := count_if (fun word => 6 <? length word) words in
    complexity_ratio <- truediv complex_words (length words) ;;
    let readability_score := 1.0%Q in
    let readability_score :=
      if Qltb 25 avg_words_per_sentence then (readability_score - 0.3)%Q
      else if Qltb 20 avg_words_per_sentence then (readability_score - 0.1)%Q
      else readability_score in
    let readability_score :=
      if Qltb 10 length_variance then (readability_score + 0.1)%Q
      else readability_score in
    let readability_score :=
      if Qltb 0.3 complexity_ratio then (readability_score - 0.2)%Q
      else readability_score in
    Ok (Py.max 0.0%Q (Py.min 1.0%Q readability_score)).

(** Assess story structure and organization. *)
Definition _assess_story_structure (text : str) : result Q :=
  let paragraphs := paragraphs_of text in
  if is_empty paragraphs then Ok 0.0%Q
  else
    let score := 0.5%Q in
    let score :=
      if 3 <=? length paragraphs then (score + 0.2)%Q else score in
    let transition_words :=
      ["meanwhile"; "later"; "suddenly"; "then"; "after"; "before"] in
    let transitions :=
      list_sum
        (map (fun p => count_if (fun word => contains word (lower p))
                                transition_words) paragraphs) in
    let score :=
      if 0 <? transitions
      then (score + Py.min 0.2 (Qnat transitions * 0.05))%Q else score in
    let para_lengths := map (fun p => length (split_ws p)) paragraphs in
    score <-
      (if is_empty para_lengths then Ok score
       else
         avg_length <- mean (map Qnat para_lengths) ;;
         if Qleb 50 avg_length && Qleb avg_length 150
         then Ok (score + 0.1)%Q else Ok score) ;;
    Ok (Py.min 1.0%Q score).

(** The capitalized words that are not among the common ones. *)
Definition names_without (common_words : list str) (text : str) : list str :=
  set_diff (dedup (findall false capitalized text)) common_words.

(** Assess character consistency and development.  With dq for the
    double quote, the two patterns are
    [dq[^dq]*dq\s*([A-Z][a-z]+\s+said|said\s+[A-Z][a-z]+)] and
    [([A-Z][a-z]+)\s+(walked|ran|said|looked|turned)]. *)
Definition _assess_character_consistency (text : str) : result Q :=
  let common_words :=
    ["The"; "This"; "That"; "Then"; "When"; "Where"; "What"; "Who"; "How"] in
  let character_names := names_without common_words text in
  if is_empty character_names then Ok 0.7%Q
  else
    let score := 0.5%Q in
    let dialogue_patterns :=
      findall false
        (cat [Chr dquote; Star (none_of [dquote]); Chr dquote; Star isspace;
              Alt (cat [Cls isupper_az; Plus islower_az; Plus isspace;
                        lit "said"])
                  (cat [lit "said"; Plus isspace;
                        Cls isupper_az; Plus islower_az])]) text in
    let score :=
      if is_empty dialogue_patterns then score else (score + 0.2)%Q in
    let action_patterns :=
      findall false
        (cat [Cls isupper_az; Plus islower_az; Plus isspace;
              alt [lit "walked"; lit "ran"; lit "said"; lit "looked";
                   lit "turned"]]) text in
    let score :=
      if is_empty action_patterns then score else (score + 0.2)%Q in
    Ok (Py.min 1.0%Q score).

(** Assess narrative pacing. *)
Definition _assess_pacing (text : str) : result Q :=
  let sentences := re_split false sentence_end text in
  let sentence_lengths := sentence_lengths_of sentences in
  if is_empty sentence_lengths then Ok 0.0%Q
  else
    let score := 0.5%Q in
    score <-
      (if 1 <? length sentence_lengths then
         variance <- variance (map Qnat sentence_lengths) ;;
         if Qltb 20 variance then Ok (score + 0.3)%Q else Ok score
       else Ok score) ;;
    let short_sentences :=
      count_if (fun length => length <=? 5) sentence_lengths in
    let score :=
      if 0 <? short_sentences
      then (score + Py.min 0.2 (Qnat short_sentences * 0.02))%Q else score in
    Ok (Py.min 1.0%Q score).

(** Assess quality and effectiveness of dialogue.  With dq for the double
    quote, the pattern of the tags is
    [dq[^dq]*dq\s*[a-z]+\s+said|said\s+[a-z]+] under [re.IGNORECASE]. *)
Definition _assess_dialogue_effectiveness (text : str) : result Q :=
  let dialogue_matches := findall false quoted text in
  if is_empty dialogue_matches then Ok 0.6%Q
  else
    let score := 0.5%Q in
    let dialogue_lengths :=
      map (fun d => length (split_ws d)) dialogue_matches in
    score <-
      (if 1 <? length dialogue_lengths then
         variance <- variance (map Qnat dialogue_lengths) ;;
         if Qltb 5 variance then Ok (score + 0.2)%Q else Ok score
       else Ok score) ;;
    let dialogue_tags :=
      findall true
        (Alt (cat [Chr dquote; Star (none_of [dquote]); Chr dquote;
                   Star isspace; Plus islower_az; Plus isspace; lit "said"])
             (cat [lit "said"; Plus isspace; Plus islower_az])) text in
    tag_ratio <- truediv (length dialogue_tags) (length dialogue_matches) ;;
    let score :=
      if Qleb 0.3 tag_ratio && Qleb tag_ratio 0.7
      then (score + 0.2)%Q else score in
    let contractions :=
      count_if (fun d => contains "'" d) dialogue_matches in
    let score := if 0 <? contractions then (score + 0.1)%Q else score in
    Ok (Py.min 1.0%Q score).

(** Assess smoothness of narrative flow. *)
Definition _assess_narrative_flow (text : str) : result Q :=
  let paragraphs := paragraphs_of text in
  if length paragraphs <? 2 then Ok 0.5%Q
  else
    let score := 0.5%Q in
    let transition_words :=
      ["however"; "meanwhile"; "therefore"; "consequently"; "furthermore";
       "additionally"; "moreover"; "nevertheless"; "nonetheless"; "thus"] in
    let transitions_found :=
      count_if
        (fun paragraph =>
           let first_sentence := lower (hd [] (split "." paragraph)) in
           existsb (fun word => contains word first_sentence)
                   transition_words)
        (tl paragraphs) in
    let score :=
      if 0 <? transitions_found
      then (score + Py.min 0.3 (Qnat transitions_found * 0.1))%Q
      else score in
    Ok (Py.min 1.0%Q score).

(** Assess narrative tension and engagement. *)
Definition _assess_tension (text : str) : result Q :=
  let score := 0.5%Q in
  let tension_words :=
    ["suddenly"; "urgent"; "danger"; "fear"; "panic"; "rush"; "quick";
     "immediately"; "emergency"; "crisis"; "threat"; "worried"; "anxious"] in
  let tension_count :=
    count_if (fun word => contains word (lower text)) tension_words in
  let score :=
    if 0 <? tension_count
    then (score + Py.min 0.3 (Qnat tension_count * 0.05))%Q else score in
  let sentences := re_split false sentence_end text in
  let short_sentences :=
    count_if (fun s => (length (split_ws s) <=? 5) && nonblank s)
             sentences in
  let score :=
    if 0 <? short_sentences
    then (score + Py.min 0.2 (Qnat short_sentences * 0.02))%Q else score in
  Ok (Py.min 1.0%Q score).

(** Assess overall prose quality. *)
Definition _assess_prose_quality (text : str) : result Q :=
  let words := split_ws text in
  if is_empty words then Ok 0.0%Q
  else
    let score := 0.5%Q in
    let unique_words := length (dedup (map lower words)) in
    variety_ratio <- truediv unique_words (length words) ;;
    let score := if Qltb 0.5 variety_ratio then (score + 0.2)%Q else score in
    let adverbs := count_if (fun word => endswith "ly" word) words in
    adverb_ratio <- truediv adverbs (length words) ;;
    let score :=
      if Qltb adverb_ratio 0.05 then (score + 0.1)%Q
      else if Qltb 0.1 adverb_ratio then (score - 0.1)%Q
      else score in
    let weak_verbs := ["went"; "said"; "looked"; "walked"; "was"; "were"] in
    let weak_verb_count :=
      count_if (fun word => mem (lower word) weak_verbs) words in
    weak_ratio <- truediv weak_verb_count (length words) ;;
    let score := if Qltb weak_ratio 0.1 then (score + 0.2)%Q else score in
    Ok (Py.max 0.0%Q (Py.min 1.0%Q score)).

(** Comprehensive quality assessment of a text chapter. *)
Definition assess_quality (text : str) : result QualityMetrics :=
  readability <- _assess_readability text ;;
  structure <- _assess_story_structure text ;;
  character_consistency <- _assess_character_consistency text ;;
  pacing <- _assess_pacing text ;;
  dialogue <- _assess_dialogue_effectiveness text ;;
  flow <- _assess_narrative_flow text ;;
  tension <- _assess_tension text ;;
  prose <- _assess_prose_quality text ;;
  overall <- mean [readability; structure; character_consistency;
                   pacing; dialogue; flow; tension; prose] ;;
  Ok {| readability_score := readability;
        story_structure_score := structure;
        character_consistency_score := character_consistency;
        pacing_score := pacing;
        dialogue_effectiveness_score := dialogue;
        narrative_flow_score := flow;
        tension_score := tension;
        prose_quality_score := prose;
        overall_score := overall |}.

End QualityAssessor.

(* ================================================================== *)
(** * ProblemAnalyzer *)
(* ================================================================== *)

Module ProblemAnalyzer.

Import Py Re QualityAssessor.

(** [if b: issues.append(x)] *)
Definition append_if (b : bool) (x : str) (issues : list str) : list str :=
  if b then issues ++ [x] else issues.

(** Analyze structural problems. *)
Definition _analyze_structural_issues (text : str) : list str :=
  let issues := [] in
  let paragraphs := paragraphs_of text in
  let issues :=
    append_if (length paragraphs <? 3)
      "Chapter may be too short or lack proper structure" issues in
  let long_paragraphs :=
    filter (fun p => 200 <? length (split_ws p)) paragraphs in
  let issues :=
    append_if (negb (is_empty long_paragraphs))
      ("Found " ++ str_of_nat (length long_paragraphs)
       ++ " overly long paragraphs") issues in
  let short_paragraphs :=
    filter (fun p => length (split_ws p) <? 10) paragraphs in
  let issues :=
    append_if (Qltb (Qnat (length paragraphs) * 0.3)
                    (Qnat (length short_paragraphs)))
      "Too many very short paragraphs - may indicate choppy structure"
      issues in
  issues.

(** Analyze narrative flow problems. *)
Definition _analyze_narrative_issues (text : str) : list str :=
  let issues := [] in
  let first_person_indicators := ["I "; "me "; "my "; "mine "] in
  let third_person_indicators :=
    ["he "; "she "; "they "; "his "; "her "; "their "] in
  let has_first_person :=
    existsb (fun indicator => contains indicator text)
            first_person_indicators in
  let has_third_person :=
    existsb (fun indicator => contains indicator text)
            third_person_indicators in
  let issues :=
    append_if (has_first_person && has_third_person)
      "Potential POV inconsistency - mixing first and third person"
      issues in
  let past_tense_indicators := ["was"; "were"; "had"; "did"] in
  let present_tense_indicators := ["is"; "are"; "has"; "does"] in
  let past_count :=
    list_sum (map (fun word => count word (lower text))
                  past_tense_indicators) in
  let present_count :=
    list_sum (map (fun word => count word (lower text))
                  present_tense_indicators) in
  let issues :=
    append_if ((0 <? past_count) && (0 <? present_count) &&
               (Nat.max past_count present_count
                - Nat.min past_count present_count
                <? Nat.min past_count present_count))
      "Potential tense inconsistency" issues in
  issues.

(** Analyze character-related problems.  With dq for the double quote,
    the pattern of the attributed dialogue is
    [dq[^dq]*dq\s*[^dq]*?(said|asked|replied|whispered|shouted)] under
    [re.IGNORECASE]. *)
Definition _analyze_character_issues (text : str) : list str :=
  let issues := [] in
  let common_words :=
    ["The"; "This"; "That"; "Then"; "When"; "Where"; "What"; "Who"; "How";
     "But"; "And"] in
  let character_names := names_without common_words text in
  let issues :=
    append_if (10 <? length character_names)
      "Too many character names introduced - may confuse readers" issues in
  let dialogue_lines := findall false quoted text in
  let attributed_dialogue :=
    findall true
      (cat [Chr dquote; Star (none_of [dquote]); Chr dquote; Star isspace;
            StarLazy (none_of [dquote]);
            alt [lit "said"; lit "asked"; lit "replied"; lit "whispered";
                 lit "shouted"]]) text in
  let issues :=
    append_if (negb (is_empty dialogue_lines) &&
               Qltb (Qnat (length attributed_dialogue))
                    (Qnat (length dialogue_lines) * 0.3))
      "Many dialogue lines lack clear attribution" issues in
  issues.

(** Analyze pacing problems. *)
Definition _analyze_pacing_issues (text : str) : result (list str) :=
  let issues := [] in
  let sentences := re_split false sentence_end text in
  let sentence_lengths := sentence_lengths_of sentences in
  if is_empty sentence_lengths then Ok issues
  else
    avg_length <- mean (map Qnat sentence_lengths) ;;
    let issues :=
      if Qltb 25 avg_length
      then issues ++ ["Sentences are too long on average - may slow pacing"]
      else if Qltb avg_length 8
      then issues ++ ["Sentences are too short on average - may feel choppy"]
      else issues in
    if 5 <? length sentence_lengths then
      variance <- variance (map Qnat sentence_lengths) ;;
      Ok (append_if (Qltb variance 10)
            "Lack of sentence length variety - monotonous pacing" issues)
    else Ok issues.

(** Analyze dialogue problems. *)
Definition _analyze_dialogue_issues (text : str) : list str :=
  let issues := [] in
  let dialogue_matches := findall false quoted text in
  if is_empty dialogue_matches then issues
  else
    let long_dialogue :=
      filter (fun d => 50 <? length (split_ws d)) dialogue_matches in
    let issues :=
      append_if (negb (is_empty long_dialogue))
        ("Found " ++ str_of_nat (length long_dialogue)
         ++ " overly long dialogue segments") issues in
    let contractions :=
      count_if (fun d => contains "'" d) dialogue_matches in
    let issues :=
      append_if ((contractions =? 0) && (3 <? length dialogue_matches))
        "Dialogue lacks contractions - may sound unnatural" issues in
    let said_count := count " said" (lower text) in
    let issues :=
      append_if (Qltb (Qnat (length dialogue_matches) * 0.8)
                      (Qnat said_count))
        "Overuse of 'said' - dialogue tags lack variety" issues in
    issues.

(** [word_freq[k] = word_freq.get(k, 0) + 1] on a [dict], which keeps the
    order in which its keys came. *)
Fixpoint incr (k : str) (d : list (str * nat)) : list (str * nat) :=
  match d with
  | [] => [(k, 1)]
  | (k', n) :: d' =>
      if str_eqb k k' then (k', S n) :: d' else (k', n) :: incr k d'
  end.

(** Analyze prose quality problems. *)
Definition _analyze_prose_issues (text : str) : result (list str) :=
  let issues := [] in
  let words := split_ws text in
  if is_empty words then Ok issues
  else
    let adverbs := filter (fun word => endswith "ly" word) words in
    adverb_ratio <- truediv (length adverbs) (length words) ;;
    let issues :=
      append_if (Qltb 0.1 adverb_ratio)
        ("Excessive use of adverbs (" ++ str_of_nat (length adverbs)
         ++ " found) - consider stronger verbs") issues in
    let weak_verbs := ["went"; "got"; "put"; "look"; "come"; "go"] in
    let weak_verb_count :=
      list_sum (map (fun verb => list_count verb words) weak_verbs) in
    let issues :=
      append_if (Qltb (Qnat (length words) * 0.05) (Qnat weak_verb_count))
        "Overuse of weak verbs - consider more specific alternatives"
        issues in
    let word_freq :=
      fold_left
        (fun d word =>
           let word_lower := lower word in
           if 4 <? length word_lower then incr word_lower d else d)
        words [] in
    let repeated_words :=
      filter
        (fun wc =>
           (5 <? snd wc) &&
           negb (mem (fst wc)
                   ["that"; "with"; "have"; "this"; "they"; "were"; "been"]))
        word_freq in
    let issues :=
      append_if (negb (is_empty repeated_words))
        ("Repetitive word usage: " ++
         join ", " (map (fun wc => fst wc ++ "(" ++ str_of_nat (snd wc) ++ ")")
                        (firstn 3 repeated_words))) issues in
    Ok issues.

(** Comprehensive problem analysis. *)
Definition analyze_problems (text : str) : result ProblemAnalysis :=
  let structural_issues := _analyze_structural_issues text in
  let narrative_issues := _analyze_narrative_issues text in
  let character_issues := _analyze_character_issues text in
  pacing_issues <- _analyze_pacing_issues text ;;
  let dialogue_issues := _analyze_dialogue_issues text in
  prose_issues <- _analyze_prose_issues text ;;
  let total_issues :=
    length structural_issues + length narrative_issues +
    length character_issues + length pacing_issues +
    length dialogue_issues + length prose_issues in
  severity <- truediv total_issues 20 ;;
  let severity := Py.min 1.0%Q severity in
  Ok {| structural_issues := structural_issues;
        narrative_issues := narrative_issues;
        character_issues := character_issues;
        pacing_issues := pacing_issues;
        dialogue_issues := dialogue_issues;
        prose_issues := prose_issues;
        severity_score := severity |}.

End ProblemAnalyzer.

(* ================================================================== *)
(** * ChapterRewriter *)
(* ================================================================== *)

(** What the run of a program adds to its text: the outcomes of
    [random.choice], in the order of the calls, and the order in which a
    [set] of names is iterated. *)
Record Env := {
  choice : nat -> nat;
  set_order : list str -> list str
}.

Module ChapterRewriter.

Import Py Re QualityAssessor ProblemAnalyzer.

(** Perform light rewriting - mainly polish and minor fixes.  The two
    patterns are [\b\w+ly\b] and [\s+]. *)
Definition _light_rewrite (text : str) (problems : ProblemAnalysis) : str :=
  let rewritten := text in
  let rewritten :=
    if contains "Excessive use of adverbs" (str_of_list (prose_issues problems))
    then
      let rewritten :=
        sub false (cat [WordB; Plus isword; Chr "l"; Chr "y"; WordB])
          (fun m => if 6 <? length m then "" else m) rewritten in
      sub false (Plus isspace) (fun _ => " ") rewritten
    else rewritten in
  let rewritten :=
    if contains "Overuse of 'said'" (str_of_list (dialogue_issues problems))
    then
      let alternatives :=
        ["replied"; "asked"; "whispered"; "murmured"; "stated"] in
      fold_left (fun rewritten alt => replace1 " said" (" " ++ alt) rewritten)
                alternatives rewritten
    else rewritten in
  rewritten.

(** [([.!?]+)]: the split keeps the separators. *)
Definition split_sentences (s : str) : list str :=
  re_split true sentence_end s.

(** Perform moderate rewriting - significant improvements. *)
Definition _moderate_rewrite (text : str) (problems : ProblemAnalysis) : str :=
  let rewritten := _light_rewrite text problems in
  let rewritten :=
    if contains "Lack of sentence length variety"
                (str_of_list (pacing_issues problems))
    then
      let sentences := split_sentences rewritten in
      let new_sentences :=
        map (fun sentence =>
               if contains "." sentence || contains "!" sentence
                  || contains "?" sentence
               then sentence
               else
                 let words := split_ws sentence in
                 if 20 <? length words then
                   let mid := length words / 2 in
                   join " " (firstn mid words) ++ ". "
                   ++ join " " (skipn mid words)
                 else sentence)
            sentences in
      concat new_sentences
    else rewritten in
  let rewritten :=
    if contains "overly long paragraphs"
                (str_of_list (structural_issues problems))
    then
      let paragraphs := split [newline; newline] rewritten in
      let new_paragraphs :=
        flat_map (fun para =>
                    if 150 <? length (split_ws para) then
                      let sentences := split_sentences para in
                      let mid := length sentences / 2 in
                      let para1 := concat (firstn mid sentences) in
                      let para2 := concat (skipn mid sentences) in
                      [para1; para2]
                    else [para])
                 paragraphs in
      join [newline; newline] new_paragraphs
    else rewritten in
  rewritten.

(** [re.sub] with a function that draws random choices: [k] counts the
    calls of [random.choice] so far. *)
Fixpoint subst_st (f : nat -> str -> str * nat) (k : nat)
    (ts : list (ascii + str)) : str * nat :=
  match ts with
  | [] => ([], k)
  | inl c :: ts' =>
      let '(r, k') := subst_st f k ts' in (c :: r, k')
  | inr m :: ts' =>
      let '(m', k1) := f k m in
      let '(r, k2) := subst_st f k1 ts' in (m' ++ r, k2)
  end.

(** [random.choice(l)] *)
Definition random_choice (env : Env) (k : nat) (l : list str) : str * nat :=
  (nth (choice env k mod length l) l [], S k).

Fixpoint take_until (c : ascii) (s : str) : str :=
  match s with
  | [] => []
  | x :: s' => if Ascii.eqb x c then [] else x :: take_until c s'
  end.

(** The replacement function of the dialogue pattern.  Group 1 is what
    stands between the opening quote and the next one, group 2 the rest of
    the match. *)
Definition improve_dialogue (env : Env) (k : nat) (m : str) : str * nat :=
  let dialogue := take_until dquote (tl m) in
  let attribution := skipn (length dialogue + 2) m in
  let '(attribution, k) :=
    if contains "said" attribution && (length (split_ws attribution) <? 5)
    then
      let emotions :=
        ["with a smile"; "nervously"; "with confidence"; "quietly"] in
      let '(emotion, k) := random_choice env k emotions in
      (replace "said" ("said " ++ emotion) attribution, k)
    else (attribution, k) in
  ([dquote] ++ dialogue ++ [dquote] ++ attribution, k).

(** Perform comprehensive rewriting - major overhaul.  With dq for the
    double quote, the pattern is a quoted segment, whose inside is group 1,
    and then group 2, [\s*[^dq]*?said[^.!?]*[.!?]]. *)
Definition _comprehensive_rewrite (env : Env) (k : nat) (text : str)
    (problems : ProblemAnalysis) : str * nat :=
  let rewritten := _moderate_rewrite text problems in
  let dialogue_pattern :=
    cat [Chr dquote; Star (none_of [dquote]); Chr dquote;
         Star isspace; StarLazy (none_of [dquote]); lit "said";
         Star (none_of ".!?"); Cls (one_of ".!?")] in
  subst_st (improve_dialogue env) k (scan false dialogue_pattern rewritten).

(** Apply preservation controls to maintain specified elements. *)
Definition _apply_preservation_controls (env : Env) (rewritten original : str)
    (controls : PreservationControls) : str :=
  let rewritten :=
    match preserve_dialogue controls with
    | Some dialogues =>
        fold_left
          (fun rewritten dialogue =>
             if contains dialogue original
                && negb (contains dialogue rewritten)
             then rewritten ++ [newline; newline] ++ dialogue
             else rewritten)
          dialogues rewritten
    | None => rewritten
    end in
  let rewritten :=
    if preserve_character_names controls then
      let original_names := dedup (findall false capitalized original) in
      let rewritten_names := dedup (findall false capitalized rewritten) in
      let missing_names :=
        set_order env (set_diff original_names rewritten_names) in
      fold_left
        (fun rewritten name =>
           if negb (mem name ["The"; "This"; "That"; "Then"; "When"; "Where"])
           then
             if contains (" " ++ name ++ " ") original
                && negb (contains (" " ++ name ++ " ") rewritten)
             then replace1 " he " (" " ++ name ++ " ") rewritten
             else rewritten
           else rewritten)
        missing_names rewritten
    else rewritten in
  rewritten.

(** Generate a rewritten version of the text. *)
Definition _generate_rewrite (env : Env) (k : nat) (text : str)
    (problems : ProblemAnalysis) (intensity : RewriteIntensity)
    (preservation_controls : option PreservationControls) : str * nat :=
  let rewritten := text in
  let '(rewritten, k) :=
    match intensity with
    | LIGHT => (_light_rewrite rewritten problems, k)
    | MODERATE => (_moderate_rewrite rewritten problems, k)
    | COMPREHENSIVE => _comprehensive_rewrite env k rewritten problems
    end in
  let rewritten :=
    match preservation_controls with
    | Some controls =>
        _apply_preservation_controls env rewritten text controls
    | None => rewritten
    end in
  (rewritten, k).

(** Calculate numerical improvements for each metric. *)
Definition _calculate_improvements (original final : QualityMetrics)
    : Improvements :=
  {| readability := readability_score final - readability_score original;
     story_structure :=
       story_structure_score final - story_structure_score original;
     character_consistency :=
       character_consistency_score final
       - character_consistency_score original;
     pacing := pacing_score final - pacing_score original;
     dialogue_effectiveness :=
       dialogue_effectiveness_score final
       - dialogue_effectiveness_score original;
     narrative_flow :=
       narrative_flow_score final - narrative_flow_score original;
     tension := tension_score final - tension_score original;
     prose_quality := prose_quality_score final - prose_quality_score original;
     overall := overall_score final - overall_score original |}%Q.

(** [str(n)] for an [int]. *)
Definition str_of_Z (n : Z) : str :=
  match n with
  | Zneg p => "-" ++ str_of_nat (Pos.to_nat p)
  | _ => str_of_nat (Z.to_nat n)
  end.

(** The scores of the chapters, in order; the first assessment that raises
    ends the loop. *)
Fixpoint chapter_scores (manuscript : str) (chapters : list ChapterBoundary)
    : result (list (ChapterBoundary * Q)) :=
  match chapters with
  | [] => Ok []
  | chapter :: rest =>
      let chapter_text :=
        slice manuscript (start_position chapter) (end_position chapter) in
      metrics <- assess_quality chapter_text ;;
      scores <- chapter_scores manuscript rest ;;
      Ok ((chapter, overall_score metrics) :: scores)
  end.

(** [min(l, key=lambda x: x[1])]: the first of the least. *)
Fixpoint min_by_score (best : ChapterBoundary * Q)
    (l : list (ChapterBoundary * Q)) : ChapterBoundary * Q :=
  match l with
  | [] => best
  | x :: l' => min_by_score (if Qltb (snd x) (snd best) then x else best) l'
  end.

(** Steps 1 and 2 of [rewrite_chapter]: detect the chapters and select the
    one to rewrite. *)
Definition select_chapter (manuscript : str) (requested : option Z)
    : result ChapterBoundary :=
  let chapters := ChapterDetector.detect_chapters manuscript in
  if is_empty chapters
  then Raise (ValueError "No chapters detected in manuscript")
  else
    match requested with
    | None =>
        chapter_scores <- chapter_scores manuscript chapters ;;
        match chapter_scores with
        | [] => Raise (ValueError "min() arg is an empty sequence")
        | x :: l => Ok (fst (min_by_score x l))
        end
    | Some number =>
        let target_chapters :=
          filter (fun c => Z.of_nat (chapter_number c) =? number)%Z
                 chapters in
        match target_chapters with
        | [] => Raise (ValueError ("Chapter " ++ str_of_Z number
                                   ++ " not found"))
        | target_chapter :: _ => Ok target_chapter
        end
    end.

(** Step 6, the loop [while iterations < max_iterations].  [remaining] is
    [max_iterations - iterations], so that the loop is left when it is 0;
    [k] counts the random choices drawn.  The result is [current_text] and
    [iterations] at the exit.  The list [improvements_made], which the loop
    extends and nothing reads, is left out. *)
Fixpoint rewrite_loop (env : Env) (intensity : RewriteIntensity)
    (preservation_controls : option PreservationControls)
    (max_iterations : Z) (original_metrics : QualityMetrics)
    (remaining : nat) (current_text : str) (problems : ProblemAnalysis)
    (iterations : nat) (k : nat) : result (str * nat) :=
  match remaining with
  | 0 => Ok (current_text, iterations)
  | S remaining' =>
      let iterations := iterations + 1 in
      let '(rewritten_text, k) :=
        _generate_rewrite env k current_text problems intensity
          preservation_controls in
      new_metrics <- assess_quality rewritten_text ;;
      if is_better_than new_metrics original_metrics then
        let current_text := rewritten_text in
        if Qltb 0.9 (overall_score new_metrics)
        then Ok (current_text, iterations)
        else
          problems <- analyze_problems current_text ;;
          if Qltb (severity_score problems) 0.2
          then Ok (current_text, iterations)
          else rewrite_loop env intensity preservation_controls
                 max_iterations original_metrics remaining' current_text
                 problems iterations k
      else
        if (Z.of_nat iterations <? max_iterations)%Z
        then rewrite_loop env intensity preservation_controls
               max_iterations original_metrics remaining' current_text
               problems iterations k
        else Ok (current_text, iterations)
  end.

(** Comprehensively rewrite a chapter with quality guarantees. *)
Definition rewrite_chapter (env : Env) (manuscript : str)
    (requested : option Z) (intensity : RewriteIntensity)
    (preservation_controls : option PreservationControls)
    (max_iterations : Z) : result (str * RewriteReport) :=
  target_chapter <- select_chapter manuscript requested ;;
  let original_text :=
    slice manuscript (start_position target_chapter)
          (end_position target_chapter) in
  original_metrics <- assess_quality original_text ;;
  problems <- analyze_problems original_text ;;
  out <- rewrite_loop env intensity preservation_controls max_iterations
           original_metrics (Z.to_nat max_iterations) original_text problems
           0 0 ;;
  let '(current_text, iterations) := out in
  final_metrics <- assess_quality current_text ;;
  let improvements := _calculate_improvements original_metrics final_metrics in
  let report := {| original_metrics := original_metrics;
                   final_metrics := final_metrics;
                   improvements := improvements;
                   iterations_required := iterations |} in
  Ok (current_text, report).

End ChapterRewriter.

(* ================================================================== *)
(** * Vocabulary of the properties *)
(* ================================================================== *)

(** The eight dimension scores, in the order of the record. *)
Definition dimensions (m : QualityMetrics) : list Q :=
  [ readability_score m; story_structure_score m;
    character_consistency_score m; pacing_score m;
    dialogue_effectiveness_score m; narrative_flow_score m;
    tension_score m; prose_quality_score m ].

(** The nine deltas of a report. *)
Definition deltas (i : Improvements) : list Q :=
  [ readability i; story_structure i; character_consistency i; pacing i;
    dialogue_effectiveness i; narrative_flow i; tension i; prose_quality i;
    overall i ].

(** Each boundary ends where the next one starts. *)
Fixpoint linked (cs : list ChapterBoundary) : Prop :=
  match cs with
  | c :: (d :: _) as cs' => end_position c = start_position d /\ linked cs'
  | _ => True
  end.

(** A run in which [random.choice] always returns the first element and a
    set is iterated in the order in which its elements were first met. *)
Definition env0 : Env := {| choice := fun _ => 0; set_order := fun l => l |}.

(** The text of a chapter. *)
Definition chapter_text (manuscript : str) (c : ChapterBoundary) : str :=
  Py.slice manuscript (start_position c) (end_position c).

(* ================================================================== *)
(** * Properties *)
(* ================================================================== *)

Import Py Re.

(** ** Generic facts *)

Lemma bind_ok {A B} (m : result A) (f : A -> result B) (b : B) :
  bind m f = Ok b -> exists a, m = Ok a /\ f a = Ok b.
Proof.
  destruct m as [a|e]; simpl; intros H; [exists a; auto | discriminate].
Qed.

Lemma Qltb_lt (a b : Q) : Qltb a b = true <-> (a < b)%Q.
Proof.
  unfold Qltb. rewrite negb_true_iff. split; intros H.
  - apply Qnot_le_lt. intros Hle. apply Qle_bool_iff in Hle. congruence.
  - destruct (Qle_bool b a) eqn:E; [|reflexivity].
    apply Qle_bool_iff in E. exfalso. exact (Qlt_not_le _ _ H E).
Qed.

Lemma Qleb_le (a b : Q) : Qleb a b = true <-> (a <= b)%Q.
Proof. unfold Qleb. apply Qle_bool_iff. Qed.

(** ** QualityMetrics.is_better_than *)

Lemma is_better_than_spec (A B : QualityMetrics) :
  is_better_than A B = true <->
  Forall2 Qle (dimensions B) (dimensions A) /\
  (overall_score B < overall_score A)%Q.
Proof.
  unfold is_better_than, dimensions.
  repeat rewrite andb_true_iff. repeat rewrite Qleb_le. rewrite Qltb_lt.
  split.
  - intros [[[[[[[[H1 H2] H3] H4] H5] H6] H7] H8] H9].
    split; [|exact H9]. repeat constructor; assumption.
  - intros [HF H9].
    repeat match goal with
           | H : Forall2 _ (_ :: _) (_ :: _) |- _ => inversion H; clear H; subst
           end.
    repeat split; assumption.
Qed.

(** C1. [A.is_better_than(B)] holds if and only if each of the eight
    dimension scores of [A] is at least the corresponding score of [B] and
    the overall score of [A] is strictly greater than that of [B]; in
    particular the predicate is false as soon as one dimension of [A] is
    lower than that of [B]. *)
Theorem is_better_than_dominance (A B : QualityMetrics) :
  (is_better_than A B = true <->
   (readability_score A >= readability_score B /\
    story_structure_score A >= story_structure_score B /\
    character_consistency_score A >= character_consistency_score B /\
    pacing_score A >= pacing_score B /\
    dialogue_effectiveness_score A >= dialogue_effectiveness_score B /\
    narrative_flow_score A >= narrative_flow_score B /\
    tension_score A >= tension_score B /\
    prose_quality_score A >= prose_quality_score B /\
    overall_score A > overall_score B)%Q)
  /\
  (forall i, (nth i (dimensions A) 0 < nth i (dimensions B) 0)%Q ->
             is_better_than A B = false).
Proof.
  split.
  - rewrite is_better_than_spec. unfold dimensions. split.
    + intros [HF H9].
      repeat match goal with
             | H : Forall2 _ (_ :: _) (_ :: _) |- _ =>
                 inversion H; clear H; subst
             end.
      repeat split; assumption.
    + intros (H1 & H2 & H3 & H4 & H5 & H6 & H7 & H8 & H9).
      split; [|exact H9]. repeat constructor; assumption.
  - intros i Hlt.
    destruct (is_better_than A B) eqn:E; [exfalso|reflexivity].
    apply is_better_than_spec in E. destruct E as [HF _].
    unfold dimensions in *.
    repeat match goal with
           | H : Forall2 _ (_ :: _) (_ :: _) |- _ =>
               inversion H; clear H; subst
           end.
    do 8 (destruct i as [|i];
          [simpl in Hlt; eapply Qlt_not_le; eassumption|]).
    simpl in Hlt. destruct i; exact (Qlt_irrefl _ Hlt).
Qed.

(** ** ChapterDetector.detect_chapters *)

Section Detector.

Import ChapterDetector.

Variable manuscript : str.

Let lines := split [newline] manuscript.

(** A line that is no heading leaves the state of the loop as it is. *)
Lemma detect_line_skip st i line :
  is_heading (strip line) = false ->
  detect_line manuscript lines st (i, line) = st.
Proof.
  intros H. unfold detect_line. destruct st as [chapters n]. now rewrite H.
Qed.

Lemma fold_detect_no_heading (ils : list (nat * str)) st :
  (forall il, In il ils -> is_heading (strip (snd il)) = false) ->
  fold_left (detect_line manuscript lines) ils st = st.
Proof.
  revert st. induction ils as [|[i line] ils IH]; intros st H; simpl.
  - reflexivity.
  - rewrite detect_line_skip by (apply (H (i, line)); now left).
    apply IH. intros il Hin. apply H. now right.
Qed.

Lemma in_enumerate {A} (l : list A) (il : nat * A) :
  In il (enumerate l) -> In (snd il) l.
Proof.
  unfold enumerate. destruct il as [i x]. intros H.
  now apply in_combine_r in H.
Qed.

Lemma is_heading_false line_stripped :
  (forall pattern, In pattern chapter_patterns ->
                   re_match true pattern line_stripped = false) ->
  is_heading line_stripped = false.
Proof.
  intros H. unfold is_heading.
  destruct (existsb _ chapter_patterns) eqn:E; [|reflexivity].
  apply existsb_exists in E. destruct E as (p & Hin & Hp).
  rewrite (H p Hin) in Hp. discriminate.
Qed.

(** The state of the loop: the numbers are 1, 2, ..., the boundaries are
    linked, and the last one ends with the manuscript. *)
Definition detect_inv (st : list ChapterBoundary * nat) : Prop :=
  let '(chapters, current_chapter) := st in
  current_chapter = length chapters + 1 /\
  map chapter_number chapters = List.seq 1 (length chapters) /\
  linked chapters /\
  (chapters = [] \/
   exists cs c, chapters = cs ++ [c] /\ end_position c = length manuscript).

Lemma set_last_end_length cs e : length (set_last_end cs e) = length cs.
Proof.
  induction cs as [|c [|d cs] IH]; simpl in *; auto.
Qed.

Lemma set_last_end_numbers cs e :
  map chapter_number (set_last_end cs e) = map chapter_number cs.
Proof.
  induction cs as [|c [|d cs] IH]; simpl in *; auto. now rewrite IH.
Qed.

Lemma set_last_end_head cs e c :
  hd_error cs = Some c ->
  exists c', hd_error (set_last_end cs e) = Some c' /\
             start_position c' = start_position c.
Proof.
  destruct cs as [|x [|d cs]]; simpl; intros H; inversion H; subst; eauto.
Qed.

Lemma linked_snoc cs e new :
  linked cs -> start_position new = e ->
  linked (set_last_end cs e ++ [new]).
Proof.
  intros Hl Hs. induction cs as [|c [|d cs] IH].
  - simpl. exact I.
  - simpl. auto.
  - destruct Hl as [Hcd Hl]. specialize (IH Hl).
    change (set_last_end (c :: d :: cs) e) with (c :: set_last_end (d :: cs) e).
    destruct (@set_last_end_head (d :: cs) e d eq_refl) as (d' & Hd' & Hsd).
    destruct (set_last_end (d :: cs) e) as [|x rest] eqn:E;
      [discriminate|].
    simpl in Hd'. inversion Hd'; subst x.
    simpl. split; [congruence|]. exact IH.
Qed.

Lemma detect_line_inv st il :
  detect_inv st -> detect_inv (detect_line manuscript lines st il).
Proof.
  destruct st as [chapters n]. destruct il as [i line].
  intros (Hn & Hnum & Hlink & Hlast). unfold detect_line.
  destruct (is_heading (strip line)); [|now repeat split].
  set (pos := _get_position_at_line manuscript i).
  set (new := {| chapter_number := n; start_position := pos;
                 end_position := length manuscript;
                 title := _extract_chapter_title (strip line);
                 confidence := _calculate_confidence (strip line) i lines |}).
  assert (Hcs : (if is_empty chapters then chapters
                 else set_last_end chapters pos) = set_last_end chapters pos)
    by (destruct chapters; reflexivity).
  rewrite Hcs. unfold detect_inv.
  rewrite length_app, set_last_end_length. simpl length.
  repeat split.
  - lia.
  - rewrite map_app, set_last_end_numbers, Hnum. simpl.
    rewrite Nat.add_1_r, seq_S. f_equal. simpl. subst n. f_equal. lia.
  - now apply linked_snoc.
  - right. exists (set_last_end chapters pos), new. now split.
Qed.

Lemma fold_detect_inv ils st :
  detect_inv st ->
  detect_inv (fold_left (detect_line manuscript lines) ils st).
Proof.
  revert st. induction ils as [|il ils IH]; intros st H; simpl; auto.
  apply IH. now apply detect_line_inv.
Qed.

Lemma linked_nth cs :
  linked cs ->
  forall i c d, nth_error cs i = Some c -> nth_error cs (S i) = Some d ->
                end_position c = start_position d.
Proof.
  induction cs as [|x [|y cs] IH]; intros Hl i c d Hc Hd.
  - destruct i; discriminate.
  - destruct i as [|[|i]]; discriminate.
  - destruct Hl as [Hxy Hl]. destruct i as [|i].
    + simpl in Hc, Hd. inversion Hc; inversion Hd; subst. exact Hxy.
    + exact (IH Hl i c d Hc Hd).
Qed.

Lemma detect_chapters_inv :
  let chapters := detect_chapters manuscript in
  map chapter_number chapters = List.seq 1 (length chapters) /\
  linked chapters /\
  exists cs c, chapters = cs ++ [c] /\ end_position c = length manuscript.
Proof.
  unfold detect_chapters. fold lines.
  pose proof (@fold_detect_inv (enumerate lines) ([], 1)) as H.
  destruct (fold_left (detect_line manuscript lines) (enumerate lines) ([], 1))
    as [chapters n] eqn:E.
  assert (H0 : detect_inv ([], 1)).
  { simpl. repeat split; auto. }
  specialize (H H0). destruct H as (_ & Hnum & Hlink & Hlast).
  simpl fst. destruct chapters as [|c0 cs0].
  - simpl. repeat split; auto.
    eexists [], _. split; reflexivity.
  - simpl is_empty. cbv iota. repeat split; auto.
    destruct Hlast as [Hnil|Hlast]; [discriminate|exact Hlast].
Qed.

End Detector.

(** C6. When no heading pattern matches any line of the manuscript,
    [detect_chapters] returns exactly one boundary, with number 1, start 0,
    end the length of the manuscript and confidence 1.0. *)
Theorem detect_chapters_no_heading (manuscript : str) :
  (forall line pattern,
      In line (split [newline] manuscript) ->
      In pattern ChapterDetector.chapter_patterns ->
      re_match true pattern (strip line) = false) ->
  ChapterDetector.detect_chapters manuscript =
  [ {| chapter_number := 1;
       start_position := 0;
       end_position := length manuscript;
       title := None;
       confidence := 1.0%Q |} ].
Proof.
  intros H. unfold ChapterDetector.detect_chapters.
  rewrite fold_detect_no_heading; [reflexivity|].
  intros il Hin. apply is_heading_false. intros pattern Hp.
  apply H; [|exact Hp]. now apply in_enumerate.
Qed.

Lemma detect_chapters_no_heading_witness :
  ChapterDetector.detect_chapters "It was late. Nobody came." =
  [ {| chapter_number := 1;
       start_position := 0;
       end_position := 25;
       title := None;
       confidence := 1.0%Q |} ].
Proof.
  apply (detect_chapters_no_heading "It was late. Nobody came.").
  intros line pattern Hl Hp.
  assert (H : forallb
                (fun l =>
                   forallb (fun p => negb (re_match true p (strip l)))
                           ChapterDetector.chapter_patterns)
                (split [newline] "It was late. Nobody came.") = true)
    by (vm_compute; reflexivity).
  rewrite forallb_forall in H. specialize (H line Hl).
  rewrite forallb_forall in H. specialize (H pattern Hp).
  now apply negb_true_iff in H.
Defined.

(** C7. In the list returned by [detect_chapters] the chapter numbers are
    1, 2, 3, ..., each boundary ends where the next one starts, and the last
    boundary ends at the length of the manuscript. *)
Theorem detect_chapters_ordered (manuscript : str) :
  let chapters := ChapterDetector.detect_chapters manuscript in
  map chapter_number chapters = List.seq 1 (length chapters) /\
  (forall i c d,
      nth_error chapters i = Some c -> nth_error chapters (S i) = Some d ->
      end_position c = start_position d) /\
  (exists c, nth_error chapters (length chapters - 1) = Some c /\
             end_position c = length manuscript).
Proof.
  destruct (detect_chapters_inv manuscript) as (Hnum & Hlink & cs & c & E & He).
  cbv zeta. repeat split.
  - exact Hnum.
  - apply linked_nth. exact Hlink.
  - exists c. split; [|exact He].
    rewrite E, length_app. simpl.
    rewrite nth_error_app2 by lia.
    replace (length cs + 1 - 1 - length cs) with 0 by lia. reflexivity.
Qed.

(** ** Which exceptions the assessor and the analyzer can raise *)

(** The computation raises no [ValueError]. *)
Definition no_value_error {A} (r : result A) : Prop :=
  forall msg, r <> Raise (ValueError msg).

Lemma nve_ok {A} (a : A) : no_value_error (Ok a).
Proof. intros msg H. discriminate. Qed.

Lemma nve_bind {A B} (m : result A) (f : A -> result B) :
  no_value_error m -> (forall a, no_value_error (f a)) ->
  no_value_error (bind m f).
Proof.
  intros Hm Hf msg. destruct m as [a|e]; simpl.
  - apply Hf.
  - intros H. inversion H; subst. now apply (Hm msg).
Qed.

Lemma nve_truediv a b : no_value_error (truediv a b).
Proof. intros msg. destruct b; simpl; discriminate. Qed.

Lemma nve_mean l : no_value_error (mean l).
Proof. intros msg. destruct l; simpl; discriminate. Qed.

Lemma nve_variance l : no_value_error (variance l).
Proof. intros msg. unfold variance. destruct (length l <? 2); discriminate. Qed.

Lemma nve_if {A} (b : bool) (x y : result A) :
  no_value_error x -> no_value_error y -> no_value_error (if b then x else y).
Proof. destruct b; auto. Qed.

Ltac nve :=
  repeat first
    [ apply nve_ok | apply nve_truediv | apply nve_mean | apply nve_variance
    | apply nve_if | apply nve_bind | intro ].

Lemma nve_assess_quality text :
  no_value_error (QualityAssessor.assess_quality text).
Proof.
  unfold QualityAssessor.assess_quality,
    QualityAssessor._assess_readability,
    QualityAssessor._assess_story_structure,
    QualityAssessor._assess_character_consistency,
    QualityAssessor._assess_pacing,
    QualityAssessor._assess_dialogue_effectiveness,
    QualityAssessor._assess_narrative_flow,
    QualityAssessor._assess_tension,
    QualityAssessor._assess_prose_quality.
  nve.
Qed.

Lemma mean_ok (l : list Q) : l <> [] -> exists q, mean l = Ok q.
Proof. destruct l; [congruence|]. intros _. simpl. eauto. Qed.

Lemma variance_ok (l : list Q) : 2 <= length l -> exists q, variance l = Ok q.
Proof.
  intros H. unfold variance.
  destruct (Nat.ltb_spec (length l) 2); [lia|]. eauto.
Qed.

Lemma truediv_ok a b : b <> 0 -> exists q, truediv a b = Ok q.
Proof. destruct b; [congruence|]. intros _. simpl. eauto. Qed.

(** The analyzer never raises. *)
Lemma analyze_pacing_total text :
  exists issues, ProblemAnalyzer._analyze_pacing_issues text = Ok issues.
Proof.
  unfold ProblemAnalyzer._analyze_pacing_issues.
  set (ls := QualityAssessor.sentence_lengths_of _).
  destruct ls as [|x ls'] eqn:E; simpl is_empty; cbv iota; [eauto|].
  destruct (@mean_ok (map Qnat (x :: ls'))) as [q Hq]; [discriminate|].
  rewrite Hq. cbv beta iota delta [bind].
  destruct (Nat.ltb_spec 5 (length (x :: ls'))) as [Hlen|Hlen]; [|eauto].
  destruct (@variance_ok (map Qnat (x :: ls'))) as [v Hv].
  { rewrite length_map. lia. }
  rewrite Hv. cbv beta iota delta [bind]. eauto.
Qed.

Lemma analyze_prose_total text :
  exists issues, ProblemAnalyzer._analyze_prose_issues text = Ok issues.
Proof.
  unfold ProblemAnalyzer._analyze_prose_issues.
  destruct (split_ws text) as [|w ws] eqn:E; simpl is_empty; cbv iota;
    [eauto|].
  destruct (@truediv_ok (length (filter (fun word => endswith "ly" word)
                                        (w :: ws)))
                        (length (w :: ws))) as [q Hq]; [discriminate|].
  rewrite Hq. cbv beta iota delta [bind]. eauto.
Qed.

Lemma analyze_problems_total text :
  exists problems, ProblemAnalyzer.analyze_problems text = Ok problems.
Proof.
  unfold ProblemAnalyzer.analyze_problems.
  destruct (analyze_pacing_total text) as [p Hp]. rewrite Hp. cbv beta iota delta [bind].
  destruct (analyze_prose_total text) as [q Hq]. rewrite Hq.
  cbv beta iota delta [bind truediv]. eauto.
Qed.

(** ** When the assessor raises *)

Section AssessorTotality.

Import QualityAssessor.

Lemma bind_total {A B} (m : result A) (f : A -> result B) :
  (exists a, m = Ok a) -> (forall a, exists b, f a = Ok b) ->
  exists b, bind m f = Ok b.
Proof. intros [a ->] Hf. simpl. apply Hf. Qed.

Lemma variance_guarded (l : list nat) :
  exists q, (if 1 <? length l then variance (map Qnat l) else Ok 0%Q) = Ok q.
Proof.
  destruct (Nat.ltb_spec 1 (length l)); [|eauto].
  apply variance_ok. rewrite length_map. lia.
Qed.

(** [re.split] never returns an empty list, so that the test
    [not sentences] of [_assess_readability] never holds. *)
Lemma pieces_nonempty keep ts : pieces keep ts <> [].
Proof.
  induction ts as [|[c|m] ts IH]; simpl.
  - discriminate.
  - destruct (pieces keep ts); discriminate.
  - destruct keep; discriminate.
Qed.

(** A text with a word in it and no sentence that is not blank: all its
    characters that are not whitespace are sentence ends. *)
Definition only_punctuation (text : str) : Prop :=
  split_ws text <> [] /\
  filter nonblank (re_split false sentence_end text) = [].

Lemma readability_total text :
  ~ only_punctuation text -> exists q, _assess_readability text = Ok q.
Proof.
  intros H. unfold _assess_readability. cbv zeta.
  destruct (split_ws text) as [|w ws] eqn:Ew; [simpl; eauto|].
  destruct (re_split false sentence_end text) as [|p ps] eqn:Ep;
    [simpl; eauto|].
  cbn [is_empty orb].
  apply bind_total.
  { apply truediv_ok. intros Hlen. apply H. unfold only_punctuation.
    rewrite Ew, Ep. split; [discriminate|].
    destruct (filter nonblank (p :: ps)); [reflexivity|discriminate]. }
  intros avg. apply bind_total; [apply variance_guarded|]. intros v.
  apply bind_total; [apply truediv_ok; discriminate|]. intros c. eauto.
Qed.

Lemma readability_raises text :
  only_punctuation text -> _assess_readability text = Raise ZeroDivisionError.
Proof.
  intros [Hw Hs]. unfold _assess_readability. cbv zeta.
  destruct (split_ws text) as [|w ws] eqn:Ew; [congruence|].
  destruct (re_split false sentence_end text) as [|p ps] eqn:Ep.
  - exfalso. exact (@pieces_nonempty _ _ Ep).
  - cbn [is_empty orb]. rewrite Hs. reflexivity.
Qed.

Lemma story_structure_total text :
  exists q, _assess_story_structure text = Ok q.
Proof.
  unfold _assess_story_structure. cbv zeta.
  destruct (paragraphs_of text) as [|p ps]; [simpl; eauto|].
  cbn [is_empty map]. apply bind_total; [|eauto].
  apply bind_total; [apply mean_ok; discriminate|]. intros avg.
  destruct (_ && _); eauto.
Qed.

Lemma character_consistency_total text :
  exists q, _assess_character_consistency text = Ok q.
Proof.
  unfold _assess_character_consistency. cbv zeta.
  destruct (is_empty _); eauto.
Qed.

Lemma pacing_total text : exists q, _assess_pacing text = Ok q.
Proof.
  unfold _assess_pacing. cbv zeta.
  destruct (is_empty _); [eauto|].
  apply bind_total; [|eauto].
  destruct (Nat.ltb_spec 1 (length (sentence_lengths_of
                                      (re_split false sentence_end text))));
    [|eauto].
  apply bind_total; [apply variance_ok; rewrite length_map; lia|].
  intros v. destruct (Qltb 20 v); eauto.
Qed.

Lemma dialogue_effectiveness_total text :
  exists q, _assess_dialogue_effectiveness text = Ok q.
Proof.
  unfold _assess_dialogue_effectiveness. cbv zeta.
  destruct (findall false quoted text) as [|d ds]; [simpl; eauto|].
  cbn [is_empty]. apply bind_total.
  - destruct (Nat.ltb_spec 1 (length (map (fun d0 => length (split_ws d0))
                                          (d :: ds)))); [|eauto].
    apply bind_total; [apply variance_ok; rewrite length_map; lia|].
    intros v. destruct (Qltb 5 v); eauto.
  - intros score. apply bind_total; [apply truediv_ok; discriminate|].
    eauto.
Qed.

Lemma narrative_flow_total text : exists q, _assess_narrative_flow text = Ok q.
Proof.
  unfold _assess_narrative_flow. cbv zeta. destruct (_ <? 2); eauto.
Qed.

Lemma tension_total text : exists q, _assess_tension text = Ok q.
Proof. unfold _assess_tension. eauto. Qed.

Lemma prose_quality_total text : exists q, _assess_prose_quality text = Ok q.
Proof.
  unfold _assess_prose_quality. cbv zeta.
  destruct (split_ws text) as [|w ws]; [simpl; eauto|].
  cbn [is_empty].
  apply bind_total; [apply truediv_ok; discriminate|]. intros v.
  apply bind_total; [apply truediv_ok; discriminate|]. intros a.
  apply bind_total; [apply truediv_ok; discriminate|]. intros k. eauto.
Qed.

(** The assessor returns on every text but those of punctuation, on which
    it raises [ZeroDivisionError]. *)
Lemma assess_quality_returns text :
  ~ only_punctuation text -> exists m, assess_quality text = Ok m.
Proof.
  intros H. unfold assess_quality.
  apply bind_total; [now apply readability_total|]. intros r.
  apply bind_total; [apply story_structure_total|]. intros st.
  apply bind_total; [apply character_consistency_total|]. intros cc.
  apply bind_total; [apply pacing_total|]. intros pa.
  apply bind_total; [apply dialogue_effectiveness_total|]. intros d.
  apply bind_total; [apply narrative_flow_total|]. intros fl.
  apply bind_total; [apply tension_total|]. intros te.
  apply bind_total; [apply prose_quality_total|]. intros pr.
  apply bind_total; [apply mean_ok; discriminate|]. intros ov. eauto.
Qed.

Lemma assess_quality_raises text :
  only_punctuation text -> assess_quality text = Raise ZeroDivisionError.
Proof.
  intros H. unfold assess_quality. now rewrite (@readability_raises text H).
Qed.

End AssessorTotality.

(** ** ChapterRewriter.rewrite_chapter: the loop *)

Section Loop.

Import QualityAssessor ProblemAnalyzer ChapterRewriter.

Variable env : Env.
Variable intensity : RewriteIntensity.
Variable controls : option PreservationControls.
Variable max_iterations : Z.
Variable baseline : QualityMetrics.

(** A text whose metrics dominate the baseline. *)
Definition accepted (text : str) : Prop :=
  exists m, assess_quality text = Ok m /\ is_better_than m baseline = true.

Lemma rewrite_loop_eq remaining current_text problems iterations k :
  rewrite_loop env intensity controls max_iterations baseline (S remaining)
    current_text problems iterations k =
  let iterations := iterations + 1 in
  let '(rewritten_text, k) :=
    _generate_rewrite env k current_text problems intensity controls in
  new_metrics <- assess_quality rewritten_text ;;
  if is_better_than new_metrics baseline then
    if Qltb 0.9 (overall_score new_metrics)
    then Ok (rewritten_text, iterations)
    else
      problems <- analyze_problems rewritten_text ;;
      if Qltb (severity_score problems) 0.2
      then Ok (rewritten_text, iterations)
      else rewrite_loop env intensity controls max_iterations baseline
             remaining rewritten_text problems iterations k
  else
    if (Z.of_nat iterations <? max_iterations)%Z
    then rewrite_loop env intensity controls max_iterations baseline
           remaining current_text problems iterations k
    else Ok (current_text, iterations).
Proof. reflexivity. Qed.

(** The loop ends with the text it started from or with an accepted
    candidate. *)
Lemma rewrite_loop_result remaining :
  forall current_text problems iterations k text n,
    rewrite_loop env intensity controls max_iterations baseline remaining
      current_text problems iterations k = Ok (text, n) ->
    text = current_text \/ accepted text.
Proof.
  induction remaining as [|remaining IH];
    intros current_text problems iterations k text n H.
  - simpl in H. inversion H. now left.
  - rewrite rewrite_loop_eq in H. cbv zeta in H.
    destruct (_generate_rewrite env k current_text problems intensity controls)
      as [rewritten k'].
    apply bind_ok in H. destruct H as (nm & Hnm & H).
    destruct (is_better_than nm baseline) eqn:Hb.
    + assert (Hacc : accepted rewritten) by (exists nm; auto).
      destruct (Qltb 0.9 (overall_score nm)).
      * inversion H; subst. now right.
      * apply bind_ok in H. destruct H as (problems' & _ & H).
        destruct (Qltb (severity_score problems') 0.2).
        -- inversion H; subst. now right.
        -- apply IH in H. destruct H as [->|H]; now right.
    + destruct (Z.of_nat (iterations + 1) <? max_iterations)%Z.
      * now apply IH in H.
      * inversion H. now left.
Qed.

(** The loop runs to its end: it raises only what the assessor raises. *)
Lemma rewrite_loop_no_value_error remaining :
  forall current_text problems iterations k,
    no_value_error
      (rewrite_loop env intensity controls max_iterations baseline remaining
         current_text problems iterations k).
Proof.
  induction remaining as [|remaining IH]; intros current_text problems
    iterations k.
  - apply nve_ok.
  - rewrite rewrite_loop_eq. cbv zeta.
    destruct (_generate_rewrite env k current_text problems intensity controls)
      as [rewritten k'].
    apply nve_bind; [apply nve_assess_quality|]. intros nm.
    repeat apply nve_if; try apply nve_ok; try apply IH.
    apply nve_bind.
    + intros msg. destruct (analyze_problems_total rewritten) as [p ->].
      discriminate.
    + intros p. apply nve_if; [apply nve_ok|apply IH].
Qed.

End Loop.

Lemma Qminus_self_zero (x : Q) : (x - x == 0)%Q.
Proof. ring. Qed.

(** C2. The report that [rewrite_chapter] returns has
    [improvements['overall'] >= 0]: the text returned is either a candidate
    whose metrics dominate those of the original chapter, or the original
    chapter itself, and then all nine deltas are 0. *)
Theorem rewrite_chapter_never_worse (env : Env) (manuscript : str)
    (requested : option Z) (intensity : RewriteIntensity)
    (controls : option PreservationControls) (max_iterations : Z)
    (text : str) (report : RewriteReport) :
  (1 <= max_iterations)%Z ->
  ChapterRewriter.rewrite_chapter env manuscript requested intensity controls
    max_iterations = Ok (text, report) ->
  (0 <= overall (improvements report))%Q /\
  exists target,
    ChapterRewriter.select_chapter manuscript requested = Ok target /\
    QualityAssessor.assess_quality (chapter_text manuscript target)
      = Ok (original_metrics report) /\
    QualityAssessor.assess_quality text = Ok (final_metrics report) /\
    (is_better_than (final_metrics report) (original_metrics report) = true \/
     text = chapter_text manuscript target /\
     Forall (fun d => d == 0)%Q (deltas (improvements report))).
Proof.
  intros _ H. unfold ChapterRewriter.rewrite_chapter in H.
  apply bind_ok in H. destruct H as (target & Hsel & H).
  apply bind_ok in H. destruct H as (om & Hom & H).
  apply bind_ok in H. destruct H as (problems & Hpb & H).
  apply bind_ok in H. destruct H as ([current n] & Hloop & H).
  apply bind_ok in H. destruct H as (fm & Hfm & H).
  inversion H; subst text report; clear H. simpl.
  apply rewrite_loop_result in Hloop.
  fold (chapter_text manuscript target) in *.
  assert (Hcase :
            is_better_than fm om = true \/ current = chapter_text manuscript target /\ fm = om).
  { destruct Hloop as [->|(m & Hm & Hb)].
    - right. split; [reflexivity|]. congruence.
    - left. congruence. }
  split.
  - destruct Hcase as [Hb|[_ ->]].
    + apply is_better_than_spec in Hb. destruct Hb as [_ Hlt].
      unfold Qminus. rewrite <- (Qplus_opp_r (overall_score om)).
      apply Qplus_le_l. now apply Qlt_le_weak.
    + rewrite Qminus_self_zero. apply Qle_refl.
  - exists target. repeat split; try assumption.
    destruct Hcase as [Hb|[-> ->]]; [now left|right].
    split; [reflexivity|].
    unfold deltas; simpl. repeat constructor; apply Qminus_self_zero.
Qed.

Lemma rewrite_chapter_never_worse_witness :
  exists text report,
    ChapterRewriter.rewrite_chapter env0 "So Beverly asked did he go"
      (Some 1%Z) LIGHT None 2 = Ok (text, report) /\
    (0 <= overall (improvements report))%Q.
Proof.
  eexists _, _. split.
  - vm_compute. reflexivity.
  - eapply (@rewrite_chapter_never_worse env0 "So Beverly asked did he go"
              (Some 1%Z) LIGHT None 2).
    + vm_compute. discriminate.
    + vm_compute. reflexivity.
Defined.

(** With [max_iterations = 1], when the candidate rewrite of the chapter is
    assessed and does not dominate the baseline, [rewrite_chapter] returns
    the original chapter, [final_metrics] equal to [original_metrics], and
    [iterations_required] equal to 1. *)
Lemma rewrite_chapter_one_iteration_assessed (env : Env) (manuscript : str)
    (requested : option Z) (intensity : RewriteIntensity)
    (controls : option PreservationControls)
    (target : ChapterBoundary) (baseline candidate : QualityMetrics)
    (problems : ProblemAnalysis) :
  ChapterRewriter.select_chapter manuscript requested = Ok target ->
  QualityAssessor.assess_quality (chapter_text manuscript target)
    = Ok baseline ->
  ProblemAnalyzer.analyze_problems (chapter_text manuscript target)
    = Ok problems ->
  QualityAssessor.assess_quality
    (fst (ChapterRewriter._generate_rewrite env 0
            (chapter_text manuscript target) problems intensity controls))
    = Ok candidate ->
  is_better_than candidate baseline = false ->
  exists report,
    ChapterRewriter.rewrite_chapter env manuscript requested intensity
      controls 1 = Ok (chapter_text manuscript target, report) /\
    original_metrics report = baseline /\
    final_metrics report = original_metrics report /\
    iterations_required report = 1.
Proof.
  intros Hsel Hbase Hpb Hcand Hnot.
  unfold ChapterRewriter.rewrite_chapter.
  rewrite Hsel. cbv beta iota delta [bind].
  fold (chapter_text manuscript target).
  rewrite Hbase, Hpb.
  change (Z.to_nat 1) with 1.
  rewrite rewrite_loop_eq. cbv zeta.
  destruct (ChapterRewriter._generate_rewrite env 0
              (chapter_text manuscript target) problems intensity controls)
    as [rewritten k].
  simpl fst in Hcand. rewrite Hcand. cbv beta iota delta [bind].
  rewrite Hnot.
  change (Z.of_nat (0 + 1) <? 1)%Z with false. cbv iota.
  rewrite Hbase.
  eexists. split; [reflexivity|]. simpl. auto.
Qed.

(** C4 at a chapter whose one candidate is made of punctuation.  The
    chapter is selected and assessed; the analysis flags the adverbs, every
    tier deletes the long adverb and leaves a space and a period; this
    candidate has no metrics, so that it does not dominate the baseline,
    and [rewrite_chapter] returns no report: the assessment of the
    candidate raises, by the division of [_assess_readability]. *)
Theorem rewrite_chapter_one_iteration_raises :
  let manuscript := "Beautifully ." in
  exists target baseline problems,
    ChapterRewriter.select_chapter manuscript None = Ok target /\
    chapter_text manuscript target = manuscript /\
    QualityAssessor.assess_quality manuscript = Ok baseline /\
    ProblemAnalyzer.analyze_problems manuscript = Ok problems /\
    prose_issues problems =
      ["Excessive use of adverbs (1 found) - consider stronger verbs"] /\
    (forall env intensity,
        ChapterRewriter._generate_rewrite env 0 manuscript problems intensity
          None = (" .", 0)) /\
    QualityAssessor.assess_quality " ." = Raise ZeroDivisionError /\
    forall env intensity,
      ChapterRewriter.rewrite_chapter env manuscript None intensity None 1
      = Raise ZeroDivisionError.
Proof.
  eexists _, _, _.
  split; [vm_compute; reflexivity|].
  split; [vm_compute; reflexivity|].
  split; [vm_compute; reflexivity|].
  split; [vm_compute; reflexivity|].
  split; [vm_compute; reflexivity|].
  split; [intros env []; vm_compute; reflexivity|].
  split; [vm_compute; reflexivity|].
  intros env []; vm_compute; reflexivity.
Qed.

(** ** ChapterRewriter.rewrite_chapter: the selection of the chapter *)

Section Selection.

Import QualityAssessor ChapterRewriter.

Lemma detect_chapters_nonempty manuscript :
  is_empty (ChapterDetector.detect_chapters manuscript) = false.
Proof.
  destruct (detect_chapters_inv manuscript) as (_ & _ & cs & c & E & _).
  rewrite E. destruct cs; reflexivity.
Qed.

Lemma filter_nil_iff {A} (f : A -> bool) (l : list A) :
  filter f l = [] <-> forall x, In x l -> f x = false.
Proof.
  induction l as [|a l IH]; simpl.
  - split; [intros _ x []|reflexivity].
  - destruct (f a) eqn:E; split.
    + discriminate.
    + intros H. specialize (H a (or_introl eq_refl)). congruence.
    + intros H x [<-|Hx]; [exact E|]. now apply IH.
    + intros H. apply IH. intros x Hx. apply H. now right.
Qed.

(** An explicit number that no boundary bears: chapter not found. *)
Lemma select_chapter_not_found manuscript n :
  (forall c, In c (ChapterDetector.detect_chapters manuscript) ->
             Z.of_nat (chapter_number c) <> n) ->
  select_chapter manuscript (Some n) =
  Raise (ValueError ("Chapter " ++ str_of_Z n ++ " not found")).
Proof.
  intros H. unfold select_chapter. rewrite detect_chapters_nonempty.
  replace (filter _ (ChapterDetector.detect_chapters manuscript))
    with (@nil ChapterBoundary); [reflexivity|].
  symmetry. apply filter_nil_iff. intros c Hc. apply Z.eqb_neq. now apply H.
Qed.

(** An explicit number that a boundary bears: that chapter, no exception. *)
Lemma select_chapter_found manuscript n c :
  In c (ChapterDetector.detect_chapters manuscript) ->
  Z.of_nat (chapter_number c) = n ->
  exists target, select_chapter manuscript (Some n) = Ok target /\
                 Z.of_nat (chapter_number target) = n.
Proof.
  intros Hin Hn. unfold select_chapter. rewrite detect_chapters_nonempty.
  destruct (filter _ (ChapterDetector.detect_chapters manuscript))
    as [|t ts] eqn:E.
  - exfalso. rewrite filter_nil_iff in E. specialize (E c Hin).
    apply Z.eqb_neq in E. contradiction.
  - exists t. split; [reflexivity|].
    assert (Ht : In t (t :: ts)) by now left.
    rewrite <- E in Ht. apply filter_In in Ht. destruct Ht as [_ Ht].
    now apply Z.eqb_eq in Ht.
Qed.

Lemma chapter_scores_length manuscript chapters scores :
  chapter_scores manuscript chapters = Ok scores ->
  length scores = length chapters.
Proof.
  revert scores. induction chapters as [|c cs IH]; intros scores H; simpl in H.
  - inversion H. reflexivity.
  - apply bind_ok in H. destruct H as (m & _ & H).
    apply bind_ok in H. destruct H as (l & Hl & H).
    inversion H; subst. simpl. f_equal. now apply IH.
Qed.

Lemma chapter_scores_raise manuscript chapters e :
  chapter_scores manuscript chapters = Raise e ->
  exists c, In c chapters /\
            assess_quality (chapter_text manuscript c) = Raise e.
Proof.
  induction chapters as [|c cs IH]; simpl; intros H; [discriminate|].
  fold (chapter_text manuscript c) in H.
  destruct (assess_quality (chapter_text manuscript c)) as [m|e'] eqn:Em.
  - simpl in H.
    destruct (chapter_scores manuscript cs) as [l|e'']; simpl in H;
      [discriminate|].
    inversion H; subst. destruct (IH eq_refl) as (c' & Hc' & He).
    exists c'. split; [now right|exact He].
  - simpl in H. inversion H; subst. exists c. split; [now left|exact Em].
Qed.

(** What the selection can raise: chapter not found for an explicit number
    that no boundary bears, and what the assessor raises on a chapter when
    the chapter is chosen by its score. *)
Lemma select_chapter_raise manuscript requested e :
  select_chapter manuscript requested = Raise e ->
  (exists n, requested = Some n /\
             e = ValueError ("Chapter " ++ str_of_Z n ++ " not found") /\
             forall c, In c (ChapterDetector.detect_chapters manuscript) ->
                       Z.of_nat (chapter_number c) <> n)
  \/
  (requested = None /\
   exists c, In c (ChapterDetector.detect_chapters manuscript) /\
             assess_quality (chapter_text manuscript c) = Raise e).
Proof.
  unfold select_chapter. rewrite detect_chapters_nonempty.
  destruct requested as [n|].
  - intros H. left. exists n. split; [reflexivity|].
    destruct (filter _ (ChapterDetector.detect_chapters manuscript))
      as [|t ts] eqn:E; [|discriminate].
    inversion H; subst. split; [reflexivity|].
    intros c Hc. rewrite filter_nil_iff in E. apply Z.eqb_neq. now apply E.
  - intros H. right. split; [reflexivity|].
    destruct (chapter_scores manuscript
                (ChapterDetector.detect_chapters manuscript))
      as [scores|e'] eqn:E; simpl in H.
    + exfalso. apply chapter_scores_length in E.
      pose proof (detect_chapters_nonempty manuscript) as Hne.
      destruct scores; [|discriminate].
      destruct (ChapterDetector.detect_chapters manuscript); discriminate.
    + inversion H; subst. now apply chapter_scores_raise.
Qed.

(** The first half of C9 on [rewrite_chapter] itself. *)
Lemma rewrite_chapter_not_found env manuscript n intensity controls
    max_iterations :
  (forall c, In c (ChapterDetector.detect_chapters manuscript) ->
             Z.of_nat (chapter_number c) <> n) ->
  rewrite_chapter env manuscript (Some n) intensity controls max_iterations =
  Raise (ValueError ("Chapter " ++ str_of_Z n ++ " not found")).
Proof.
  intros H. unfold rewrite_chapter.
  now rewrite select_chapter_not_found.
Qed.

Lemma nve_analyze_problems text :
  no_value_error (ProblemAnalyzer.analyze_problems text).
Proof.
  intros msg. destruct (analyze_problems_total text) as [p ->]. discriminate.
Qed.

(** A [ValueError] of [rewrite_chapter] is one of the selection. *)
Lemma rewrite_chapter_value_error env manuscript requested intensity
    controls max_iterations msg :
  rewrite_chapter env manuscript requested intensity controls max_iterations
  = Raise (ValueError msg) ->
  select_chapter manuscript requested = Raise (ValueError msg).
Proof.
  unfold rewrite_chapter.
  destruct (select_chapter manuscript requested) as [target|e].
  - unfold bind at 1. intros H. exfalso. revert H.
    apply nve_bind; [apply nve_assess_quality|]. intros om.
    apply nve_bind; [apply nve_analyze_problems|]. intros pb.
    apply nve_bind; [apply rewrite_loop_no_value_error|]. intros [l n].
    apply nve_bind; [apply nve_assess_quality|]. intros fm. apply nve_ok.
  - simpl. intros H. inversion H. reflexivity.
Qed.

(** The error for an empty list of chapters is never raised. *)
Lemma no_chapters_detected_unreachable env manuscript requested intensity
    controls max_iterations :
  rewrite_chapter env manuscript requested intensity controls max_iterations
  <> Raise (ValueError "No chapters detected in manuscript").
Proof.
  intros H. apply rewrite_chapter_value_error in H.
  apply select_chapter_raise in H.
  destruct H as [(n & _ & Hmsg & _)|(_ & c & _ & Hc)].
  - discriminate.
  - exact (@nve_assess_quality _ _ Hc).
Qed.

End Selection.

(** ** Texts made of whitespace *)

Definition blank (s : str) : bool := forallb isspace s.

(** A whitespace character is no sentence end, no double quote, no capital
    letter, and [str.lower] keeps it. *)
Lemma isspace_facts (c : ascii) :
  isspace c = true ->
  one_of ".!?" c = false /\ Ascii.eqb c dquote = false /\
  isupper_az c = false /\ lower_char c = c.
Proof.
  destruct c as [[] [] [] [] [] [] [] []]; vm_compute; intros;
    try discriminate; repeat split.
Qed.

Lemma split_ws_blank s : blank s = true -> split_ws s = [].
Proof.
  induction s as [|c s IH]; simpl; [reflexivity|].
  rewrite andb_true_iff. intros [Hc Hs]. rewrite Hc. now apply IH.
Qed.

Lemma lstrip_blank s : blank s = true -> lstrip s = [].
Proof.
  induction s as [|c s IH]; simpl; [reflexivity|].
  rewrite andb_true_iff. intros [Hc Hs]. rewrite Hc. now apply IH.
Qed.

Lemma strip_blank s : blank s = true -> strip s = [].
Proof. intros H. unfold strip, rstrip. now rewrite (lstrip_blank s H). Qed.

Lemma nonblank_blank s :
  blank s = true -> QualityAssessor.nonblank s = false.
Proof.
  intros H. unfold QualityAssessor.nonblank.
  rewrite strip_blank by exact H. reflexivity.
Qed.

Lemma push_blank c ps :
  isspace c = true -> forallb blank ps = true ->
  forallb blank (push c ps) = true.
Proof.
  intros Hc. destruct ps as [|p ps]; simpl; [now rewrite Hc|].
  now rewrite Hc.
Qed.

Lemma split_from_blank sep s :
  blank s = true -> forall skip, forallb blank (split_from sep s skip) = true.
Proof.
  induction s as [|c s IH]; simpl; [reflexivity|].
  rewrite andb_true_iff. intros [Hc Hs] [|k]; [|now apply IH].
  destruct (startswith sep (c :: s)).
  - simpl. now apply IH.
  - apply push_blank; [exact Hc|now apply IH].
Qed.

Lemma filter_nonblank_blank ps :
  forallb blank ps = true -> filter QualityAssessor.nonblank ps = [].
Proof.
  induction ps as [|p ps IH]; simpl; [reflexivity|].
  rewrite andb_true_iff. intros [Hp Hps].
  rewrite (nonblank_blank _ Hp). now apply IH.
Qed.

Lemma paragraphs_of_blank text :
  blank text = true -> QualityAssessor.paragraphs_of text = [].
Proof.
  intros H. unfold QualityAssessor.paragraphs_of, split.
  rewrite filter_nonblank_blank; [reflexivity|now apply split_from_blank].
Qed.

(** A pattern that no whitespace character can start leaves a blank text
    without a match. *)
Lemma tokens_blank ic r :
  (forall prev c s, isspace c = true -> match_at ic r prev (c :: s) = None) ->
  forall s prev, blank s = true -> tokens ic r prev s 0 = map inl s.
Proof.
  intros Hr. induction s as [|c s IH]; intros prev; simpl; [reflexivity|].
  rewrite andb_true_iff. intros [Hc Hs].
  rewrite (Hr prev c s Hc). f_equal. now apply IH.
Qed.

Lemma matches_inl s : matches (map inl s) = [].
Proof. induction s; simpl; auto. Qed.

Lemma pieces_inl keep s : pieces keep (map inl s) = [s].
Proof. induction s as [|c s IH]; simpl; [reflexivity|]. now rewrite IH. Qed.

Lemma sentence_end_blank prev c s :
  isspace c = true ->
  match_at false QualityAssessor.sentence_end prev (c :: s) = None.
Proof.
  intros Hc. apply isspace_facts in Hc. destruct Hc as (H & _).
  unfold match_at, QualityAssessor.sentence_end, Plus. cbn [exec].
  unfold cls_ok. now rewrite H.
Qed.

Lemma quoted_blank prev c s :
  isspace c = true ->
  match_at false QualityAssessor.quoted prev (c :: s) = None.
Proof.
  intros Hc. apply isspace_facts in Hc. destruct Hc as (_ & H & _).
  unfold match_at, QualityAssessor.quoted. cbn [cat exec].
  unfold chr_ok. now rewrite H.
Qed.

Lemma capitalized_blank prev c s :
  isspace c = true ->
  match_at false QualityAssessor.capitalized prev (c :: s) = None.
Proof.
  intros Hc. apply isspace_facts in Hc. destruct Hc as (_ & _ & H & _).
  unfold match_at, QualityAssessor.capitalized. cbn [cat exec].
  unfold cls_ok. rewrite H. now destruct (xorb _ _).
Qed.

Lemma sentences_blank text :
  blank text = true ->
  re_split false QualityAssessor.sentence_end text = [text].
Proof.
  intros H. unfold re_split, scan.
  rewrite (@tokens_blank false _ sentence_end_blank) by exact H.
  apply pieces_inl.
Qed.

Lemma findall_quoted_blank text :
  blank text = true -> findall false QualityAssessor.quoted text = [].
Proof.
  intros H. unfold findall, scan.
  rewrite (@tokens_blank false _ quoted_blank) by exact H. apply matches_inl.
Qed.

Lemma findall_capitalized_blank text :
  blank text = true -> findall false QualityAssessor.capitalized text = [].
Proof.
  intros H. unfold findall, scan.
  rewrite (@tokens_blank false _ capitalized_blank) by exact H. apply matches_inl.
Qed.

Lemma lower_blank text : blank text = true -> lower text = text.
Proof.
  induction text as [|c s IH]; simpl; [reflexivity|].
  rewrite andb_true_iff. intros [Hc Hs].
  apply isspace_facts in Hc. destruct Hc as (_ & _ & _ & ->).
  now rewrite IH.
Qed.

(** A word that starts with a character that is no whitespace does not
    occur in a blank text. *)
Lemma contains_blank x w s :
  isspace x = false -> blank s = true -> contains (x :: w) s = false.
Proof.
  intros Hx. induction s as [|c s IH]; [reflexivity|].
  simpl blank. rewrite andb_true_iff. intros [Hc Hs].
  simpl. rewrite (IH Hs), orb_false_r.
  destruct (Ascii.eqb_spec x c) as [->|_]; [congruence|reflexivity].
Qed.

Lemma count_if_none {A} (f : A -> bool) (l : list A) :
  Forall (fun x => f x = false) l -> QualityAssessor.count_if f l = 0.
Proof.
  unfold QualityAssessor.count_if.
  induction 1 as [|x l Hx _ IH]; simpl; [reflexivity|]. now rewrite Hx.
Qed.

(** ** QualityAssessor.assess_quality on a blank text *)

Section BlankText.

Import QualityAssessor.

Variable text : str.
Hypothesis Hblank : blank text = true.

Lemma readability_blank : _assess_readability text = Ok 0.0%Q.
Proof.
  unfold _assess_readability. now rewrite (split_ws_blank _ Hblank).
Qed.

Lemma story_structure_blank : _assess_story_structure text = Ok 0.0%Q.
Proof.
  unfold _assess_story_structure. now rewrite (paragraphs_of_blank _ Hblank).
Qed.

Lemma character_consistency_blank :
  _assess_character_consistency text = Ok 0.7%Q.
Proof.
  unfold _assess_character_consistency, names_without.
  now rewrite (findall_capitalized_blank _ Hblank).
Qed.

Lemma sentence_lengths_blank :
  sentence_lengths_of (re_split false sentence_end text) = [].
Proof.
  unfold sentence_lengths_of. rewrite (sentences_blank _ Hblank).
  cbn [filter]. now rewrite (nonblank_blank _ Hblank).
Qed.

Lemma pacing_blank : _assess_pacing text = Ok 0.0%Q.
Proof. unfold _assess_pacing. now rewrite sentence_lengths_blank. Qed.

Lemma dialogue_effectiveness_blank :
  _assess_dialogue_effectiveness text = Ok 0.6%Q.
Proof.
  unfold _assess_dialogue_effectiveness.
  now rewrite (findall_quoted_blank _ Hblank).
Qed.

Lemma narrative_flow_blank : _assess_narrative_flow text = Ok 0.5%Q.
Proof.
  unfold _assess_narrative_flow. now rewrite (paragraphs_of_blank _ Hblank).
Qed.

Lemma tension_blank : _assess_tension text = Ok 0.5%Q.
Proof.
  unfold _assess_tension.
  rewrite (lower_blank _ Hblank), (sentences_blank _ Hblank).
  rewrite !count_if_none; [reflexivity| |].
  - repeat apply Forall_cons; try apply Forall_nil;
      now apply contains_blank.
  - apply Forall_cons; [|apply Forall_nil].
    rewrite (nonblank_blank _ Hblank). apply andb_false_r.
Qed.

Lemma prose_quality_blank : _assess_prose_quality text = Ok 0.0%Q.
Proof.
  unfold _assess_prose_quality. now rewrite (split_ws_blank _ Hblank).
Qed.

Lemma blank_text_metrics :
  assess_quality text =
  Ok {| readability_score := 0.0;
        story_structure_score := 0.0;
        character_consistency_score := 0.7;
        pacing_score := 0.0;
        dialogue_effectiveness_score := 0.6;
        narrative_flow_score := 0.5;
        tension_score := 0.5;
        prose_quality_score := 0.0;
        overall_score := 23 # 80 |}%Q.
Proof.
  unfold assess_quality.
  rewrite readability_blank, story_structure_blank,
    character_consistency_blank, pacing_blank, dialogue_effectiveness_blank,
    narrative_flow_blank, tension_blank, prose_quality_blank.
  reflexivity.
Qed.

End BlankText.

(** C3, as the code has it.  On an empty text and on a text made of
    whitespace [assess_quality] raises nothing; readability, story
    structure, pacing and prose quality are 0.0, character consistency is
    0.7, dialogue effectiveness 0.6, narrative flow 0.5 and tension 0.5,
    and the overall score is their mean, 0.2875. *)
Theorem assess_quality_blank (text : str) :
  blank text = true ->
  exists m,
    QualityAssessor.assess_quality text = Ok m /\
    readability_score m = 0.0%Q /\
    story_structure_score m = 0.0%Q /\
    character_consistency_score m = 0.7%Q /\
    pacing_score m = 0.0%Q /\
    dialogue_effectiveness_score m = 0.6%Q /\
    narrative_flow_score m = 0.5%Q /\
    tension_score m = 0.5%Q /\
    prose_quality_score m = 0.0%Q /\
    (overall_score m == 0.2875)%Q.
Proof.
  intros H. eexists. split; [apply (@blank_text_metrics text H)|].
  simpl. repeat split; reflexivity.
Qed.

Lemma assess_quality_blank_witness :
  exists m,
    QualityAssessor.assess_quality [" "%char; newline; " "%char] = Ok m /\
    character_consistency_score m = 0.7%Q /\
    (overall_score m == 0.2875)%Q.
Proof.
  destruct (@assess_quality_blank [" "%char; newline; " "%char])
    as (m & H & _ & _ & Hc & _ & _ & _ & _ & _ & Ho).
  - vm_compute. reflexivity.
  - exists m. auto.
Defined.

(** C3 as stated fails on the empty text: four of the eight scores and the
    overall score are not 0.0. *)
Lemma assess_quality_empty_not_zero :
  ~ (exists m,
        QualityAssessor.assess_quality "" = Ok m /\
        Forall (fun d => d == 0)%Q (dimensions m) /\
        (overall_score m == 0)%Q).
Proof.
  intros (m & H & _ & Ho).
  vm_compute in H. inversion H; subst m. simpl in Ho. discriminate Ho.
Qed.

(** ** QualityAssessor on a text without dialogue *)

(** The dialogue score itself is the neutral 0.6 when the text has no quoted
    segment. *)
Lemma dialogue_effectiveness_without_dialogue (text : str) :
  findall false QualityAssessor.quoted text = [] ->
  QualityAssessor._assess_dialogue_effectiveness text = Ok 0.6%Q.
Proof.
  intros H. unfold QualityAssessor._assess_dialogue_effectiveness.
  now rewrite H.
Qed.

(** So is the score in the metrics, whenever [assess_quality] returns. *)
Lemma assess_quality_without_dialogue (text : str) (m : QualityMetrics) :
  findall false QualityAssessor.quoted text = [] ->
  QualityAssessor.assess_quality text = Ok m ->
  dialogue_effectiveness_score m = 0.6%Q.
Proof.
  intros Hq H. unfold QualityAssessor.assess_quality in H.
  rewrite (dialogue_effectiveness_without_dialogue _ Hq) in H.
  apply bind_ok in H. destruct H as (r & _ & H).
  apply bind_ok in H. destruct H as (st & _ & H).
  apply bind_ok in H. destruct H as (cc & _ & H).
  apply bind_ok in H. destruct H as (pa & _ & H).
  apply bind_ok in H. destruct H as (d & Hd & H).
  apply bind_ok in H. destruct H as (fl & _ & H).
  apply bind_ok in H. destruct H as (te & _ & H).
  apply bind_ok in H. destruct H as (pr & _ & H).
  apply bind_ok in H. destruct H as (ov & _ & H).
  injection Hd as <-. injection H as <-. reflexivity.
Qed.

(** C8 at a text of punctuation.  The text is not empty and has no quoted
    segment, and [assess_quality] returns no metrics: the division in
    [_assess_readability] is by the number of sentences that are not
    blank, which is 0 here, the test [not sentences] before it being
    always false. *)
Theorem assess_quality_raises_on_punctuation :
  findall false QualityAssessor.quoted "..." = [] /\
  split_ws "..." = ["..."] /\
  re_split false QualityAssessor.sentence_end "..." = [""; ""] /\
  QualityAssessor._assess_dialogue_effectiveness "..." = Ok 0.6%Q /\
  QualityAssessor._assess_readability "..." = Raise ZeroDivisionError /\
  QualityAssessor.assess_quality "..." = Raise ZeroDivisionError.
Proof. repeat split; vm_compute; reflexivity. Qed.

(** C9 at the same text, the chapter being chosen by its score: the
    selection assesses the only chapter and the assessor raises. *)
Theorem select_chapter_raises_on_punctuation :
  ChapterDetector.detect_chapters "..." =
  [ {| chapter_number := 1; start_position := 0; end_position := 3;
       title := None; confidence := 1.0%Q |} ] /\
  ChapterRewriter.select_chapter "..." None = Raise ZeroDivisionError /\
  forall env intensity controls max_iterations,
    ChapterRewriter.rewrite_chapter env "..." None intensity controls
      max_iterations = Raise ZeroDivisionError.
Proof.
  split; [vm_compute; reflexivity|].
  assert (H : ChapterRewriter.select_chapter "..." None
              = Raise ZeroDivisionError) by (vm_compute; reflexivity).
  split; [exact H|]. intros env intensity controls max_iterations.
  unfold ChapterRewriter.rewrite_chapter. now rewrite H.
Qed.

(** ** Substrings *)

Lemma startswith_app p s t :
  startswith p s = true -> startswith p (s ++ t) = true.
Proof.
  revert s. induction p as [|a p IH]; intros [|b s]; simpl; auto.
  - discriminate.
  - rewrite !andb_true_iff. intros [Hab Hp]. auto.
Qed.

Lemma startswith_refl p t : startswith p (p ++ t) = true.
Proof.
  induction p as [|a p IH]; simpl; [reflexivity|].
  now rewrite Ascii.eqb_refl.
Qed.

Lemma contains_app_l sub s t :
  contains sub s = true -> contains sub (s ++ t) = true.
Proof.
  induction s as [|c s IH]; simpl.
  - rewrite orb_false_r. intros H.
    destruct sub; [|destruct t; discriminate].
    destruct t; reflexivity.
  - rewrite !orb_true_iff. intros [H|H].
    + left. now apply (startswith_app sub (c :: s) t).
    + right. now apply IH.
Qed.

Lemma contains_app_r sub s t :
  contains sub t = true -> contains sub (s ++ t) = true.
Proof.
  intros H. induction s as [|c s IH]; simpl; [exact H|].
  rewrite IH. apply orb_true_r.
Qed.

Lemma contains_self sub : contains sub sub = true.
Proof.
  destruct sub as [|c s]; [reflexivity|].
  simpl. rewrite Ascii.eqb_refl. simpl.
  rewrite <- (app_nil_r s) at 2. now rewrite startswith_refl.
Qed.

(** ** ChapterRewriter: the preservation of dialogue *)

Section Preservation.

Import ChapterRewriter.

Variable env : Env.
Variables original s : str.
Hypothesis Hs : contains s original = true.

Let keep (rewritten dialogue : str) : str :=
  if contains dialogue original && negb (contains dialogue rewritten)
  then rewritten ++ [newline; newline] ++ dialogue
  else rewritten.

Lemma keep_monotone rewritten dialogue :
  contains s rewritten = true -> contains s (keep rewritten dialogue) = true.
Proof.
  intros H. unfold keep.
  destruct (contains dialogue original && negb (contains dialogue rewritten));
    [|exact H].
  now apply contains_app_l.
Qed.

Lemma keep_same rewritten : contains s (keep rewritten s) = true.
Proof.
  unfold keep. rewrite Hs. simpl.
  destruct (contains s rewritten) eqn:E; simpl; [exact E|].
  apply contains_app_r.
  apply (contains_app_r s [newline; newline] s). apply contains_self.
Qed.

(** After the loop over the requested dialogue the text holds each
    requested string that the original holds. *)
Lemma dialogue_loop_keeps dialogues :
  forall rewritten,
    contains s rewritten = true \/ In s dialogues ->
    contains s (fold_left keep dialogues rewritten) = true.
Proof.
  induction dialogues as [|d ds IH]; intros rewritten H; simpl.
  - destruct H as [H|[]]. exact H.
  - apply IH. destruct H as [H|[->|H]].
    + left. now apply keep_monotone.
    + left. apply keep_same.
    + now right.
Qed.

(** Without the restoration of names, the preservation step returns a text
    that holds the requested string, whatever the tier has produced. *)
Lemma dialogue_preserved_without_names rewritten controls dialogues :
  preserve_dialogue controls = Some dialogues ->
  In s dialogues ->
  preserve_character_names controls = false ->
  contains s (_apply_preservation_controls env rewritten original controls)
  = true.
Proof.
  intros Hd Hin Hn. unfold _apply_preservation_controls.
  rewrite Hd, Hn. apply dialogue_loop_keeps. now right.
Qed.

Lemma generate_rewrite_preserves_without_names k problems intensity controls
    dialogues :
  preserve_dialogue controls = Some dialogues ->
  In s dialogues ->
  preserve_character_names controls = false ->
  contains s (fst (_generate_rewrite env k original problems intensity
                     (Some controls))) = true.
Proof.
  intros Hd Hin Hn. unfold _generate_rewrite.
  destruct (match intensity with
            | LIGHT => _
            | MODERATE => _
            | COMPREHENSIVE => _
            end) as [rewritten k'].
  simpl fst. now apply dialogue_preserved_without_names with dialogues.
Qed.

End Preservation.

(** C5 at a chapter in which a name ends in -ly.  The analysis of the text
    flags the adverbs, every tier then deletes the name as a long adverb,
    and the restoration of the name overwrites the pronoun inside the
    requested dialogue, which the dialogue loop, run before, had found
    present. *)
Theorem preserved_dialogue_overwritten :
  let text := "So Beverly asked did he go" in
  let controls := {| preserve_dialogue := Some ["did he go"];
                     preserve_character_names := true;
                     preserve_plot_points := None;
                     preserve_scenes := None |} in
  exists problems,
    ProblemAnalyzer.analyze_problems text = Ok problems /\
    prose_issues problems =
      ["Excessive use of adverbs (1 found) - consider stronger verbs";
       "Overuse of weak verbs - consider more specific alternatives"] /\
    contains "did he go" text = true /\
    forall intensity,
      ChapterRewriter._generate_rewrite env0 0 text problems intensity
        (Some controls) = ("So asked did Beverly go", 0) /\
      contains "did he go" "So asked did Beverly go" = false.
Proof.
  eexists. split; [vm_compute; reflexivity|].
  split; [reflexivity|]. split; [vm_compute; reflexivity|].
  intros []; split; vm_compute; reflexivity.
Qed.

(** ** Searching a phrase in [str] of a list of strings *)

(** The first character of a [repr_char] block is the character itself,
    which then is neither the quote nor a backslash, or a backslash. *)
Lemma repr_char_head q c :
  (repr_char q c = [c] /\ Ascii.eqb c q = false /\
   Ascii.eqb c backslash = false)
  \/ exists t, repr_char q c = backslash :: t.
Proof.
  unfold repr_char.
  destruct (Ascii.eqb c q) eqn:E1; simpl; [right; eauto|].
  destruct (Ascii.eqb c backslash) eqn:E2; simpl; [right; eauto|].
  destruct (code c =? 9); [right; eauto|].
  destruct (code c =? 10); [right; eauto|].
  destruct (code c =? 13); [right; eauto|].
  destruct (isprintable c); [left; auto|right; eauto].
Qed.

(** After its first character a block holds no capital letter. *)
Lemma repr_char_tail q c :
  q = squote \/ q = dquote ->
  forallb (fun x => negb (isupper_az x)) (tl (repr_char q c)) = true.
Proof.
  intros [->| ->]; destruct c as [[] [] [] [] [] [] [] []];
    vm_compute; reflexivity.
Qed.

Definition plain_for (q : ascii) (x : ascii) : bool :=
  negb (Ascii.eqb x backslash) && negb (Ascii.eqb x q).

Lemma startswith_cons a p b s :
  startswith (a :: p) (b :: s) = Ascii.eqb a b && startswith p s.
Proof. reflexivity. Qed.

Lemma plain_for_cons q x needle :
  forallb (plain_for q) (x :: needle) = true ->
  Ascii.eqb x backslash = false /\ Ascii.eqb x q = false /\
  forallb (plain_for q) needle = true.
Proof.
  cbn [forallb]. unfold plain_for at 1.
  rewrite !andb_true_iff, !negb_true_iff. tauto.
Qed.

(** A phrase of plain characters that starts the rendering of the rest of
    a string starts that rest. *)
Lemma startswith_rendered q tail :
  forall needle u,
    forallb (plain_for q) needle = true ->
    startswith needle (flat_map (repr_char q) u ++ q :: tail) = true ->
    startswith needle u = true.
Proof.
  induction needle as [|x needle IH]; intros u Hp H; [now destruct u|].
  apply plain_for_cons in Hp. destruct Hp as (Hxb & Hxq & Hp).
  destruct u as [|c u].
  - cbn [flat_map app] in H. rewrite startswith_cons, Hxq in H.
    discriminate.
  - cbn [flat_map] in H. rewrite <- app_assoc in H.
    destruct (repr_char_head q c) as [(E & _ & _)|(t & E)]; rewrite E in H;
      cbn [app] in H; rewrite startswith_cons in H.
    + apply andb_true_iff in H. destruct H as [Hxc H].
      rewrite startswith_cons, Hxc. cbn [andb]. now apply IH.
    + rewrite Hxb in H. discriminate.
Qed.

(** A phrase with a single quote in it, after plain characters, does not
    start the rendering of the rest of a string that single quotes
    delimit, unless what follows the closing quote continues the phrase. *)
Lemma startswith_rendered_squote tail after :
  startswith after tail = false ->
  forall before u,
    forallb (plain_for squote) before = true ->
    startswith (before ++ squote :: after)
               (flat_map (repr_char squote) u ++ squote :: tail) = false.
Proof.
  intros Htail. induction before as [|x before IH]; intros u Hp.
  - cbn [app]. destruct u as [|c u]; cbn [flat_map app].
    + rewrite startswith_cons, Htail. apply andb_false_r.
    + rewrite <- app_assoc.
      destruct (repr_char_head squote c) as [(E & Hq & _)|(t & E)];
        rewrite E; cbn [app]; rewrite startswith_cons.
      * rewrite Ascii.eqb_sym, Hq. reflexivity.
      * reflexivity.
  - apply plain_for_cons in Hp. destruct Hp as (Hxb & Hxq & Hp).
    cbn [app]. destruct u as [|c u]; cbn [flat_map app].
    + rewrite startswith_cons, Hxq. reflexivity.
    + rewrite <- app_assoc.
      destruct (repr_char_head squote c) as [(E & _ & _)|(t & E)];
        rewrite E; cbn [app]; rewrite startswith_cons.
      * rewrite (IH u Hp). apply andb_false_r.
      * rewrite Hxb. reflexivity.
Qed.

(** What follows the closing quote of an element: the end of the list or a
    comma, a space and the next element. *)
Definition after_element (tail : str) : Prop :=
  tail = "]" \/ exists r, tail = ", " ++ r.

Section PhraseInList.

Variable first : ascii.
Variable others : str.

Let needle : str := first :: others.

Hypothesis Hfirst : isupper_az first = true.

Hypothesis Hblock :
  forall q u tail,
    q = squote \/ q = dquote -> after_element tail ->
    startswith needle (flat_map (repr_char q) u ++ q :: tail) = true ->
    startswith needle u = true.

Lemma first_differs c : isupper_az c = false -> Ascii.eqb first c = false.
Proof.
  intros Hc. destruct (Ascii.eqb_spec first c) as [->|]; congruence.
Qed.

Lemma startswith_other c s :
  isupper_az c = false -> startswith needle (c :: s) = false.
Proof. intros Hc. simpl. now rewrite first_differs. Qed.

Lemma contains_skip c s :
  isupper_az c = false -> contains needle (c :: s) = contains needle s.
Proof.
  intros Hc. change (contains needle (c :: s))
    with (startswith needle (c :: s) || contains needle s).
  now rewrite startswith_other.
Qed.

Lemma contains_skip_all b s :
  forallb (fun x => negb (isupper_az x)) b = true ->
  contains needle (b ++ s) = contains needle s.
Proof.
  induction b as [|c b IH]; simpl; [reflexivity|].
  rewrite andb_true_iff, negb_true_iff. intros [Hc Hb].
  rewrite first_differs by exact Hc. simpl. now apply IH.
Qed.

Lemma contains_cons c s :
  contains needle s = true -> contains needle (c :: s) = true.
Proof.
  intros H. change (contains needle (c :: s))
    with (startswith needle (c :: s) || contains needle s).
  rewrite H. apply orb_true_r.
Qed.

Lemma startswith_contains s :
  startswith needle s = true -> contains needle s = true.
Proof. intros H. destruct s; simpl in *; rewrite H; reflexivity. Qed.

(** The phrase in the rendering of the rest of an element is in that rest
    or after the element. *)
Lemma contains_rendered q tail :
  q = squote \/ q = dquote -> after_element tail ->
  forall u,
    contains needle (flat_map (repr_char q) u ++ q :: tail) = true ->
    contains needle u = true \/ contains needle tail = true.
Proof.
  intros Hq Htail. induction u as [|c u IH]; intros H.
  - right. simpl app in H. rewrite contains_skip in H; [exact H|].
    destruct Hq as [->| ->]; reflexivity.
  - destruct (startswith needle
                (flat_map (repr_char q) (c :: u) ++ q :: tail)) eqn:Es.
    + left. apply startswith_contains. now apply (Hblock _ Hq Htail).
    + simpl flat_map in H, Es. rewrite <- app_assoc in H, Es.
      pose proof (repr_char_tail c Hq) as Ht.
      destruct (repr_char q c) as [|b t] eqn:Eb.
      * simpl in H. destruct (IH H) as [Hu|Hu]; [left|now right].
        now apply contains_cons.
      * simpl tl in Ht.
        change (contains needle ((b :: t) ++ flat_map (repr_char q) u
                                 ++ q :: tail))
          with (startswith needle ((b :: t) ++ flat_map (repr_char q) u
                                   ++ q :: tail)
                || contains needle (t ++ flat_map (repr_char q) u
                                    ++ q :: tail)) in H.
        rewrite Es in H. simpl orb in H.
        rewrite contains_skip_all in H by exact Ht.
        destruct (IH H) as [Hu|Hu]; [left|now right].
        now apply contains_cons.
Qed.

Lemma contains_repr e tail :
  after_element tail ->
  contains needle (repr e ++ tail) = true ->
  contains needle e = true \/ contains needle tail = true.
Proof.
  intros Htail. unfold repr.
  set (q := if existsb (Ascii.eqb squote) e
               && negb (existsb (Ascii.eqb dquote) e)
            then dquote else squote).
  assert (Hq : q = squote \/ q = dquote).
  { unfold q. destruct (_ && _); auto. }
  intros H. simpl app in H. rewrite <- app_assoc in H. simpl app in H.
  rewrite contains_skip in H by (destruct Hq as [->| ->]; reflexivity).
  now apply (contains_rendered Hq Htail).
Qed.

Lemma join_repr_cons e l :
  join ", " (map repr (e :: l)) ++ "]" =
  repr e ++ match l with
            | [] => "]"
            | _ => ", " ++ (join ", " (map repr l) ++ "]")
            end.
Proof.
  destruct l as [|e' l]; [reflexivity|].
  change (join ", " (map repr (e :: e' :: l)))
    with (repr e ++ ", " ++ join ", " (map repr (e' :: l))).
  now rewrite <- !app_assoc.
Qed.

Lemma contains_join l :
  contains needle (join ", " (map repr l) ++ "]") = true ->
  exists e, In e l /\ contains needle e = true.
Proof.
  induction l as [|e l IH]; intros H.
  - simpl in H. rewrite first_differs in H by reflexivity. discriminate.
  - rewrite join_repr_cons in H. apply contains_repr in H.
    + destruct H as [H|H]; [exists e; split; [now left|exact H]|].
      destruct l as [|e' l'].
      * simpl in H. rewrite first_differs in H by reflexivity. discriminate.
      * change (", " ++ (join ", " (map repr (e' :: l')) ++ "]"))
          with (","%char :: " "%char
                :: (join ", " (map repr (e' :: l')) ++ "]")) in H.
        rewrite !contains_skip in H by reflexivity.
        destruct (IH H) as (x & Hx & Hc). exists x. split; [now right|exact Hc].
    + destruct l; [now left|right; eauto].
Qed.

(** The phrase is in [str(l)] only if it is in an element of [l]. *)
Lemma contains_str_of_list l :
  contains needle (str_of_list l) = true ->
  exists e, In e l /\ contains needle e = true.
Proof.
  unfold str_of_list. intros H.
  change ("[" ++ join ", " (map repr l) ++ "]")
    with ("["%char :: (join ", " (map repr l) ++ "]")) in H.
  rewrite contains_skip in H by reflexivity.
  now apply contains_join.
Qed.

End PhraseInList.

(** ** ChapterRewriter._light_rewrite *)

Lemma after_element_not_said tail :
  after_element tail -> startswith "said'" tail = false.
Proof. intros [->|(r & ->)]; reflexivity. Qed.

Lemma adverbs_phrase_in_list l :
  contains "Excessive use of adverbs" (str_of_list l) = true ->
  exists e, In e l /\ contains "Excessive use of adverbs" e = true.
Proof.
  apply contains_str_of_list; [reflexivity|].
  intros q u tail Hq _ H.
  apply (startswith_rendered q tail); [|exact H].
  destruct Hq as [->| ->]; reflexivity.
Qed.

Lemma said_phrase_in_list l :
  contains "Overuse of 'said'" (str_of_list l) = true ->
  exists e, In e l /\ contains "Overuse of 'said'" e = true.
Proof.
  apply contains_str_of_list; [reflexivity|].
  intros q u tail [->| ->] Htail H.
  - exfalso.
    pose proof (@startswith_rendered_squote tail "said'"
                  (after_element_not_said Htail) "Overuse of " u eq_refl)
      as Hno.
    change ("Overuse of " ++ squote :: "said'") with "Overuse of 'said'"
      in Hno.
    congruence.
  - apply (startswith_rendered dquote tail); [reflexivity|exact H].
Qed.

(** C10. When no prose issue mentions the excess of adverbs and no dialogue
    issue mentions the overuse of said, the LIGHT tier returns the text
    unchanged. *)
Theorem light_rewrite_identity (text : str) (problems : ProblemAnalysis) :
  (forall issue, In issue (prose_issues problems) ->
                 contains "Excessive use of adverbs" issue = false) ->
  (forall issue, In issue (dialogue_issues problems) ->
                 contains "Overuse of 'said'" issue = false) ->
  ChapterRewriter._light_rewrite text problems = text.
Proof.
  intros Hprose Hdialogue. unfold ChapterRewriter._light_rewrite.
  destruct (contains "Excessive use of adverbs"
              (str_of_list (prose_issues problems))) eqn:E1.
  { apply adverbs_phrase_in_list in E1. destruct E1 as (e & Hin & He).
    rewrite (Hprose e Hin) in He. discriminate. }
  destruct (contains "Overuse of 'said'"
              (str_of_list (dialogue_issues problems))) eqn:E2.
  { apply said_phrase_in_list in E2. destruct E2 as (e & Hin & He).
    rewrite (Hdialogue e Hin) in He. discriminate. }
  reflexivity.
Qed.

Lemma light_rewrite_identity_witness :
  ChapterRewriter._light_rewrite "He said it quietly, she said."
    {| structural_issues := [];
       narrative_issues := [];
       character_issues := [];
       pacing_issues := [];
       dialogue_issues := ["Dialogue lacks contractions - may sound unnatural"];
       prose_issues :=
         ["Overuse of weak verbs - consider more specific alternatives"];
       severity_score := 0.1%Q |}
  = "He said it quietly, she said.".
Proof.
  apply light_rewrite_identity; simpl; intros issue [<-|[]];
    vm_compute; reflexivity.
Defined.

(* ================================================================== *)
(** * Further properties of the code *)
(* ================================================================== *)

(** ** Splitting and joining *)

Lemma startswith_skipn p s :
  startswith p s = true -> s = p ++ skipn (length p) s.
Proof.
  revert s. induction p as [|a p IH]; intros [|b s]; simpl; auto.
  - discriminate.
  - rewrite andb_true_iff. intros [Hab Hp].
    apply Ascii.eqb_eq in Hab. subst b. f_equal. now apply IH.
Qed.

Lemma split_from_nonempty sep s skip : split_from sep s skip <> [].
Proof.
  revert skip. induction s as [|c s IH]; intros skip; simpl.
  - discriminate.
  - destruct skip as [|k]; [|apply IH].
    destruct (startswith sep (c :: s)); [discriminate|].
    destruct (split_from sep s 0); discriminate.
Qed.

Lemma join_cons sep x l :
  l <> [] -> join sep (x :: l) = x ++ sep ++ join sep l.
Proof. destruct l; [congruence|reflexivity]. Qed.

Lemma join_push sep c l :
  l <> [] -> join sep (push c l) = c :: join sep l.
Proof.
  destruct l as [|p [|q l]]; [congruence| |]; reflexivity.
Qed.

(** [sep.join(s.split(sep))] is [s]. *)
Lemma join_split_from sep :
  sep <> [] ->
  forall s skip, join sep (split_from sep s skip) = skipn skip s.
Proof.
  intros Hsep. induction s as [|c s IH]; intros skip.
  - simpl. now destruct skip.
  - destruct skip as [|k]; [|apply IH].
    cbn [split_from skipn].
    destruct (startswith sep (c :: s)) eqn:E.
    + rewrite join_cons by apply split_from_nonempty.
      rewrite IH. cbn [app].
      destruct sep as [|a sep]; [congruence|].
      apply startswith_skipn in E. cbn [length] in *.
      rewrite Nat.sub_succ, Nat.sub_0_r. cbn [skipn] in E.
      now rewrite <- E.
    + rewrite join_push by apply split_from_nonempty.
      rewrite IH. reflexivity.
Qed.

Lemma join_split sep s : sep <> [] -> join sep (split sep s) = s.
Proof. intros H. unfold split. now rewrite join_split_from. Qed.

Lemma length_join sep l :
  l <> [] ->
  length (join sep l) + length sep =
  list_sum (map (fun x => length x + length sep) l).
Proof.
  induction l as [|x l IH]; [congruence|]. intros _.
  destruct l as [|y l].
  - simpl. lia.
  - remember (y :: l) as l' eqn:El.
    assert (Hl : l' <> []) by (subst; discriminate).
    rewrite join_cons by exact Hl.
    rewrite !length_app. cbn [map].
    change (list_sum ((length x + length sep)
                      :: map (fun x => length x + length sep) l'))
      with ((length x + length sep)
            + list_sum (map (fun x => length x + length sep) l')).
    rewrite <- IH by exact Hl. lia.
Qed.

(** ** The scan of a pattern *)

(** The text that a scan stands for. *)
Fixpoint flatten (ts : list (ascii + str)) : str :=
  match ts with
  | [] => []
  | inl c :: ts' => c :: flatten ts'
  | inr m :: ts' => m ++ flatten ts'
  end.

(** A scan loses nothing of the text. *)
Lemma tokens_flatten ic r :
  forall s prev skip, flatten (tokens ic r prev s skip) = skipn skip s.
Proof.
  induction s as [|c s IH]; intros prev skip.
  - now destruct skip.
  - destruct skip as [|k]; [|apply IH].
    cbn [tokens skipn].
    destruct (match_at ic r prev (c :: s)) as [rest|];
      [|cbn [flatten]; now rewrite IH].
    destruct (length (c :: s) - length rest) as [|k];
      [cbn [flatten]; now rewrite IH|].
    cbn [flatten]. rewrite IH. rewrite firstn_cons. cbn [app].
    now rewrite firstn_skipn.
Qed.

Lemma subst_id ts : subst (fun m => m) ts = flatten ts.
Proof. induction ts as [|[c|m] ts IH]; simpl; now rewrite ?IH. Qed.

Lemma concat_push c ps : ps <> [] -> concat (push c ps) = c :: concat ps.
Proof. destruct ps; [congruence|reflexivity]. Qed.

Lemma concat_pieces ts : concat (pieces true ts) = flatten ts.
Proof.
  induction ts as [|[c|m] ts IH]; cbn [pieces flatten].
  - reflexivity.
  - rewrite concat_push by apply pieces_nonempty. now rewrite IH.
  - cbn [concat app]. now rewrite IH.
Qed.

Lemma in_tokens_inl ic r c :
  forall s prev skip, In (inl c) (tokens ic r prev s skip) -> In c s.
Proof.
  induction s as [|x s IH]; intros prev skip H; [destruct H|].
  destruct skip as [|k]; cbn [tokens] in H.
  - destruct (match_at ic r prev (x :: s)) as [rest|].
    + destruct (length (x :: s) - length rest) as [|k].
      * destruct H as [H|H]; [inversion H; now left|right; eauto].
      * destruct H as [H|H]; [discriminate|right; eauto].
    + destruct H as [H|H]; [inversion H; now left|right; eauto].
  - right. eauto.
Qed.

Section RunsOfAClass.

Variable p : ascii -> bool.

Fixpoint drop_while (s : str) : str :=
  match s with
  | [] => []
  | c :: s' => if p c then drop_while s' else s
  end.

Lemma drop_while_length s : length (drop_while s) <= length s.
Proof.
  induction s as [|c s IH]; simpl; [lia|].
  destruct (p c); simpl; lia.
Qed.

Lemma drop_while_prefix s :
  forallb p (firstn (length s - length (drop_while s)) s) = true.
Proof.
  induction s as [|c s IH]; [reflexivity|].
  cbn [drop_while]. destruct (p c) eqn:E.
  - change (length (c :: s)) with (S (length s)).
    rewrite Nat.sub_succ_l by apply drop_while_length.
    cbn [firstn forallb]. now rewrite E, IH.
  - now rewrite Nat.sub_diag.
Qed.

(** With nothing after it the greedy repetition takes every character of
    the class. *)
Lemma star_greedy_all s :
  forall prev,
    star_greedy false p prev s (fun _ rest => Some rest)
    = Some (drop_while s).
Proof.
  induction s as [|c s IH]; intros prev; [reflexivity|].
  cbn [star_greedy drop_while]. unfold cls_ok.
  destruct (p c); [now rewrite IH|reflexivity].
Qed.

Lemma match_at_plus prev c s :
  match_at false (Plus p) prev (c :: s) =
  if p c then Some (drop_while s) else None.
Proof.
  unfold match_at, Plus. cbn [exec]. unfold cls_ok.
  destruct (p c); [apply star_greedy_all|reflexivity].
Qed.

(** In the scan of [p+] the unmatched characters are those outside the
    class and the matches hold characters of the class only. *)
Lemma tokens_plus s :
  forall prev skip,
    Forall (fun t => match t with
                     | inl c => p c = false
                     | inr m => forallb p m = true
                     end)
           (tokens false (Plus p) prev s skip).
Proof.
  induction s as [|c s IH]; intros prev skip; [constructor|].
  destruct skip as [|k]; cbn [tokens]; [|apply IH].
  rewrite match_at_plus. destruct (p c) eqn:E.
  - change (length (c :: s)) with (S (length s)).
    rewrite Nat.sub_succ_l by apply drop_while_length.
    constructor; [|apply IH].
    cbn [firstn forallb]. rewrite E. apply drop_while_prefix.
  - constructor; [exact E|apply IH].
Qed.

End RunsOfAClass.

(** ** The chapters and the heading lines *)

Section DetectorShape.

Import ChapterDetector.

Variable manuscript : str.

(** The lines of the manuscript, each with its index. *)
Definition numbered_lines : list (nat * str) :=
  enumerate (split [newline] manuscript).

(** The lines that a heading pattern matches once stripped. *)
Definition heading_lines : list (nat * str) :=
  filter (fun il => is_heading (strip (snd il))) numbered_lines.

(** The boundary that the loop opens at the heading line [il], with the
    offset that the code computes. *)
Definition opened_at (number : nat) (il : nat * str) (e : nat)
    : ChapterBoundary :=
  {| chapter_number := number;
     start_position := _get_position_at_line manuscript (fst il);
     end_position := e;
     title := _extract_chapter_title (strip (snd il));
     confidence :=
       _calculate_confidence (strip (snd il)) (fst il)
         (split [newline] manuscript) |}.

(** What the loop has built after the heading lines [hs]: each boundary
    ends where the next one was opened, the last one at the end of the
    manuscript. *)
Fixpoint opened_from (number : nat) (hs : list (nat * str))
    : list ChapterBoundary :=
  match hs with
  | [] => []
  | il :: rest =>
      opened_at number il
        match rest with
        | [] => length manuscript
        | jl :: _ => _get_position_at_line manuscript (fst jl)
        end
      :: opened_from (S number) rest
  end.

Lemma set_last_end_cons b cs e :
  cs <> [] -> set_last_end (b :: cs) e = b :: set_last_end cs e.
Proof. destruct cs; [congruence|reflexivity]. Qed.

Lemma opened_from_snoc hs :
  forall number il,
    opened_from number (hs ++ [il]) =
    set_last_end (opened_from number hs)
      (_get_position_at_line manuscript (fst il))
    ++ [opened_at (number + length hs) il (length manuscript)].
Proof.
  induction hs as [|h hs IH]; intros number il.
  - simpl. now rewrite Nat.add_0_r.
  - destruct hs as [|h' hs'].
    + simpl. now rewrite Nat.add_1_r.
    + change (opened_from number ((h :: h' :: hs') ++ [il]))
        with (opened_at number h
                (_get_position_at_line manuscript (fst h'))
              :: opened_from (S number) ((h' :: hs') ++ [il])).
      rewrite IH.
      change (opened_from number (h :: h' :: hs'))
        with (opened_at number h
                (_get_position_at_line manuscript (fst h'))
              :: opened_from (S number) (h' :: hs')).
      rewrite set_last_end_cons by (simpl; discriminate).
      cbn [app]. f_equal. f_equal. f_equal. f_equal. simpl. lia.
Qed.

Lemma fold_detect_shape (l : list (nat * str)) :
  forall hs,
    fold_left (detect_line manuscript (split [newline] manuscript)) l
      (opened_from 1 hs, 1 + length hs) =
    (opened_from 1 (hs ++ filter (fun il => is_heading (strip (snd il))) l),
     1 + length (hs ++ filter (fun il => is_heading (strip (snd il))) l)).
Proof.
  induction l as [|[i line] l IH]; intros hs.
  - simpl. now rewrite app_nil_r.
  - cbn [fold_left filter snd].
    unfold detect_line at 2.
    destruct (is_heading (strip line)) eqn:E.
    + replace (if is_empty (opened_from 1 hs)
               then opened_from 1 hs
               else set_last_end (opened_from 1 hs)
                      (_get_position_at_line manuscript i))
        with (set_last_end (opened_from 1 hs)
                (_get_position_at_line manuscript i))
        by (destruct (opened_from 1 hs); reflexivity).
      pose proof (@opened_from_snoc hs 1 (i, line)) as Hs.
      unfold opened_at in Hs. cbn [fst snd] in Hs.
      rewrite <- Hs.
      replace (1 + length hs + 1) with (1 + length (hs ++ [(i, line)]))
        by (rewrite length_app; simpl; lia).
      rewrite IH. now rewrite <- app_assoc.
    + apply IH.
Qed.

(** The chapters are the heading lines. *)
Lemma detect_chapters_shape :
  detect_chapters manuscript =
  match heading_lines with
  | [] => [ {| chapter_number := 1;
               start_position := 0;
               end_position := length manuscript;
               title := None;
               confidence := 1.0%Q |} ]
  | _ => opened_from 1 heading_lines
  end.
Proof.
  unfold detect_chapters.
  pose proof (@fold_detect_shape
                (enumerate (split [newline] manuscript)) []) as H.
  cbn [opened_from length app Nat.add] in H. rewrite H.
  cbn [fst]. fold numbered_lines. fold heading_lines.
  destruct heading_lines as [|h hs]; reflexivity.
Qed.

End DetectorShape.

(** ** The offsets of the lines *)

Section Offsets.

Import ChapterDetector.

Variable manuscript : str.

Let lines := split [newline] manuscript.
Let pos := _get_position_at_line manuscript.

Lemma list_sum_app_nat (a b : list nat) :
  list_sum (a ++ b) = list_sum a + list_sum b.
Proof. induction a; simpl; lia. Qed.

Lemma firstn_succ_nth {A} (l : list A) i x :
  nth_error l i = Some x -> firstn (S i) l = firstn i l ++ [x].
Proof.
  revert i. induction l as [|a l IH]; intros [|i] H; try discriminate.
  - simpl in H. inversion H. reflexivity.
  - simpl in H. rewrite (firstn_cons (S i)), (firstn_cons i), (IH i H).
    reflexivity.
Qed.

(** The offset of the next line is past the line and its newline. *)
Lemma pos_succ i line :
  nth_error lines i = Some line -> pos (S i) = pos i + (length line + 1).
Proof.
  intros H. unfold pos, _get_position_at_line. fold lines.
  rewrite (@firstn_succ_nth _ _ _ _ H), map_app, list_sum_app_nat.
  cbn [map]. unfold list_sum at 2. cbn [fold_right].
  now rewrite Nat.add_0_r.
Qed.

Lemma pos_mono i j : i <= j -> pos i <= pos j.
Proof.
  intros Hij. unfold pos, _get_position_at_line. fold lines.
  replace j with (i + (j - i)) by lia.
  generalize (j - i). intros d. clear Hij. revert i.
  induction lines as [|x l IH]; intros i.
  - now rewrite !firstn_nil.
  - destruct i as [|i]; simpl; [lia|].
    specialize (IH i). simpl in IH. lia.
Qed.

Lemma pos_all : pos (length lines) = length manuscript + 1.
Proof.
  unfold pos, _get_position_at_line. fold lines.
  rewrite firstn_all.
  pose proof (@length_join [newline] lines) as H.
  unfold lines in H at 1. specialize (H (@split_from_nonempty _ _ _)).
  fold lines in H. unfold lines in H at 1.
  rewrite join_split in H by discriminate.
  simpl length in H. fold lines in H. symmetry. exact H.
Qed.

(** A line lies within the manuscript. *)
Lemma pos_line_end i line :
  nth_error lines i = Some line -> pos i + length line <= length manuscript.
Proof.
  intros H. pose proof (@pos_succ _ _ H) as Hs.
  assert (Hi : S i <= length lines).
  { apply Nat.le_succ_l. apply nth_error_Some. congruence. }
  pose proof (@pos_mono _ _ Hi) as Hm. rewrite pos_all in Hm. lia.
Qed.

(** Indexed lines, in ascending order of their indices, from [lo] on. *)
Fixpoint ascending (lo : nat) (hs : list (nat * str)) : Prop :=
  match hs with
  | [] => True
  | il :: rest =>
      lo <= fst il /\ nth_error lines (fst il) = Some (snd il) /\
      ascending (S (fst il)) rest
  end.

Lemma ascending_weaken hs : forall lo lo',
  lo' <= lo -> ascending lo hs -> ascending lo' hs.
Proof.
  destruct hs as [|il rest]; intros lo lo' Hle; simpl; auto.
  intros (H1 & H2 & H3). repeat split; auto. lia.
Qed.

Lemma ascending_filter (P : nat * str -> bool) :
  forall t k,
    skipn k lines = t ->
    ascending k (filter P (combine (List.seq k (length t)) t)).
Proof.
  induction t as [|x t IH]; intros k Hk; simpl; [exact I|].
  assert (Hx : nth_error lines k = Some x).
  { replace k with (k + 0) by apply Nat.add_0_r.
    rewrite <- nth_error_skipn, Hk. reflexivity. }
  assert (Ht : skipn (S k) lines = t).
  { change (S k) with (1 + k). rewrite <- skipn_skipn, Hk. reflexivity. }
  specialize (IH (S k) Ht).
  destruct (P (k, x)).
  - simpl. repeat split; auto.
  - eapply ascending_weaken; [|exact IH]. lia.
Qed.

Lemma ascending_headings :
  ascending 0 (heading_lines manuscript).
Proof.
  unfold heading_lines, numbered_lines, enumerate. fold lines.
  now apply ascending_filter.
Qed.

Lemma heading_nonempty line :
  is_heading (strip line) = true -> line <> [].
Proof. intros H ->. vm_compute in H. discriminate. Qed.

Lemma headings_are_headings :
  Forall (fun il => is_heading (strip (snd il)) = true)
         (heading_lines manuscript).
Proof.
  apply Forall_forall. intros il H. unfold heading_lines in H.
  apply filter_In in H. tauto.
Qed.

(** Each boundary opened by a heading line lies at or after the offset of
    line [lo], is not empty, and ends within the manuscript. *)
Lemma opened_from_bounds hs :
  forall number lo,
    ascending lo hs ->
    Forall (fun il => is_heading (strip (snd il)) = true) hs ->
    forall c, In c (opened_from manuscript number hs) ->
              pos lo <= start_position c /\
              start_position c < end_position c /\
              end_position c <= length manuscript.
Proof.
  induction hs as [|[i line] rest IH]; intros number lo Hasc Hhead c Hc;
    [destruct Hc|].
  destruct Hasc as (Hlo & Hnth & Hrest). cbn [fst snd] in *.
  inversion Hhead as [|? ? Hline Hhead']; subst.
  cbn [snd] in Hline. apply heading_nonempty in Hline.
  assert (Hlen : 1 <= length line) by (destruct line; [congruence|simpl; lia]).
  pose proof (@pos_line_end _ _ Hnth) as Hend.
  pose proof (@pos_succ _ _ Hnth) as Hsucc.
  pose proof (@pos_mono _ _ Hlo) as Hmono.
  destruct Hc as [<-|Hc].
  - cbn [opened_at start_position end_position fst]. fold pos.
    destruct rest as [|[j line'] rest'].
    + repeat split; lia.
    + destruct Hrest as (Hj & Hnj & _). cbn [fst snd] in *.
      pose proof (@pos_mono _ _ Hj). pose proof (@pos_line_end _ _ Hnj).
      repeat split; lia.
  - destruct (IH (S number) (S i) Hrest Hhead' c Hc) as (H1 & H2 & H3).
    repeat split; lia.
Qed.

End Offsets.

(** ** The offset of a line in the text *)

(** The offset at which line [i] of a text starts, the lines being counted
    from 0 and ended by line breaks: the number of characters up to the
    [i]-th line break, that one included. *)
Fixpoint line_start (i : nat) (text : str) {struct text} : nat :=
  match i, text with
  | 0, _ => 0
  | S _, [] => 0
  | S i', c :: rest =>
      S (if Ascii.eqb c newline then line_start i' rest
         else line_start i rest)
  end.

Section LineStart.

Import ChapterDetector.

Lemma split_newline_cons c s :
  split [newline] (c :: s) =
  if Ascii.eqb c newline then [] :: split [newline] s
  else push c (split [newline] s).
Proof.
  unfold split. cbn [split_from startswith length Nat.sub].
  rewrite (Ascii.eqb_sym newline c), andb_true_r. reflexivity.
Qed.

Lemma list_sum_cons n l : list_sum (n :: l) = n + list_sum l.
Proof. reflexivity. Qed.

Lemma line_start_first text : line_start 0 text = 0.
Proof. now destruct text. Qed.

(** The offset that the code computes for a line of the text is the one at
    which the line starts. *)
Lemma get_position_line_start text :
  forall i, i < length (split [newline] text) ->
            _get_position_at_line text i = line_start i text.
Proof.
  unfold _get_position_at_line. cbv zeta.
  induction text as [|c s IH]; intros [|i] Hi; try reflexivity.
  - cbn [split split_from length] in Hi. lia.
  - rewrite split_newline_cons in *. cbn [line_start].
    destruct (Ascii.eqb c newline).
    + cbn [length] in Hi. cbn [firstn map length Nat.add].
      rewrite list_sum_cons, IH by lia. reflexivity.
    + destruct (split [newline] s) as [|l0 rest] eqn:E;
        [exfalso; exact (@split_from_nonempty _ _ _ E)|].
      cbn [push length] in Hi. specialize (IH (S i) Hi).
      cbn [push firstn map length] in *.
      rewrite list_sum_cons in *. rewrite <- IH. reflexivity.
Qed.

(** At that offset the text reads the line. *)
Lemma line_at_line_start text :
  forall i line,
    nth_error (split [newline] text) i = Some line ->
    firstn (length line) (skipn (line_start i text) text) = line.
Proof.
  induction text as [|c s IH]; intros i line H.
  - destruct i as [|[|i]]; cbn in H; [|discriminate|discriminate].
    injection H as <-. reflexivity.
  - rewrite split_newline_cons in H. cbn [line_start].
    destruct (Ascii.eqb c newline).
    + destruct i as [|i]; cbn [nth_error] in H.
      * injection H as <-. reflexivity.
      * cbn [skipn]. now apply IH.
    + destruct (split [newline] s) as [|l0 rest] eqn:E;
        [exfalso; exact (@split_from_nonempty _ _ _ E)|].
      cbn [push] in H. destruct i as [|i]; cbn [nth_error] in H.
      * injection H as <-. cbn [skipn length firstn]. f_equal.
        pose proof (IH 0 l0 eq_refl) as H0.
        now rewrite line_start_first in H0.
      * cbn [skipn]. now apply (IH (S i)).
Qed.

Lemma in_numbered_lines manuscript i line :
  In (i, line) (numbered_lines manuscript) ->
  nth_error (split [newline] manuscript) i = Some line.
Proof.
  unfold numbered_lines, enumerate.
  generalize (split [newline] manuscript). intros l.
  assert (H : forall k, In (i, line) (combine (List.seq k (length l)) l) ->
                        k <= i /\ nth_error l (i - k) = Some line).
  { induction l as [|x l IH]; intros k H; [destruct H|].
    cbn [length List.seq combine] in H. destruct H as [H|H].
    - injection H as -> ->. rewrite Nat.sub_diag. split; [lia|reflexivity].
    - destruct (IH _ H) as [Hk Hn]. split; [lia|].
      replace (i - k) with (S (i - S k)) by lia. exact Hn. }
  intros Hin. destruct (H 0 Hin) as [_ Hn].
  now rewrite Nat.sub_0_r in Hn.
Qed.

Variable manuscript : str.

(** The boundary of the chapter that the heading line [il] opens: it
    starts where that line starts in the manuscript. *)
Definition boundary_at (number : nat) (il : nat * str) (e : nat)
    : ChapterBoundary :=
  {| chapter_number := number;
     start_position := line_start (fst il) manuscript;
     end_position := e;
     title := _extract_chapter_title (strip (snd il));
     confidence :=
       _calculate_confidence (strip (snd il)) (fst il)
         (split [newline] manuscript) |}.

(** One boundary for each heading line, numbered from [number] on, from
    the start of its line to the start of the next heading line, or to the
    end of the manuscript. *)
Fixpoint boundaries_from (number : nat) (hs : list (nat * str))
    : list ChapterBoundary :=
  match hs with
  | [] => []
  | il :: rest =>
      boundary_at number il
        match rest with
        | [] => length manuscript
        | jl :: _ => line_start (fst jl) manuscript
        end
      :: boundaries_from (S number) rest
  end.

Lemma boundaries_from_length hs number :
  length (boundaries_from number hs) = length hs.
Proof.
  revert number. induction hs as [|h hs IH]; intros number; simpl; auto.
Qed.

(** What the loop builds is made of these boundaries. *)
Lemma opened_from_boundaries hs :
  forall number lo,
    ascending manuscript lo hs ->
    opened_from manuscript number hs = boundaries_from number hs.
Proof.
  induction hs as [|il rest IH]; intros number lo Hasc; [reflexivity|].
  destruct Hasc as (_ & Hnth & Hrest).
  assert (Hpos : forall (jl : nat * str) line,
             nth_error (split [newline] manuscript) (fst jl) = Some line ->
             _get_position_at_line manuscript (fst jl)
             = line_start (fst jl) manuscript).
  { intros jl line H. apply get_position_line_start.
    apply nth_error_Some. congruence. }
  cbn [opened_from boundaries_from].
  rewrite (IH (S number) _ Hrest). f_equal.
  unfold opened_at, boundary_at. rewrite (Hpos il _ Hnth).
  destruct rest as [|jl rest']; [reflexivity|].
  destruct Hrest as (_ & Hj & _). now rewrite (Hpos jl _ Hj).
Qed.

End LineStart.

(** ** What [detect_chapters] returns *)

(** A manuscript of two chapters, of a heading and a line each. *)
Definition two_chapters : str :=
  "Chapter 1" ++ [newline] ++ "Hi." ++ [newline] ++
  "Chapter 2" ++ [newline] ++ "Bye.".

(** X1. [detect_chapters] returns one boundary for each line that a heading
    pattern matches, in the order of the lines, numbered from 1: the
    boundary starts at the offset at which its line starts in the
    manuscript and ends at the offset at which the next heading line
    starts, the last one at the end of the manuscript; without such a line
    it returns the single boundary of the whole manuscript.  The offset at
    which a line starts is defined on the text, by counting characters up
    to a line break, and the manuscript reads the line there. *)
Theorem detect_chapters_by_headings (manuscript : str) :
  ChapterDetector.detect_chapters manuscript =
  match heading_lines manuscript with
  | [] => [ {| chapter_number := 1;
               start_position := 0;
               end_position := length manuscript;
               title := None;
               confidence := 1.0%Q |} ]
  | _ => boundaries_from manuscript 1 (heading_lines manuscript)
  end
  /\
  length (ChapterDetector.detect_chapters manuscript) =
  Nat.max 1 (length (heading_lines manuscript))
  /\
  (forall i line,
      In (i, line) (numbered_lines manuscript) ->
      slice manuscript (line_start i manuscript)
            (line_start i manuscript + length line) = line).
Proof.
  rewrite detect_chapters_shape.
  rewrite (@opened_from_boundaries manuscript (heading_lines manuscript) 1 0
             (ascending_headings manuscript)).
  split; [reflexivity|]. split.
  - destruct (heading_lines manuscript) as [|h hs] eqn:E; [reflexivity|].
    rewrite boundaries_from_length. simpl. reflexivity.
  - intros i line H. apply in_numbered_lines in H. unfold slice.
    rewrite Nat.add_comm, Nat.add_sub. now apply line_at_line_start.
Qed.

(** X2. Every boundary that [detect_chapters] returns lies within the
    manuscript, [start_position <= end_position <= len(manuscript)], and
    it is not empty, [start_position < end_position], unless the
    manuscript itself is empty. *)
Theorem detect_chapters_bounds (manuscript : str) (c : ChapterBoundary) :
  In c (ChapterDetector.detect_chapters manuscript) ->
  start_position c <= end_position c /\
  end_position c <= length manuscript /\
  (manuscript <> [] -> start_position c < end_position c).
Proof.
  rewrite detect_chapters_shape.
  destruct (heading_lines manuscript) as [|h hs] eqn:E.
  - intros [<-|[]]. simpl. repeat split; try lia.
    intros H. destruct manuscript; [congruence|simpl; lia].
  - rewrite <- E. intros Hc.
    destruct (@opened_from_bounds manuscript (heading_lines manuscript)
                1 0 (ascending_headings manuscript)
                (headings_are_headings manuscript) c Hc) as (_ & H1 & H2).
    repeat split; lia.
Qed.

Lemma detect_chapters_bounds_witness :
  let c := {| chapter_number := 2; start_position := 14; end_position := 28;
              title := None; confidence := 0.90%Q |} in
  start_position c <= end_position c /\
  end_position c <= length two_chapters /\
  (two_chapters <> [] -> start_position c < end_position c).
Proof.
  apply (@detect_chapters_bounds two_chapters).
  vm_compute. right. left. reflexivity.
Defined.

Lemma slice_to_end (s : str) a : slice s a (length s) = skipn a s.
Proof.
  unfold slice. apply firstn_all2. rewrite length_skipn. lia.
Qed.

Lemma slice_then_rest (s : str) a b :
  a <= b -> slice s a b ++ skipn b s = skipn a s.
Proof.
  intros H. unfold slice.
  replace (skipn b s) with (skipn (b - a) (skipn a s)).
  - apply firstn_skipn.
  - rewrite skipn_skipn. f_equal. lia.
Qed.

(** The texts of the boundaries opened by heading lines make up the
    manuscript from the first of these lines on. *)
Lemma opened_from_tile manuscript hs :
  forall number lo,
    ascending manuscript lo hs ->
    Forall (fun il => ChapterDetector.is_heading (strip (snd il)) = true) hs ->
    concat (map (chapter_text manuscript)
                (opened_from manuscript number hs)) =
    match hs with
    | [] => []
    | il :: _ =>
        skipn (ChapterDetector._get_position_at_line manuscript (fst il))
              manuscript
    end.
Proof.
  induction hs as [|il rest IH]; intros number lo Hasc Hhead; [reflexivity|].
  pose proof (@opened_from_bounds manuscript (il :: rest) number lo
                Hasc Hhead) as Hb.
  destruct Hasc as (Hlo & Hnth & Hrest).
  inversion Hhead as [|? ? Hline Hhead']; subst.
  cbn [opened_from map concat].
  rewrite (IH (S number) (S (fst il)) Hrest Hhead').
  destruct rest as [|jl rest'].
  - unfold chapter_text. cbn [opened_at start_position end_position].
    rewrite slice_to_end. apply app_nil_r.
  - unfold chapter_text at 1.
    cbn [opened_at start_position end_position].
    apply slice_then_rest.
    specialize (Hb _ (or_introl eq_refl)).
    cbn [opened_at start_position end_position] in Hb. lia.
Qed.

(** X3. The texts of the chapters, one after the other, are the manuscript
    from the start of the first chapter on: the chapters neither overlap
    nor leave a gap, and what stands before the first heading line belongs
    to no chapter. *)
Theorem chapter_texts_tile (manuscript : str) :
  exists first,
    hd_error (ChapterDetector.detect_chapters manuscript) = Some first /\
    concat (map (chapter_text manuscript)
                (ChapterDetector.detect_chapters manuscript)) =
    skipn (start_position first) manuscript.
Proof.
  rewrite detect_chapters_shape.
  destruct (heading_lines manuscript) as [|il rest] eqn:E.
  - eexists. split; [reflexivity|].
    cbn [map concat start_position]. unfold chapter_text.
    cbn [start_position end_position].
    rewrite slice_to_end. apply app_nil_r.
  - rewrite <- E.
    rewrite (@opened_from_tile manuscript (heading_lines manuscript) 1 0
               (ascending_headings manuscript)
               (headings_are_headings manuscript)).
    rewrite E. eexists. split; reflexivity.
Qed.





(** ** Stripped strings *)

Lemma lstrip_head s c t : lstrip s = c :: t -> isspace c = false.
Proof.
  induction s as [|x s IH]; simpl; [discriminate|].
  destruct (isspace x) eqn:E; [exact IH|].
  intros H. inversion H; subst. exact E.
Qed.

Lemma lstrip_fixed c t : isspace c = false -> lstrip (c :: t) = c :: t.
Proof. intros H. simpl. now rewrite H. Qed.

Lemma lstrip_app_mark u a v :
  isspace a = false -> lstrip (u ++ a :: v) = lstrip u ++ a :: v.
Proof.
  intros Ha. induction u as [|x u IH]; simpl.
  - now rewrite Ha.
  - destruct (isspace x); [exact IH|reflexivity].
Qed.

(** A stripped string is empty or has a character that is no whitespace at
    each end; stripping it again changes nothing. *)
Lemma strip_ends s :
  strip s = [] \/
  exists a b, hd_error (strip s) = Some a /\
              hd_error (rev (strip s)) = Some b /\
              isspace a = false /\ isspace b = false.
Proof.
  unfold strip, rstrip.
  destruct (lstrip s) as [|a y'] eqn:Ey; [left; reflexivity|].
  pose proof (@lstrip_head _ _ _ Ey) as Ha.
  right. cbn [rev]. rewrite (@lstrip_app_mark (rev y') a [] Ha).
  rewrite rev_app_distr. cbn [rev app].
  destruct (lstrip (rev y')) as [|b z] eqn:Ez.
  - exists a, a. cbn. auto.
  - pose proof (@lstrip_head _ _ _ Ez) as Hb.
    exists a, b. rewrite rev_involutive. cbn. auto.
Qed.

Lemma strip_idempotent s : strip (strip s) = strip s.
Proof.
  destruct (strip_ends s) as [E|(a & b & Ha & Hb & Hsa & Hsb)].
  - rewrite E. reflexivity.
  - destruct (strip s) as [|x t] eqn:E; [discriminate|].
    cbn in Ha. inversion Ha; subst x.
    unfold strip at 1, rstrip. rewrite (@lstrip_fixed a t Hsa).
    destruct (rev (a :: t)) as [|y r] eqn:Er; [discriminate|].
    cbn in Hb. inversion Hb; subst y.
    rewrite (@lstrip_fixed b r Hsb), <- Er. apply rev_involutive.
Qed.

(** X5. A title that [_extract_chapter_title] returns is never empty and
    has no whitespace at either end. *)
Theorem extract_chapter_title_stripped (line t : str) :
  ChapterDetector._extract_chapter_title line = Some t ->
  t <> [] /\ strip t = t.
Proof.
  unfold ChapterDetector._extract_chapter_title. cbv zeta.
  match goal with
  | |- (if is_empty (strip ?x) then _ else _) = _ -> _ => set (rest := x)
  end.
  destruct (strip rest) as [|c u] eqn:E; cbn [is_empty]; [discriminate|].
  intros H. inversion H; subst t. split; [discriminate|].
  rewrite <- E. apply strip_idempotent.
Qed.

Lemma extract_chapter_title_stripped_witness :
  "The Beginning" <> [] /\ strip "The Beginning" = "The Beginning".
Proof.
  apply (@extract_chapter_title_stripped "Chapter 1:  The Beginning ").
  vm_compute. reflexivity.
Defined.

(** ** The dominance relation *)

(** X6. [is_better_than] is a strict partial order on metrics: no metrics
    dominate themselves, two metrics never dominate each other, and
    dominance is transitive. *)
Theorem is_better_than_strict_order :
  (forall A, is_better_than A A = false) /\
  (forall A B, is_better_than A B = true -> is_better_than B A = false) /\
  (forall A B C, is_better_than A B = true -> is_better_than B C = true ->
                 is_better_than A C = true).
Proof.
  assert (Hirr : forall A, is_better_than A A = false).
  { intros A. destruct (is_better_than A A) eqn:E; [|reflexivity].
    apply is_better_than_spec in E. destruct E as [_ E].
    exfalso. exact (Qlt_irrefl _ E). }
  assert (Htrans : forall A B C,
             is_better_than A B = true -> is_better_than B C = true ->
             is_better_than A C = true).
  { intros A B C HAB HBC.
    apply is_better_than_spec in HAB, HBC. apply is_better_than_spec.
    destruct HAB as [FAB LAB], HBC as [FBC LBC].
    split; [|exact (Qlt_trans _ _ _ LBC LAB)].
    unfold dimensions in *.
    repeat match goal with
           | H : Forall2 _ (_ :: _) (_ :: _) |- _ =>
               inversion H; clear H; subst
           end.
    repeat constructor; eapply Qle_trans; eassumption. }
  split; [exact Hirr|]. split; [|exact Htrans].
  intros A B HAB. destruct (is_better_than B A) eqn:HBA; [|reflexivity].
  rewrite <- (Hirr A). symmetry. exact (Htrans A B A HAB HBA).
Qed.

(** ** The range of the scores *)

Lemma Qnat_nonneg n : (0 <= Qnat n)%Q.
Proof.
  unfold Qnat, Qle. simpl. rewrite Z.mul_1_r. apply Nat2Z.is_nonneg.
Qed.

Lemma Qltb_false_le (a b : Q) : Qltb a b = false -> (b <= a)%Q.
Proof.
  unfold Qltb. rewrite negb_false_iff. apply Qle_bool_iff.
Qed.

Lemma min_cases (a b : Q) :
  (Py.min a b = b /\ (b < a)%Q) \/ (Py.min a b = a /\ (a <= b)%Q).
Proof.
  unfold Py.min. destruct (Qltb b a) eqn:E.
  - left. split; [reflexivity|now apply Qltb_lt].
  - right. split; [reflexivity|now apply Qltb_false_le].
Qed.

Lemma max_cases (a b : Q) :
  (Py.max a b = b /\ (a < b)%Q) \/ (Py.max a b = a /\ (b <= a)%Q).
Proof.
  unfold Py.max. destruct (Qltb a b) eqn:E.
  - left. split; [reflexivity|now apply Qltb_lt].
  - right. split; [reflexivity|now apply Qltb_false_le].
Qed.

(** Replaces each [min] and [max] by its value, case by case, and leaves
    the rest to linear arithmetic. *)
Ltac min_max_lra :=
  repeat match goal with
         | |- context [if ?c then _ else _] => destruct c
         end;
  repeat match goal with
         | |- context [Py.min ?a ?b] =>
             let H := fresh in
             destruct (min_cases a b) as [[-> H]|[-> H]]
         | |- context [Py.max ?a ?b] =>
             let H := fresh in
             destruct (max_cases a b) as [[-> H]|[-> H]]
         end;
  lra.

(** Takes a run that returned apart: each [bind], each test, down to the
    value returned. *)
Ltac returned H :=
  repeat first
    [ progress cbv zeta in H
    | match type of H with
      | bind _ _ = Ok _ =>
          let x := fresh "x" in
          let Hx := fresh "Hx" in
          apply bind_ok in H; destruct H as (x & Hx & H);
          try returned Hx
      | (if ?c then _ else _) = Ok _ => destruct c
      | Ok _ = Ok _ => injection H as H; try subst
      end ].

Section ScoreRange.

Import QualityAssessor.

Variable text : str.

Lemma readability_range q :
  _assess_readability text = Ok q -> (0 <= q <= 1)%Q.
Proof.
  unfold _assess_readability. intros H. returned H; min_max_lra.
Qed.

Ltac with_counts :=
  repeat match goal with
         | |- context [Qnat ?n] =>
             lazymatch goal with
             | _ : (0 <= Qnat n)%Q |- _ => fail
             | _ => pose proof (Qnat_nonneg n)
             end
         end.

Lemma story_structure_range q :
  _assess_story_structure text = Ok q -> (0 <= q <= 1)%Q.
Proof.
  unfold _assess_story_structure. intros H.
  returned H; with_counts; min_max_lra.
Qed.

Lemma character_consistency_range q :
  _assess_character_consistency text = Ok q -> (0 <= q <= 1)%Q.
Proof.
  unfold _assess_character_consistency. intros H.
  returned H; min_max_lra.
Qed.

Lemma pacing_range q : _assess_pacing text = Ok q -> (0 <= q <= 1)%Q.
Proof.
  unfold _assess_pacing. intros H.
  returned H;
    match goal with
    | |- context [Qnat ?n] => pose proof (Qnat_nonneg n)
    | _ => idtac
    end; min_max_lra.
Qed.

Lemma dialogue_effectiveness_range q :
  _assess_dialogue_effectiveness text = Ok q -> (0 <= q <= 1)%Q.
Proof.
  unfold _assess_dialogue_effectiveness. intros H.
  returned H; min_max_lra.
Qed.

Lemma narrative_flow_range q :
  _assess_narrative_flow text = Ok q -> (0 <= q <= 1)%Q.
Proof.
  unfold _assess_narrative_flow. intros H.
  returned H;
    match goal with
    | |- context [Qnat ?n] => pose proof (Qnat_nonneg n)
    | _ => idtac
    end; min_max_lra.
Qed.

Lemma tension_range q : _assess_tension text = Ok q -> (0 <= q <= 1)%Q.
Proof.
  unfold _assess_tension. intros H.
  returned H;
    repeat match goal with
           | |- context [Qnat ?n] =>
               lazymatch goal with
               | _ : (0 <= Qnat n)%Q |- _ => fail
               | _ => pose proof (Qnat_nonneg n)
               end
           end; min_max_lra.
Qed.

Lemma prose_quality_range q :
  _assess_prose_quality text = Ok q -> (0 <= q <= 1)%Q.
Proof.
  unfold _assess_prose_quality. intros H. returned H; min_max_lra.
Qed.

End ScoreRange.

Lemma sumQ_sum (l : list Q) : (sumQ l == fold_right Qplus 0 l)%Q.
Proof.
  induction l as [|x l IH]; [reflexivity|].
  unfold sumQ. cbn [fold_right]. fold (sumQ l).
  rewrite Qred_correct, IH. reflexivity.
Qed.

Lemma Ok_inj {A} (a b : A) : Ok a = Ok b -> a = b.
Proof. intros H. now inversion H. Qed.

Lemma mean_value l q :
  mean l = Ok q -> q = Qred (sumQ l / Qnat (length l)).
Proof.
  unfold mean. destruct l as [|x l]; [discriminate|].
  intros H. symmetry. exact (Ok_inj H).
Qed.

(** The overall score is the mean of the eight dimensions. *)
Lemma assess_quality_overall text m :
  QualityAssessor.assess_quality text = Ok m ->
  (overall_score m == fold_right Qplus 0 (dimensions m) / 8)%Q.
Proof.
  unfold QualityAssessor.assess_quality. intros H.
  apply bind_ok in H. destruct H as (r & _ & H).
  apply bind_ok in H. destruct H as (st & _ & H).
  apply bind_ok in H. destruct H as (cc & _ & H).
  apply bind_ok in H. destruct H as (pa & _ & H).
  apply bind_ok in H. destruct H as (d & _ & H).
  apply bind_ok in H. destruct H as (fl & _ & H).
  apply bind_ok in H. destruct H as (te & _ & H).
  apply bind_ok in H. destruct H as (pr & _ & H).
  apply bind_ok in H. destruct H as (ov & Hov & H).
  apply Ok_inj in H. subst m. apply mean_value in Hov. subst ov.
  unfold dimensions.
  cbn [overall_score readability_score story_structure_score
       character_consistency_score pacing_score dialogue_effectiveness_score
       narrative_flow_score tension_score prose_quality_score length].
  rewrite Qred_correct, sumQ_sum. reflexivity.
Qed.

Lemma assess_quality_dimensions text m :
  QualityAssessor.assess_quality text = Ok m ->
  Forall (fun d => 0 <= d <= 1)%Q (dimensions m).
Proof.
  unfold QualityAssessor.assess_quality. intros H.
  apply bind_ok in H. destruct H as (r & Hr & H).
  apply bind_ok in H. destruct H as (st & Hst & H).
  apply bind_ok in H. destruct H as (cc & Hcc & H).
  apply bind_ok in H. destruct H as (pa & Hpa & H).
  apply bind_ok in H. destruct H as (d & Hd & H).
  apply bind_ok in H. destruct H as (fl & Hfl & H).
  apply bind_ok in H. destruct H as (te & Hte & H).
  apply bind_ok in H. destruct H as (pr & Hpr & H).
  apply bind_ok in H. destruct H as (ov & _ & H).
  apply Ok_inj in H. subst m. unfold dimensions.
  cbn [readability_score story_structure_score
       character_consistency_score pacing_score dialogue_effectiveness_score
       narrative_flow_score tension_score prose_quality_score].
  repeat apply Forall_cons; try apply Forall_nil.
  - exact (@readability_range _ _ Hr).
  - exact (@story_structure_range _ _ Hst).
  - exact (@character_consistency_range _ _ Hcc).
  - exact (@pacing_range _ _ Hpa).
  - exact (@dialogue_effectiveness_range _ _ Hd).
  - exact (@narrative_flow_range _ _ Hfl).
  - exact (@tension_range _ _ Hte).
  - exact (@prose_quality_range _ _ Hpr).
Qed.

(** X7. The metrics that [assess_quality] returns have each of the eight
    scores between 0 and 1, and an overall score that is their arithmetic
    mean, hence between 0 and 1 as well. *)
Theorem assess_quality_scores_in_range (text : str) (m : QualityMetrics) :
  QualityAssessor.assess_quality text = Ok m ->
  Forall (fun d => 0 <= d <= 1)%Q (dimensions m) /\
  (overall_score m ==
   (readability_score m + story_structure_score m
    + character_consistency_score m + pacing_score m
    + dialogue_effectiveness_score m + narrative_flow_score m
    + tension_score m + prose_quality_score m) / 8)%Q /\
  (0 <= overall_score m <= 1)%Q.
Proof.
  intros H. pose proof (@assess_quality_dimensions _ _ H) as Hd.
  pose proof (@assess_quality_overall _ _ H) as Ho.
  split; [exact Hd|].
  unfold dimensions in *. cbn [fold_right] in Ho.
  repeat match goal with
         | H : Forall _ (_ :: _) |- _ => inversion H; clear H; subst
         end.
  split; [rewrite Ho; field|]. rewrite Ho. split.
  - apply Qle_shift_div_l; lra.
  - apply Qle_shift_div_r; lra.
Qed.

Lemma assess_quality_scores_in_range_witness :
  exists m,
    QualityAssessor.assess_quality "It was late. Nobody came." = Ok m /\
    (0 <= overall_score m <= 1)%Q.
Proof.
  eexists. split.
  - vm_compute. reflexivity.
  - eapply (@assess_quality_scores_in_range "It was late. Nobody came.").
    vm_compute. reflexivity.
Defined.

(** ** The texts on which the assessor raises *)

Lemma split_ws_nil_blank s : split_ws s = [] -> blank s = true.
Proof.
  induction s as [|c s IH]; [reflexivity|].
  cbn [split_ws blank forallb]. destruct (isspace c); [exact IH|].
  destruct s as [|d s']; [discriminate|].
  destruct (isspace d); [discriminate|].
  destruct (split_ws (d :: s')); discriminate.
Qed.

Lemma lstrip_nil_blank s : lstrip s = [] -> blank s = true.
Proof.
  induction s as [|c s IH]; [reflexivity|].
  cbn [lstrip blank forallb]. destruct (isspace c); [exact IH|discriminate].
Qed.

Lemma blank_rev s : blank (rev s) = true -> blank s = true.
Proof.
  unfold blank. rewrite !forallb_forall. intros H c Hc.
  apply H. now apply in_rev in Hc.
Qed.

Lemma strip_nil_blank s : strip s = [] -> blank s = true.
Proof.
  unfold strip, rstrip. intros H.
  apply lstrip_nil_blank.
  destruct (lstrip s) as [|a y] eqn:Ey; [reflexivity|exfalso].
  pose proof (@lstrip_head _ _ _ Ey) as Ha.
  assert (Hr : lstrip (rev (a :: y)) = []).
  { destruct (lstrip (rev (a :: y))) as [|z zs]; [reflexivity|].
    apply (f_equal (@length ascii)) in H. rewrite length_rev in H.
    discriminate. }
  apply lstrip_nil_blank, blank_rev in Hr.
  cbn [blank forallb] in Hr. rewrite Ha in Hr. discriminate.
Qed.

Lemma in_pieces ts :
  forall piece c, In piece (pieces false ts) -> In c piece -> In (inl c) ts.
Proof.
  induction ts as [|[x|m] ts IH]; intros piece c Hp Hc; cbn [pieces] in Hp.
  - destruct Hp as [<-|[]]. destruct Hc.
  - destruct (pieces false ts) as [|q qs] eqn:E;
      [exfalso; exact (@pieces_nonempty _ _ E)|].
    cbn [push] in Hp. destruct Hp as [<-|Hp].
    + destruct Hc as [->|Hc]; [now left|].
      right. apply (IH q c); [now left|exact Hc].
    + right. apply (IH piece c); [now right|exact Hc].
  - destruct Hp as [<-|Hp]; [destruct Hc|].
    right. now apply (IH piece c).
Qed.

Lemma pieces_cover ts :
  forall c, In (inl c) ts ->
            exists piece, In piece (pieces false ts) /\ In c piece.
Proof.
  induction ts as [|[x|m] ts IH]; intros c H; [destruct H| |].
  - cbn [pieces].
    destruct (pieces false ts) as [|q qs] eqn:E;
      [exfalso; exact (@pieces_nonempty _ _ E)|].
    cbn [push]. destruct H as [H|H].
    + inversion H; subst. exists (c :: q). split; now left.
    + destruct (IH c H) as (piece & [<-|Hp] & Hc).
      * exists (x :: q). split; [now left|now right].
      * exists piece. split; [now right|exact Hc].
  - cbn [pieces]. destruct H as [H|H]; [discriminate|].
    destruct (IH c H) as (piece & Hp & Hc).
    exists piece. split; [now right|exact Hc].
Qed.

Lemma in_flatten ts c :
  In c (flatten ts) ->
  In (inl c) ts \/ exists m, In (inr m) ts /\ In c m.
Proof.
  induction ts as [|[x|m] ts IH]; cbn [flatten]; intros H; [destruct H| |].
  - destruct H as [->|H]; [left; now left|].
    destruct (IH H) as [H'|(m & Hm & Hc)]; [left; now right|].
    right. exists m. split; [now right|exact Hc].
  - apply in_app_or in H. destruct H as [H|H].
    + right. exists m. split; [now left|exact H].
    + destruct (IH H) as [H'|(m' & Hm & Hc)]; [left; now right|].
      right. exists m'. split; [now right|exact Hc].
Qed.

(** The texts of punctuation: not blank, and made of whitespace and of the
    characters that end a sentence. *)
Definition punctuation_text (text : str) : bool :=
  negb (blank text) && forallb (fun c => isspace c || one_of ".!?" c) text.

Lemma only_punctuation_iff text :
  only_punctuation text <-> punctuation_text text = true.
Proof.
  unfold only_punctuation, punctuation_text, re_split, scan,
    QualityAssessor.sentence_end.
  set (ts := tokens false (Plus (one_of ".!?")) None text 0).
  assert (Hflat : flatten ts = text) by apply tokens_flatten.
  pose proof (tokens_plus (one_of ".!?") text None 0) as Htok.
  fold ts in Htok. rewrite Forall_forall in Htok.
  rewrite andb_true_iff, negb_true_iff, forallb_forall. split.
  - intros [Hw Hs]. split.
    + destruct (blank text) eqn:E; [|reflexivity].
      exfalso. apply Hw. now apply split_ws_blank.
    + intros c Hc. rewrite <- Hflat in Hc. apply in_flatten in Hc.
      destruct Hc as [Hc|(m & Hm & Hc)].
      * destruct (pieces_cover _ _ Hc) as (piece & Hp & Hcp).
        rewrite filter_nil_iff in Hs. specialize (Hs piece Hp).
        unfold QualityAssessor.nonblank in Hs.
        apply negb_false_iff in Hs.
        destruct (strip piece) eqn:Es; [|discriminate].
        apply strip_nil_blank in Es. unfold blank in Es.
        rewrite forallb_forall in Es. now rewrite (Es c Hcp).
      * specialize (Htok _ Hm). cbv beta iota in Htok.
        rewrite forallb_forall in Htok. rewrite (Htok c Hc).
        apply orb_true_r.
  - intros [Hb Hall]. split.
    + intros Hw. apply split_ws_nil_blank in Hw. congruence.
    + apply filter_nil_iff. intros piece Hp.
      apply nonblank_blank. unfold blank. apply forallb_forall.
      intros c Hc. pose proof (in_pieces _ _ _ Hp Hc) as Hin.
      pose proof (Htok _ Hin) as Hnp. cbv beta iota in Hnp.
      assert (Hct : In c text) by (eapply in_tokens_inl; exact Hin).
      specialize (Hall c Hct). rewrite Hnp, orb_false_r in Hall. exact Hall.
Qed.

(** X8. [assess_quality] raises on the texts that are not blank and made of
    whitespace and of the characters . ! ? only, [ZeroDivisionError] then,
    and returns metrics on every other text. *)
Theorem assess_quality_raises_iff (text : str) :
  (QualityAssessor.assess_quality text = Raise ZeroDivisionError <->
   punctuation_text text = true) /\
  (punctuation_text text = false <->
   exists m, QualityAssessor.assess_quality text = Ok m).
Proof.
  destruct (punctuation_text text) eqn:E.
  - apply only_punctuation_iff in E. apply assess_quality_raises in E.
    rewrite E. split; split; auto; try discriminate.
    intros (m & Hm). discriminate.
  - assert (Hn : ~ only_punctuation text).
    { intros H. apply only_punctuation_iff in H. congruence. }
    destruct (assess_quality_returns Hn) as (m & Hm). rewrite Hm.
    split; split; eauto; discriminate.
Qed.

(** ** The problems found *)

Section ProblemCount.

Import ProblemAnalyzer.

Variable text : str.

Lemma append_if_length b x (issues : list str) :
  length issues <= length (append_if b x issues) <= S (length issues).
Proof.
  unfold append_if. destruct b; [rewrite length_app; simpl|]; lia.
Qed.

(** Bounds the length of a list built by conditional appends. *)
Ltac count_appends :=
  unfold append_if;
  repeat match goal with
         | |- context [if ?c then _ else _] => destruct c
         end;
  cbn [app length]; lia.

Lemma structural_issues_count :
  length (_analyze_structural_issues text) <= 3.
Proof. unfold _analyze_structural_issues. cbv zeta. count_appends. Qed.

Lemma narrative_issues_count :
  length (_analyze_narrative_issues text) <= 2.
Proof. unfold _analyze_narrative_issues. cbv zeta. count_appends. Qed.

Lemma character_issues_count :
  length (_analyze_character_issues text) <= 2.
Proof. unfold _analyze_character_issues. cbv zeta. count_appends. Qed.

Lemma dialogue_issues_count :
  length (_analyze_dialogue_issues text) <= 3.
Proof.
  unfold _analyze_dialogue_issues. cbv zeta.
  destruct (is_empty _); [simpl; lia|]. count_appends.
Qed.

Lemma pacing_issues_count issues :
  _analyze_pacing_issues text = Ok issues -> length issues <= 2.
Proof.
  unfold _analyze_pacing_issues. cbv zeta. intros H.
  destruct (is_empty _); [injection H as <-; simpl; lia|].
  apply bind_ok in H. destruct H as (avg & _ & H).
  destruct (_ <? _).
  - apply bind_ok in H. destruct H as (v & _ & H). injection H as <-.
    destruct (Qltb 25 avg); [|destruct (Qltb avg 8)];
      unfold append_if; destruct (Qltb v 10); simpl; lia.
  - injection H as <-.
    destruct (Qltb 25 avg); [|destruct (Qltb avg 8)]; simpl; lia.
Qed.

Lemma prose_issues_count issues :
  _analyze_prose_issues text = Ok issues -> length issues <= 3.
Proof.
  unfold _analyze_prose_issues. cbv zeta. intros H.
  destruct (is_empty _); [injection H as <-; simpl; lia|].
  apply bind_ok in H. destruct H as (ratio & _ & H).
  injection H as <-. count_appends.
Qed.

End ProblemCount.

Definition total_issues (p : ProblemAnalysis) : nat :=
  length (structural_issues p) + length (narrative_issues p) +
  length (character_issues p) + length (pacing_issues p) +
  length (dialogue_issues p) + length (prose_issues p).

(** X9. [analyze_problems] returns on every text; it reports at most three
    structural, two narrative, two character, two pacing, three dialogue
    and three prose issues, so at most fifteen issues, and the severity is
    the number of issues over twenty, at most 0.75: the cap of 1.0 never
    applies. *)
Theorem analyze_problems_bounded (text : str) :
  exists p,
    ProblemAnalyzer.analyze_problems text = Ok p /\
    length (structural_issues p) <= 3 /\
    length (narrative_issues p) <= 2 /\
    length (character_issues p) <= 2 /\
    length (pacing_issues p) <= 2 /\
    length (dialogue_issues p) <= 3 /\
    length (prose_issues p) <= 3 /\
    (severity_score p == Qnat (total_issues p) / 20)%Q /\
    (severity_score p <= 0.75)%Q.
Proof.
  destruct (analyze_problems_total text) as [p Hp]. exists p.
  split; [exact Hp|].
  unfold ProblemAnalyzer.analyze_problems in Hp.
  apply bind_ok in Hp. destruct Hp as (pacing & Hpacing & Hp).
  apply bind_ok in Hp. destruct Hp as (prose & Hprose & Hp).
  cbv zeta in Hp.
  apply bind_ok in Hp. destruct Hp as (sev & Hsev & Hp).
  injection Hp as <-. unfold total_issues.
  cbn [structural_issues narrative_issues character_issues pacing_issues
       dialogue_issues prose_issues severity_score].
  pose proof (structural_issues_count text) as H1.
  pose proof (narrative_issues_count text) as H2.
  pose proof (character_issues_count text) as H3.
  pose proof (pacing_issues_count text Hpacing) as H4.
  pose proof (dialogue_issues_count text) as H5.
  pose proof (prose_issues_count text Hprose) as H6.
  repeat (split; [assumption|]).
  set (n := _ + _ + _ + _ + _ + _) in *.
  assert (Hn : n <= 15) by (unfold n; lia).
  clearbody n. cbv beta iota delta [truediv] in Hsev.
  apply Ok_inj in Hsev. subst sev.
  assert (Hq : (Qred (Z.of_nat n # Pos.of_nat 20) == Qnat n / 20)%Q).
  { rewrite Qred_correct. unfold Qnat. rewrite (Qmake_Qdiv (Z.of_nat n)).
    reflexivity. }
  assert (Hle : (Qnat n <= 15)%Q).
  { change (inject_Z (Z.of_nat n) <= inject_Z 15)%Q.
    rewrite <- Zle_Qle. lia. }
  remember (Qred (Z.of_nat n # Pos.of_nat 20)) as q eqn:Eq. clear Eq.
  remember (Qnat n) as k eqn:Ek. clear Ek.
  assert (Hk : (k / 20 <= 0.75)%Q)
    by (apply Qle_shift_div_r; [reflexivity|lra]).
  remember (k / 20)%Q as d eqn:Ed. clear Ed.
  destruct (min_cases 1.0 q) as [[-> H]|[-> H]].
  - split; [exact Hq|]. lra.
  - exfalso. lra.
Qed.

(** ** The loop of [rewrite_chapter] and its report *)

Section Iterations.

Import QualityAssessor ProblemAnalyzer ChapterRewriter.

Variable env : Env.
Variable intensity : RewriteIntensity.
Variable controls : option PreservationControls.
Variable max_iterations : Z.
Variable baseline : QualityMetrics.

(** The counter grows by one at each turn, and by at most the number of
    turns left. *)
Lemma rewrite_loop_count remaining :
  forall current_text problems iterations k text n,
    rewrite_loop env intensity controls max_iterations baseline remaining
      current_text problems iterations k = Ok (text, n) ->
    iterations <= n <= iterations + remaining /\
    (1 <= remaining -> iterations < n) /\
    (n = iterations -> text = current_text).
Proof.
  induction remaining as [|remaining IH];
    intros current_text problems iterations k text n H.
  - cbn [rewrite_loop] in H. apply Ok_inj in H. inversion H; subst.
    repeat split; lia.
  - rewrite rewrite_loop_eq in H. cbv zeta in H.
    destruct (_generate_rewrite env k current_text problems intensity controls)
      as [rewritten k'].
    apply bind_ok in H. destruct H as (nm & _ & H).
    assert (Hexit : forall t, Ok (t, iterations + 1) = Ok (text, n) ->
                              iterations <= n <= iterations + S remaining /\
                              (1 <= S remaining -> iterations < n) /\
                              (n = iterations -> text = current_text)).
    { intros t Ht. apply Ok_inj in Ht. inversion Ht; subst.
      repeat split; lia. }
    assert (Hnext : forall t p,
               rewrite_loop env intensity controls max_iterations baseline
                 remaining t p (iterations + 1) k' = Ok (text, n) ->
               iterations <= n <= iterations + S remaining /\
               (1 <= S remaining -> iterations < n) /\
               (n = iterations -> text = current_text)).
    { intros t p Ht. apply IH in Ht. repeat split; lia. }
    destruct (is_better_than nm baseline).
    + destruct (Qltb 0.9 (overall_score nm)); [now apply (Hexit rewritten)|].
      apply bind_ok in H. destruct H as (problems' & _ & H).
      destruct (Qltb (severity_score problems') 0.2);
        [now apply (Hexit rewritten)|now apply (Hnext rewritten problems')].
    + destruct (Z.of_nat (iterations + 1) <? max_iterations)%Z;
        [now apply (Hnext current_text problems)
        |now apply (Hexit current_text)].
Qed.

(** A run that accepts no candidate makes every turn. *)
Lemma rewrite_loop_exhausted remaining :
  forall current_text problems iterations k text n,
    iterations + remaining = Z.to_nat max_iterations ->
    rewrite_loop env intensity controls max_iterations baseline remaining
      current_text problems iterations k = Ok (text, n) ->
    accepted baseline text \/
    (text = current_text /\ n = Z.to_nat max_iterations).
Proof.
  induction remaining as [|remaining IH];
    intros current_text problems iterations k text n Hsum H.
  - cbn [rewrite_loop] in H. apply Ok_inj in H. inversion H; subst.
    right. split; [reflexivity|lia].
  - rewrite rewrite_loop_eq in H. cbv zeta in H.
    destruct (_generate_rewrite env k current_text problems intensity controls)
      as [rewritten k'].
    apply bind_ok in H. destruct H as (nm & Hnm & H).
    destruct (is_better_than nm baseline) eqn:Hb.
    + left. assert (Hacc : accepted baseline rewritten) by (exists nm; auto).
      destruct (Qltb 0.9 (overall_score nm)).
      { apply Ok_inj in H. inversion H; subst. exact Hacc. }
      apply bind_ok in H. destruct H as (problems' & _ & H).
      destruct (Qltb (severity_score problems') 0.2).
      { apply Ok_inj in H. inversion H; subst. exact Hacc. }
      apply IH in H; [|lia]. destruct H as [H|[-> _]]; assumption.
    + destruct (Z.ltb_spec (Z.of_nat (iterations + 1)) max_iterations)
        as [Hlt|Hge].
      * apply IH in H; [exact H|lia].
      * apply Ok_inj in H. inversion H; subst. right.
        split; [reflexivity|lia].
Qed.

End Iterations.

(** A run of [rewrite_chapter] that returns, step by step. *)
Lemma rewrite_chapter_run env manuscript requested intensity controls
    max_iterations text report :
  ChapterRewriter.rewrite_chapter env manuscript requested intensity controls
    max_iterations = Ok (text, report) ->
  exists target problems,
    ChapterRewriter.select_chapter manuscript requested = Ok target /\
    QualityAssessor.assess_quality (chapter_text manuscript target)
      = Ok (original_metrics report) /\
    ProblemAnalyzer.analyze_problems (chapter_text manuscript target)
      = Ok problems /\
    ChapterRewriter.rewrite_loop env intensity controls max_iterations
      (original_metrics report) (Z.to_nat max_iterations)
      (chapter_text manuscript target) problems 0 0
      = Ok (text, iterations_required report) /\
    QualityAssessor.assess_quality text = Ok (final_metrics report) /\
    improvements report =
      ChapterRewriter._calculate_improvements (original_metrics report)
        (final_metrics report).
Proof.
  intros H. unfold ChapterRewriter.rewrite_chapter in H.
  apply bind_ok in H. destruct H as (target & Hsel & H).
  apply bind_ok in H. destruct H as (om & Hom & H).
  apply bind_ok in H. destruct H as (problems & Hpb & H).
  apply bind_ok in H. destruct H as ([current n] & Hloop & H).
  apply bind_ok in H. destruct H as (fm & Hfm & H).
  apply Ok_inj in H. inversion H; subst text report; clear H.
  exists target, problems.
  cbn [original_metrics final_metrics improvements iterations_required].
  repeat split; assumption.
Qed.

(** X10. The number of iterations in the report of [rewrite_chapter] is at
    most [max_iterations], and at least 1 when [max_iterations] is; a run
    whose final metrics do not dominate the original ones has made all the
    iterations and returns the original chapter; with [max_iterations] at
    most 0 no rewrite is attempted and the original chapter is returned. *)
Theorem rewrite_chapter_iterations (env : Env) (manuscript : str)
    (requested : option Z) (intensity : RewriteIntensity)
    (controls : option PreservationControls) (max_iterations : Z)
    (text : str) (report : RewriteReport) :
  ChapterRewriter.rewrite_chapter env manuscript requested intensity controls
    max_iterations = Ok (text, report) ->
  exists target,
    ChapterRewriter.select_chapter manuscript requested = Ok target /\
    iterations_required report <= Z.to_nat max_iterations /\
    ((1 <= max_iterations)%Z -> 1 <= iterations_required report) /\
    (is_better_than (final_metrics report) (original_metrics report) = false ->
     iterations_required report = Z.to_nat max_iterations /\
     text = chapter_text manuscript target) /\
    ((max_iterations <= 0)%Z ->
     iterations_required report = 0 /\
     text = chapter_text manuscript target /\
     final_metrics report = original_metrics report).
Proof.
  intros H. apply rewrite_chapter_run in H.
  destruct H as (target & problems & Hsel & Hom & _ & Hloop & Hfm & _).
  exists target. split; [exact Hsel|].
  pose proof (rewrite_loop_count _ _ _ _ _ _ _ _ _ _ Hloop)
    as (Hle & Hpos & Hsame).
  split; [lia|]. split; [intros Hmax; apply Hpos; lia|]. split.
  - intros Hnot.
    pose proof Hloop as Hrun.
    apply rewrite_loop_exhausted in Hrun; [|reflexivity].
    destruct Hrun as [(m & Hm & Hb)|[-> ->]].
    + rewrite Hfm in Hm. apply Ok_inj in Hm. subst m. congruence.
    + split; reflexivity.
  - intros Hmax.
    assert (Hn : iterations_required report = 0) by lia.
    assert (Ht : text = chapter_text manuscript target)
      by (apply Hsame; exact Hn).
    repeat split; [exact Hn|exact Ht|].
    subst text. rewrite Hom in Hfm. apply Ok_inj in Hfm. now symmetry.
Qed.

Lemma rewrite_chapter_iterations_witness :
  exists text report,
    ChapterRewriter.rewrite_chapter env0 "It was late. Nobody came." None
      MODERATE None 3 = Ok (text, report) /\
    iterations_required report <= 3.
Proof.
  eexists _, _. split.
  - vm_compute. reflexivity.
  - edestruct (@rewrite_chapter_iterations env0 "It was late. Nobody came."
                 None MODERATE None 3) as (target & _ & H & _).
    + vm_compute. reflexivity.
    + exact H.
Defined.

(** X11. In the report of [rewrite_chapter] every one of the nine deltas is
    between 0 and 1: no dimension is reported as worse than before. *)
Theorem rewrite_chapter_deltas (env : Env) (manuscript : str)
    (requested : option Z) (intensity : RewriteIntensity)
    (controls : option PreservationControls) (max_iterations : Z)
    (text : str) (report : RewriteReport) :
  ChapterRewriter.rewrite_chapter env manuscript requested intensity controls
    max_iterations = Ok (text, report) ->
  Forall (fun d => 0 <= d <= 1)%Q (deltas (improvements report)).
Proof.
  intros H. apply rewrite_chapter_run in H.
  destruct H as (target & problems & _ & Hom & _ & Hloop & Hfm & ->).
  set (om := original_metrics report) in *.
  set (fm := final_metrics report) in *.
  pose proof (@assess_quality_dimensions _ _ Hom) as Hdo.
  pose proof (@assess_quality_dimensions _ _ Hfm) as Hdf.
  pose proof (@assess_quality_overall _ _ Hom) as Hoo.
  pose proof (@assess_quality_overall _ _ Hfm) as Hof.
  assert (Hcase : (Forall2 Qle (dimensions om) (dimensions fm) /\
                   (overall_score om <= overall_score fm)%Q)).
  { apply rewrite_loop_result in Hloop.
    destruct Hloop as [->|(m & Hm & Hb)].
    - rewrite Hom in Hfm. apply Ok_inj in Hfm. rewrite <- Hfm.
      split; [|apply Qle_refl].
      unfold dimensions. repeat constructor; apply Qle_refl.
    - rewrite Hfm in Hm. apply Ok_inj in Hm. subst m.
      apply is_better_than_spec in Hb. destruct Hb as [Hd Hlt].
      split; [exact Hd|now apply Qlt_le_weak]. }
  destruct Hcase as [Hdims Hov].
  unfold dimensions in *. cbn [fold_right] in Hoo, Hof.
  repeat match goal with
         | H : Forall _ (_ :: _) |- _ => inversion H; clear H; subst
         | H : Forall2 _ (_ :: _) (_ :: _) |- _ => inversion H; clear H; subst
         end.
  unfold ChapterRewriter._calculate_improvements, deltas.
  cbn [readability story_structure character_consistency pacing
       dialogue_effectiveness narrative_flow tension prose_quality overall].
  assert (Ho1 : (overall_score fm <= 1)%Q).
  { rewrite Hof. apply Qle_shift_div_r; lra. }
  assert (Ho0 : (0 <= overall_score om)%Q).
  { rewrite Hoo. apply Qle_shift_div_l; lra. }
  repeat apply Forall_cons; try apply Forall_nil; lra.
Qed.

Lemma rewrite_chapter_deltas_witness :
  exists text report,
    ChapterRewriter.rewrite_chapter env0 "So Beverly asked did he go"
      (Some 1%Z) LIGHT None 2 = Ok (text, report) /\
    text = "So asked did he go" /\
    (0 < overall (improvements report))%Q /\
    Forall (fun d => 0 <= d <= 1)%Q (deltas (improvements report)).
Proof.
  eexists _, _. split; [vm_compute; reflexivity|].
  split; [reflexivity|]. split; [reflexivity|].
  eapply (@rewrite_chapter_deltas env0 "So Beverly asked did he go"
            (Some 1%Z) LIGHT None 2).
  vm_compute. reflexivity.
Defined.

(** ** The chapter selected *)

Section ChapterChoice.

Import QualityAssessor ChapterRewriter.

Lemma numbers_from (l : list ChapterBoundary) start c :
  map chapter_number l = List.seq start (length l) ->
  In c l -> start <= chapter_number c.
Proof.
  intros Hnum Hc. apply (in_map chapter_number) in Hc.
  rewrite Hnum in Hc. apply in_seq in Hc. lia.
Qed.

Lemma filter_number (l : list ChapterBoundary) (n : Z) :
  forall start,
    map chapter_number l = List.seq start (length l) ->
    (Z.of_nat start <= n)%Z ->
    filter (fun c => Z.of_nat (chapter_number c) =? n)%Z l =
    match nth_error l (Z.to_nat n - start) with
    | Some c => [c]
    | None => []
    end.
Proof.
  induction l as [|c l IH]; intros start Hnum Hn.
  - now destruct (Z.to_nat n - start).
  - cbn [map length List.seq] in Hnum. injection Hnum as Hc Hl.
    cbn [filter]. rewrite Hc.
    destruct (Z.eqb_spec (Z.of_nat start) n) as [E|E].
    + replace (Z.to_nat n - start) with 0 by lia. cbn [nth_error].
      f_equal. apply filter_nil_iff. intros d Hd. apply Z.eqb_neq.
      pose proof (@numbers_from _ _ _ Hl Hd). lia.
    + replace (Z.to_nat n - start) with (S (Z.to_nat n - S start)) by lia.
      cbn [nth_error]. apply IH; [exact Hl|lia].
Qed.

(** [min] with a key returns the first of the least: what comes before has
    a strictly higher score, what comes after a score at least as high. *)
Lemma min_by_score_first l :
  forall best,
    exists pre post,
      best :: l = pre ++ min_by_score best l :: post /\
      (forall y, In y pre -> (snd (min_by_score best l) < snd y)%Q) /\
      (forall y, In y post -> (snd (min_by_score best l) <= snd y)%Q).
Proof.
  induction l as [|y l IH]; intros best.
  - exists [], []. repeat split; intros ? [].
  - cbn [min_by_score].
    destruct (Qltb (snd y) (snd best)) eqn:E.
    + apply Qltb_lt in E.
      destruct (IH y) as (pre & post & Hsplit & Hpre & Hpost).
      set (x := min_by_score y l) in *.
      assert (Hxy : (snd x <= snd y)%Q).
      { destruct pre as [|p pre].
        - injection Hsplit as <- _. apply Qle_refl.
        - injection Hsplit as <- _. apply Qlt_le_weak, Hpre. now left. }
      exists (best :: pre), post. split; [now rewrite Hsplit|].
      split; [|exact Hpost].
      intros z [<-|Hz]; [|now apply Hpre].
      now apply Qle_lt_trans with (snd y).
    + apply Qltb_false_le in E.
      destruct (IH best) as (pre & post & Hsplit & Hpre & Hpost).
      set (x := min_by_score best l) in *.
      destruct pre as [|p pre].
      * injection Hsplit as Hx Hl. exists [], (y :: post).
        split; [cbn [app]; now rewrite <- Hx, Hl|].
        split; [intros ? []|].
        intros z [<-|Hz]; [now rewrite <- Hx|now apply Hpost].
      * injection Hsplit as Hp Hl. subst p.
        exists (best :: y :: pre), post.
        split; [cbn [app]; now rewrite Hl|]. split; [|exact Hpost].
        intros z [<-|[<-|Hz]].
        -- apply Hpre. now left.
        -- apply Qlt_le_trans with (snd best); [|exact E].
           apply Hpre. now left.
        -- apply Hpre. now right.
Qed.

(** The scores are those of the chapters, in order. *)
Lemma chapter_scores_spec manuscript chapters :
  forall scores,
    chapter_scores manuscript chapters = Ok scores ->
    map fst scores = chapters /\
    forall x, In x scores ->
              exists m, assess_quality (chapter_text manuscript (fst x)) = Ok m
                        /\ snd x = overall_score m.
Proof.
  induction chapters as [|c cs IH]; intros scores H; cbn [chapter_scores] in H.
  - apply Ok_inj in H. subst scores. split; [reflexivity|intros ? []].
  - apply bind_ok in H. destruct H as (m & Hm & H).
    apply bind_ok in H. destruct H as (l & Hl & H).
    apply Ok_inj in H. subst scores. destruct (IH l Hl) as [Hfst Hall].
    split; [cbn [map fst]; now rewrite Hfst|].
    intros x [<-|Hx]; [exists m; split; [exact Hm|reflexivity]|].
    now apply Hall.
Qed.

End ChapterChoice.

(** X12. With an explicit number [n], [rewrite_chapter] selects the [n]-th
    boundary of [detect_chapters], counted from 1, and raises [ValueError]
    with the message that the chapter is not found when [n] is below 1 or
    above the number of boundaries. *)
Theorem select_chapter_by_number (manuscript : str) (n : Z) :
  ChapterRewriter.select_chapter manuscript (Some n) =
  if (1 <=? n)%Z then
    match nth_error (ChapterDetector.detect_chapters manuscript)
                    (Z.to_nat n - 1) with
    | Some chapter => Ok chapter
    | None =>
        Raise (ValueError ("Chapter " ++ ChapterRewriter.str_of_Z n
                           ++ " not found"))
    end
  else Raise (ValueError ("Chapter " ++ ChapterRewriter.str_of_Z n
                          ++ " not found")).
Proof.
  unfold ChapterRewriter.select_chapter.
  rewrite detect_chapters_nonempty.
  destruct (detect_chapters_inv manuscript) as (Hnum & _).
  destruct (Z.leb_spec 1 n) as [Hn|Hn].
  - rewrite (@filter_number _ n 1 Hnum) by lia.
    now destruct (nth_error _ _).
  - replace (filter _ (ChapterDetector.detect_chapters manuscript))
      with (@nil ChapterBoundary); [reflexivity|].
    symmetry. apply filter_nil_iff. intros c Hc. apply Z.eqb_neq.
    pose proof (@numbers_from _ _ _ Hnum Hc). lia.
Qed.

(** X13. Without a number, [rewrite_chapter] selects the chapter with the
    lowest overall score, the first one among equals: the chapters before
    it score strictly higher, those after it at least as high. *)
Theorem select_chapter_lowest_score (manuscript : str)
    (target : ChapterBoundary) :
  ChapterRewriter.select_chapter manuscript None = Ok target ->
  exists before after m,
    ChapterDetector.detect_chapters manuscript = before ++ target :: after /\
    QualityAssessor.assess_quality (chapter_text manuscript target) = Ok m /\
    (forall c, In c before ->
       exists m', QualityAssessor.assess_quality (chapter_text manuscript c)
                  = Ok m' /\ (overall_score m < overall_score m')%Q) /\
    (forall c, In c after ->
       exists m', QualityAssessor.assess_quality (chapter_text manuscript c)
                  = Ok m' /\ (overall_score m <= overall_score m')%Q).
Proof.
  unfold ChapterRewriter.select_chapter.
  rewrite detect_chapters_nonempty. intros H.
  apply bind_ok in H. destruct H as (scores & Hscores & H).
  apply chapter_scores_spec in Hscores. destruct Hscores as [Hfst Hall].
  destruct scores as [|best l]; [discriminate|].
  apply Ok_inj in H.
  destruct (min_by_score_first l best) as (pre & post & Hsplit & Hpre & Hpost).
  set (x := ChapterRewriter.min_by_score best l) in *.
  assert (Hx : In x (best :: l)).
  { rewrite Hsplit. apply in_or_app. right. now left. }
  destruct (Hall x Hx) as (m & Hm & Hs). rewrite H in Hm.
  exists (map fst pre), (map fst post), m.
  split; [rewrite <- Hfst, Hsplit, map_app; cbn [map]; now rewrite H|].
  split; [exact Hm|]. split.
  - intros c Hc. apply in_map_iff in Hc. destruct Hc as (y & <- & Hy).
    destruct (Hall y) as (m' & Hm' & Hs').
    { rewrite Hsplit. apply in_or_app. now left. }
    exists m'. split; [exact Hm'|]. rewrite <- Hs, <- Hs'. now apply Hpre.
  - intros c Hc. apply in_map_iff in Hc. destruct Hc as (y & <- & Hy).
    destruct (Hall y) as (m' & Hm' & Hs').
    { rewrite Hsplit. apply in_or_app. right. now right. }
    exists m'. split; [exact Hm'|]. rewrite <- Hs, <- Hs'. now apply Hpost.
Qed.

Lemma select_chapter_lowest_score_witness :
  exists target before after,
    ChapterRewriter.select_chapter two_chapters None = Ok target /\
    ChapterDetector.detect_chapters two_chapters
    = before ++ target :: after.
Proof.
  eexists. 
  edestruct (@select_chapter_lowest_score two_chapters)
    as (before & after & m & H & _).
  - vm_compute. reflexivity.
  - exists before, after. split; [vm_compute; reflexivity|exact H].
Defined.

(** ** Requested dialogue through the loop *)

Section DialogueKept.

Import QualityAssessor ProblemAnalyzer ChapterRewriter.

Variable env : Env.
Variable intensity : RewriteIntensity.
Variable controls : PreservationControls.
Variable dialogues : list str.
Variable s : str.
Variable max_iterations : Z.
Variable baseline : QualityMetrics.

Hypothesis Hdialogues : preserve_dialogue controls = Some dialogues.
Hypothesis Hin : In s dialogues.
Hypothesis Hnames : preserve_character_names controls = false.

(** Each candidate holds the requested string that the text it is made
    from holds, so that the loop never loses it. *)
Lemma rewrite_loop_keeps_dialogue remaining :
  forall current_text problems iterations k text n,
    contains s current_text = true ->
    rewrite_loop env intensity (Some controls) max_iterations baseline
      remaining current_text problems iterations k = Ok (text, n) ->
    contains s text = true.
Proof.
  induction remaining as [|remaining IH];
    intros current_text problems iterations k text n Hs H.
  - cbn [rewrite_loop] in H. apply Ok_inj in H. inversion H; subst.
    exact Hs.
  - rewrite rewrite_loop_eq in H. cbv zeta in H.
    pose proof (@generate_rewrite_preserves_without_names env current_text s
                  Hs k problems intensity controls dialogues Hdialogues Hin
                  Hnames) as Hkeep.
    destruct (_generate_rewrite env k current_text problems intensity
                (Some controls)) as [rewritten k'].
    cbn [fst] in Hkeep.
    apply bind_ok in H. destruct H as (nm & _ & H).
    destruct (is_better_than nm baseline).
    + destruct (Qltb 0.9 (overall_score nm)).
      { apply Ok_inj in H. inversion H; subst. exact Hkeep. }
      apply bind_ok in H. destruct H as (problems' & _ & H).
      destruct (Qltb (severity_score problems') 0.2).
      { apply Ok_inj in H. inversion H; subst. exact Hkeep. }
      exact (IH _ _ _ _ _ _ Hkeep H).
    + destruct (Z.of_nat (iterations + 1) <? max_iterations)%Z.
      * exact (IH _ _ _ _ _ _ Hs H).
      * apply Ok_inj in H. inversion H; subst. exact Hs.
Qed.

End DialogueKept.

(** X14. When the controls ask for a dialogue string that the chapter
    holds, and do not ask for the character names, the text that
    [rewrite_chapter] returns holds that string, whatever the tier and the
    number of iterations. *)
Theorem rewrite_chapter_keeps_dialogue (env : Env) (manuscript : str)
    (requested : option Z) (intensity : RewriteIntensity)
    (controls : PreservationControls) (dialogues : list str) (s : str)
    (max_iterations : Z) (target : ChapterBoundary)
    (text : str) (report : RewriteReport) :
  preserve_dialogue controls = Some dialogues ->
  In s dialogues ->
  preserve_character_names controls = false ->
  ChapterRewriter.select_chapter manuscript requested = Ok target ->
  contains s (chapter_text manuscript target) = true ->
  ChapterRewriter.rewrite_chapter env manuscript requested intensity
    (Some controls) max_iterations = Ok (text, report) ->
  contains s text = true.
Proof.
  intros Hd Hin Hn Hsel Hs H. apply rewrite_chapter_run in H.
  destruct H as (target' & problems & Hsel' & _ & _ & Hloop & _).
  rewrite Hsel in Hsel'. apply Ok_inj in Hsel'. subst target'.
  exact (@rewrite_loop_keeps_dialogue env intensity controls dialogues s
           max_iterations _ Hd Hin Hn _ _ _ _ _ _ _ Hs Hloop).
Qed.

Lemma rewrite_chapter_keeps_dialogue_witness :
  exists text report,
    ChapterRewriter.rewrite_chapter env0 "So Beverly asked did he go"
      (Some 1%Z) COMPREHENSIVE
      (Some {| preserve_dialogue := Some ["did he go"];
               preserve_character_names := false;
               preserve_plot_points := None;
               preserve_scenes := None |}) 2 = Ok (text, report) /\
    contains "did he go" text = true.
Proof.
  eexists _, _. split.
  - vm_compute. reflexivity.
  - eapply (@rewrite_chapter_keeps_dialogue env0 "So Beverly asked did he go"
              (Some 1%Z) COMPREHENSIVE
              {| preserve_dialogue := Some ["did he go"];
                 preserve_character_names := false;
                 preserve_plot_points := None;
                 preserve_scenes := None |} ["did he go"] "did he go" 2).
    + reflexivity.
    + now left.
    + reflexivity.
    + vm_compute. reflexivity.
    + vm_compute. reflexivity.
    + vm_compute. reflexivity.
Defined.

(** ** Where the characters of a result come from *)

Lemma in_skipn {A} (x : A) n (l : list A) : In x (skipn n l) -> In x l.
Proof.
  intros H. rewrite <- (firstn_skipn n l). apply in_or_app. now right.
Qed.

Lemma in_firstn {A} (x : A) n (l : list A) : In x (firstn n l) -> In x l.
Proof.
  intros H. rewrite <- (firstn_skipn n l). apply in_or_app. now left.
Qed.

Lemma subst_chars (f : str -> str) (P : ascii -> Prop) :
  (forall m c, In c (f m) -> In c m \/ P c) ->
  forall ts c, In c (subst f ts) -> In c (flatten ts) \/ P c.
Proof.
  intros Hf. induction ts as [|[x|m] ts IH]; intros c H; cbn [subst] in H.
  - destruct H.
  - cbn [flatten]. destruct H as [->|H]; [left; now left|].
    destruct (IH c H); [left; now right|now right].
  - cbn [flatten]. apply in_app_or in H. destruct H as [H|H].
    + destruct (Hf m c H); [left; apply in_or_app; now left|now right].
    + destruct (IH c H); [left; apply in_or_app; now right|now right].
Qed.

Lemma sub_chars ic r (f : str -> str) (P : ascii -> Prop) s c :
  (forall m c, In c (f m) -> In c m \/ P c) ->
  In c (sub ic r f s) -> In c s \/ P c.
Proof.
  intros Hf H. unfold sub, scan in H.
  apply (subst_chars f P Hf) in H.
  now rewrite tokens_flatten in H.
Qed.

Lemma replace1_chars old new s c :
  In c (replace1 old new s) -> In c s \/ In c new.
Proof.
  induction s as [|x s IH]; cbn [replace1].
  - destruct (startswith old []); [|intros []].
    intros H. apply in_app_or in H. destruct H as [H|H]; [now right|].
    left. now apply in_skipn in H.
  - destruct (startswith old (x :: s)).
    + intros H. apply in_app_or in H. destruct H as [H|H]; [now right|].
      left. now apply in_skipn in H.
    + intros [->|H]; [left; now left|].
      destruct (IH H); [left; now right|now right].
Qed.

Lemma replace_from_chars old new c :
  forall s skip, In c (replace_from old new s skip) -> In c s \/ In c new.
Proof.
  induction s as [|x s IH]; intros skip H; [destruct H|].
  cbn [replace_from] in H. destruct skip as [|k].
  - destruct (startswith old (x :: s)).
    + apply in_app_or in H. destruct H as [H|H]; [now right|].
      destruct (IH _ H); [left; now right|now right].
    + destruct H as [->|H]; [left; now left|].
      destruct (IH _ H); [left; now right|now right].
  - destruct (IH _ H); [left; now right|now right].
Qed.

Lemma join_chars sep c :
  forall l, In c (join sep l) ->
            In c sep \/ exists x, In x l /\ In c x.
Proof.
  induction l as [|x l IH]; intros H; [destruct H|].
  destruct l as [|y l].
  - right. exists x. split; [now left|exact H].
  - rewrite join_cons in H by discriminate.
    apply in_app_or in H. destruct H as [H|H];
      [right; exists x; split; [now left|exact H]|].
    apply in_app_or in H. destruct H as [H|H]; [now left|].
    destruct (IH H) as [Hs|(z & Hz & Hc)]; [now left|].
    right. exists z. split; [now right|exact Hc].
Qed.

Lemma push_chars c ps (p : str) x :
  In p (push c ps) -> In x p -> x = c \/ exists q, In q ps /\ In x q.
Proof.
  destruct ps as [|q ps]; cbn [push].
  - intros [<-|[]] [->|[]]. now left.
  - intros [<-|Hp] Hx.
    + destruct Hx as [->|Hx]; [now left|].
      right. exists q. split; [now left|exact Hx].
    + right. exists p. split; [now right|exact Hx].
Qed.

Lemma split_ws_chars s :
  forall w c, In w (split_ws s) -> In c w -> In c s.
Proof.
  induction s as [|x s IH]; intros w c Hw Hc; [destruct Hw|].
  cbn [split_ws] in Hw. destruct (isspace x).
  - right. now apply (IH w).
  - destruct s as [|d s'].
    + destruct Hw as [<-|[]]. exact Hc.
    + destruct (isspace d).
      * destruct Hw as [<-|Hw]; [destruct Hc as [->|[]]; now left|].
        right. now apply (IH w).
      * destruct (push_chars _ _ _ _ Hw Hc) as [->|(q & Hq & Hx)];
          [now left|].
        right. now apply (IH q).
Qed.

Lemma split_from_chars sep s :
  forall skip p c, In p (split_from sep s skip) -> In c p -> In c s.
Proof.
  induction s as [|x s IH]; intros skip p c Hp Hc.
  - destruct Hp as [<-|[]]. destruct Hc.
  - cbn [split_from] in Hp. destruct skip as [|k].
    + destruct (startswith sep (x :: s)).
      * destruct Hp as [<-|Hp]; [destruct Hc|].
        right. eapply IH; eassumption.
      * destruct (push_chars _ _ _ _ Hp Hc) as [->|(q & Hq & Hx)];
          [now left|].
        right. eapply IH; eassumption.
    + right. eapply IH; eassumption.
Qed.

Lemma pieces_chars ts piece c :
  In piece (pieces true ts) -> In c piece -> In c (flatten ts).
Proof.
  intros Hp Hc. rewrite <- concat_pieces. apply in_concat.
  exists piece. now split.
Qed.

Lemma matches_chars ts :
  forall m c, In m (matches ts) -> In c m -> In c (flatten ts).
Proof.
  induction ts as [|[x|m'] ts IH]; intros m c Hm Hc; cbn [matches] in Hm.
  - destruct Hm.
  - right. now apply (IH m).
  - cbn [flatten]. apply in_or_app.
    destruct Hm as [<-|Hm]; [now left|right; now apply (IH m)].
Qed.

Lemma findall_chars ic r s m c :
  In m (findall ic r s) -> In c m -> In c s.
Proof.
  unfold findall, scan. intros Hm Hc.
  pose proof (matches_chars _ _ _ Hm Hc) as H.
  now rewrite tokens_flatten in H.
Qed.

(** ** Finding a phrase that an element of a list holds *)

Lemma startswith_prefix p s :
  startswith p s = true -> exists b, s = p ++ b.
Proof.
  intros H. exists (skipn (length p) s). now apply startswith_skipn.
Qed.

Lemma contains_elim sub s :
  contains sub s = true -> exists a b, s = a ++ sub ++ b.
Proof.
  induction s as [|x s IH]; cbn [contains]; intros H.
  - rewrite orb_false_r in H. apply startswith_prefix in H.
    destruct H as (b & ->). now exists [], b.
  - apply orb_true_iff in H. destruct H as [H|H].
    + apply startswith_prefix in H. destruct H as (b & ->). now exists [], b.
    + destruct (IH H) as (a & b & ->). now exists (x :: a), b.
Qed.

Lemma contains_middle sub a b : contains sub (a ++ sub ++ b) = true.
Proof.
  apply contains_app_r.
  pose proof (startswith_refl sub b) as H.
  destruct (sub ++ b); cbn [contains]; now rewrite H.
Qed.

Lemma in_join sep (e : str) :
  forall l, In e l -> exists a b, join sep l = a ++ e ++ b.
Proof.
  induction l as [|x l IH]; intros H; [destruct H|].
  destruct l as [|y l].
  - destruct H as [->|[]]. exists [], []. now rewrite app_nil_r.
  - rewrite join_cons by discriminate. destruct H as [->|H].
    + now exists [], (sep ++ join sep (y :: l)).
    + destruct (IH H) as (a & b & ->).
      exists (x ++ sep ++ a), b. now rewrite <- !app_assoc.
Qed.

(** A phrase that [repr] leaves as it is, in an element of [l], is in
    [str(l)]. *)
Lemma contains_in_str_of_list needle l e :
  (forall q, q = squote \/ q = dquote ->
             flat_map (repr_char q) needle = needle) ->
  In e l -> contains needle e = true ->
  contains needle (str_of_list l) = true.
Proof.
  intros Hplain Hin He.
  apply contains_elim in He. destruct He as (a & b & ->).
  destruct (@in_join ", " _ _ (in_map repr _ _ Hin)) as (x & y & E).
  unfold str_of_list. rewrite E. unfold repr. cbv zeta.
  set (q := if existsb (Ascii.eqb squote) (a ++ needle ++ b)
               && negb (existsb (Ascii.eqb dquote) (a ++ needle ++ b))
            then dquote else squote).
  assert (Hq : q = squote \/ q = dquote).
  { unfold q. destruct (_ && _); auto. }
  rewrite !flat_map_app, (Hplain q Hq).
  replace ("[" ++ (x ++ (q :: (flat_map (repr_char q) a ++ needle
                                 ++ flat_map (repr_char q) b) ++ [q]) ++ y)
           ++ "]")
    with (("[" ++ x ++ q :: flat_map (repr_char q) a) ++ needle
          ++ (flat_map (repr_char q) b ++ [q] ++ y ++ "]")).
  - apply contains_middle.
  - cbn [app]. rewrite <- !app_assoc. cbn [app]. rewrite <- !app_assoc.
    reflexivity.
Qed.

(** ** ChapterRewriter._light_rewrite: whitespace *)

Lemma sub_whitespace s c :
  In c (sub false (Plus isspace) (fun _ => " ") s) ->
  isspace c = true -> c = " "%char.
Proof.
  unfold sub, scan.
  pose proof (tokens_plus isspace s None 0) as H.
  induction H as [|[x|m] ts Hx _ IH]; cbn [subst]; intros Hc Hs.
  - destruct Hc.
  - destruct Hc as [->|Hc]; [congruence|now apply IH].
  - destruct Hc as [<-|Hc]; [reflexivity|now apply IH].
Qed.

Lemma said_alternatives_chars c :
  In c (" replied" ++ " asked" ++ " whispered" ++ " murmured" ++ " stated") ->
  isspace c = true -> c = " "%char.
Proof.
  intros H Hs. cbn [app] in H.
  repeat (destruct H as [<-|H]; [first [reflexivity|discriminate]|]).
  destruct H.
Qed.

(** X15. When a prose issue reports the excess of adverbs, the LIGHT tier
    leaves no whitespace other than the space: each line break, paragraph
    break and tabulation of the text is replaced. *)
Theorem light_rewrite_flattens_whitespace (text : str)
    (problems : ProblemAnalysis) (issue : str) :
  In issue (prose_issues problems) ->
  contains "Excessive use of adverbs" issue = true ->
  forall c, In c (ChapterRewriter._light_rewrite text problems) ->
            isspace c = true -> c = " "%char.
Proof.
  intros Hin Hissue. unfold ChapterRewriter._light_rewrite.
  rewrite (@contains_in_str_of_list "Excessive use of adverbs"
             (prose_issues problems) issue);
    [|intros q [->| ->]; reflexivity|exact Hin|exact Hissue].
  set (flat := sub false (Plus isspace) _ _).
  assert (Hflat : forall c, In c flat -> isspace c = true -> c = " "%char)
    by (intros c; apply sub_whitespace).
  destruct (contains "Overuse of 'said'" _); [|exact Hflat].
  cbn [fold_left]. intros c Hc Hs.
  repeat (apply replace1_chars in Hc;
          destruct Hc as [Hc|Hc];
          [|apply said_alternatives_chars; [|exact Hs];
            repeat (apply in_or_app; first [now left|right]);
            try assumption]).
  now apply Hflat.
Qed.

Lemma light_rewrite_flattens_whitespace_witness :
  Forall (fun c => isspace c = true -> c = " "%char)
    (ChapterRewriter._light_rewrite
       ("He ran quickly." ++ [newline; newline] ++ "She left.")
       {| structural_issues := [];
          narrative_issues := [];
          character_issues := [];
          pacing_issues := [];
          dialogue_issues := [];
          prose_issues :=
            ["Excessive use of adverbs (1 found) - consider stronger verbs"];
          severity_score := 0.05%Q |}).
Proof.
  apply Forall_forall.
  eapply light_rewrite_flattens_whitespace.
  - cbn [prose_issues]. left. reflexivity.
  - vm_compute. reflexivity.
Defined.

(** ** ChapterRewriter._moderate_rewrite: paragraphs *)


(** The split that keeps the separators loses nothing. *)
Lemma concat_split_sentences s :
  concat (ChapterRewriter.split_sentences s) = s.
Proof.
  unfold ChapterRewriter.split_sentences, re_split, scan.
  rewrite concat_pieces. apply tokens_flatten.
Qed.

Lemma concat_halves (l : list str) n :
  concat (firstn n l) ++ concat (skipn n l) = concat l.
Proof. now rewrite <- concat_app, firstn_skipn. Qed.




(** ** The characters that a rewrite inserts *)

(** What the tiers write of their own: lower-case letters, the space, the
    period and the line break. *)
Definition inserted (c : ascii) : bool :=
  islower_az c || one_of (" ." ++ [newline]) c.

(** The characters of [out] are characters of [inp] or inserted ones. *)
Definition drawn_from (inp out : str) : Prop :=
  forall c, In c out -> In c inp \/ inserted c = true.

Lemma drawn_from_refl s : drawn_from s s.
Proof. intros c H. now left. Qed.

Lemma drawn_from_trans a b c :
  drawn_from a b -> drawn_from b c -> drawn_from a c.
Proof.
  intros Hab Hbc x Hx. destruct (Hbc x Hx) as [H|H]; [now apply Hab|now right].
Qed.

Lemma drawn_from_inserted inp s :
  forallb inserted s = true -> drawn_from inp s.
Proof.
  intros H c Hc. right. rewrite forallb_forall in H. now apply H.
Qed.

Lemma drawn_from_app inp a b :
  drawn_from inp a -> drawn_from inp b -> drawn_from inp (a ++ b).
Proof.
  intros Ha Hb c Hc. apply in_app_or in Hc. destruct Hc; auto.
Qed.

Lemma drawn_from_part inp s :
  (forall c, In c s -> In c inp) -> drawn_from inp s.
Proof. intros H c Hc. left. now apply H. Qed.

Lemma drawn_from_sub ic r (f : str -> str) s :
  (forall m, drawn_from m (f m)) -> drawn_from s (sub ic r f s).
Proof.
  intros Hf c Hc.
  exact (@sub_chars ic r f (fun c => inserted c = true) s c Hf Hc).
Qed.

Lemma drawn_from_replace1 inp old new s :
  drawn_from inp s -> drawn_from inp new ->
  drawn_from inp (replace1 old new s).
Proof.
  intros Hs Hn c Hc. apply replace1_chars in Hc. destruct Hc; auto.
Qed.

Lemma drawn_from_replace inp old new s :
  drawn_from inp s -> drawn_from inp new ->
  drawn_from inp (replace old new s).
Proof.
  intros Hs Hn c Hc. unfold replace in Hc.
  apply replace_from_chars in Hc. destruct Hc; auto.
Qed.

Lemma drawn_from_join inp sep l :
  drawn_from inp sep -> (forall x, In x l -> drawn_from inp x) ->
  drawn_from inp (join sep l).
Proof.
  intros Hsep Hl c Hc. apply join_chars in Hc.
  destruct Hc as [Hc|(x & Hx & Hc)]; [now apply Hsep|now apply (Hl x)].
Qed.

Lemma drawn_from_concat inp l :
  (forall x, In x l -> drawn_from inp x) -> drawn_from inp (concat l).
Proof.
  intros Hl c Hc. apply in_concat in Hc. destruct Hc as (x & Hx & Hc).
  now apply (Hl x).
Qed.

Lemma drawn_from_contained inp s :
  contains s inp = true -> drawn_from inp s.
Proof.
  intros H. apply contains_elim in H. destruct H as (a & b & ->).
  apply drawn_from_part. intros c Hc.
  apply in_or_app. right. apply in_or_app. now left.
Qed.

Section Tiers.

Import ChapterRewriter.

Lemma light_rewrite_drawn text problems :
  drawn_from text (_light_rewrite text problems).
Proof.
  unfold _light_rewrite. cbv zeta.
  set (flat := sub false (Plus isspace) _ _).
  assert (Hflat : drawn_from text flat).
  { unfold flat.
    match goal with
    | |- drawn_from _ (sub _ _ _ ?inner) => apply drawn_from_trans with inner
    end; apply drawn_from_sub; intros m.
    - destruct (6 <? length m); [intros c []|apply drawn_from_refl].
    - now apply drawn_from_inserted. }
  assert (Hsaid : forall s, drawn_from text s ->
            drawn_from text
              (fold_left
                 (fun rewritten alt => replace1 " said" (" " ++ alt) rewritten)
                 ["replied"; "asked"; "whispered"; "murmured"; "stated"] s)).
  { intros s Hs. cbn [fold_left].
    repeat (apply drawn_from_replace1;
            [|now apply drawn_from_inserted]).
    exact Hs. }
  destruct (contains "Excessive use of adverbs" _);
    destruct (contains "Overuse of 'said'" _);
    auto using drawn_from_refl.
Qed.

Lemma split_sentences_part s x :
  In x (split_sentences s) -> forall c, In c x -> In c s.
Proof.
  intros Hx c Hc. rewrite <- (concat_split_sentences s).
  apply in_concat. exists x. now split.
Qed.

Lemma moderate_rewrite_drawn text problems :
  drawn_from text (_moderate_rewrite text problems).
Proof.
  unfold _moderate_rewrite. cbv zeta.
  set (light := _light_rewrite text problems).
  assert (Hlight : drawn_from text light) by apply light_rewrite_drawn.
  match goal with
  | |- context [if contains "Lack of sentence length variety" ?a
                then ?b else ?c] =>
      set (varied := if contains "Lack of sentence length variety" a
                     then b else c)
  end.
  assert (Hvaried : drawn_from text varied).
  { unfold varied. destruct (contains _ _); [|exact Hlight].
    apply drawn_from_trans with light; [exact Hlight|].
    apply drawn_from_concat. intros x Hx.
    apply in_map_iff in Hx. destruct Hx as (sentence & <- & Hs).
    pose proof (split_sentences_part _ _ Hs) as Hpart.
    destruct (_ || _); [now apply drawn_from_part|].
    destruct (20 <? length (split_ws sentence));
      [|now apply drawn_from_part].
    assert (Hwords : forall w, In w (split_ws sentence) ->
                               drawn_from light w).
    { intros w Hw. apply drawn_from_part. intros c Hc.
      apply Hpart. now apply (split_ws_chars sentence w). }
    repeat apply drawn_from_app;
      try (apply drawn_from_join; [now apply drawn_from_inserted|]);
      try (now apply drawn_from_inserted).
    - intros w Hw. apply Hwords. now apply in_firstn in Hw.
    - intros w Hw. apply Hwords. now apply in_skipn in Hw. }
  destruct (contains "overly long paragraphs" _); [|exact Hvaried].
  apply drawn_from_trans with varied; [exact Hvaried|].
  apply drawn_from_join; [now apply drawn_from_inserted|].
  intros x Hx. apply in_flat_map in Hx. destruct Hx as (para & Hpara & Hx).
  assert (Hp : forall c, In c para -> In c varied).
  { intros c Hc. now apply (split_from_chars _ _ _ _ _ Hpara). }
  apply drawn_from_part. intros c Hc. apply Hp.
  destruct (150 <? length (split_ws para)).
  - rewrite <- (concat_split_sentences para).
    rewrite <- (concat_halves _ (length (split_sentences para) / 2)).
    apply in_or_app.
    destruct Hx as [<-|[<-|[]]]; [now left|now right].
  - destruct Hx as [<-|[]]. exact Hc.
Qed.

(** A match of a pattern that starts with a literal character starts with
    that character. *)
Lemma tokens_head ic r q :
  (forall prev c s rest,
      match_at ic r prev (c :: s) = Some rest -> c = q) ->
  forall s prev skip,
    Forall (fun t => match t with
                     | inl _ => True
                     | inr m => hd_error m = Some q
                     end)
           (tokens ic r prev s skip).
Proof.
  intros Hr. induction s as [|c s IH]; intros prev skip; [constructor|].
  destruct skip as [|k]; cbn [tokens]; [|apply IH].
  destruct (match_at ic r prev (c :: s)) as [rest|] eqn:E;
    [|constructor; [exact I|apply IH]].
  destruct (length (c :: s) - length rest) as [|k];
    constructor; try apply IH; [exact I|].
  cbn [firstn hd_error]. f_equal. exact (Hr _ _ _ _ E).
Qed.

Lemma subst_st_drawn (f : nat -> str -> str * nat) (q : ascii) :
  (forall k m, hd_error m = Some q -> drawn_from m (fst (f k m))) ->
  forall ts,
    Forall (fun t => match t with
                     | inl _ => True
                     | inr m => hd_error m = Some q
                     end) ts ->
    forall k, drawn_from (flatten ts) (fst (subst_st f k ts)).
Proof.
  intros Hf ts H. induction H as [|[x|m] ts Hm _ IH]; intros k;
    cbn [subst_st flatten].
  - intros c [].
  - specialize (IH k). destruct (subst_st f k ts) as [r k']. cbn [fst] in *.
    intros c [->|Hc]; [left; now left|].
    destruct (IH c Hc); [left; now right|now right].
  - specialize (Hf k m Hm). destruct (f k m) as [m' k1]. cbn [fst] in Hf.
    specialize (IH k1). destruct (subst_st f k1 ts) as [r k2].
    cbn [fst] in *. intros c Hc. apply in_app_or in Hc.
    destruct Hc as [Hc|Hc].
    + destruct (Hf c Hc); [left; apply in_or_app; now left|now right].
    + destruct (IH c Hc); [left; apply in_or_app; now right|now right].
Qed.

Lemma take_until_part q s c : In c (take_until q s) -> In c s.
Proof.
  induction s as [|x s IH]; cbn [take_until]; [intros []|].
  destruct (Ascii.eqb x q); [intros []|].
  intros [->|H]; [now left|right; now apply IH].
Qed.

Lemma improve_dialogue_drawn env k m :
  hd_error m = Some dquote -> drawn_from m (fst (improve_dialogue env k m)).
Proof.
  intros Hm. unfold improve_dialogue. cbv zeta.
  set (dialogue := take_until dquote (tl m)).
  set (attribution := skipn (length dialogue + 2) m).
  assert (Hq : drawn_from m [dquote]).
  { apply drawn_from_part. intros c [<-|[]].
    destruct m as [|x m]; [discriminate|]. injection Hm as ->. now left. }
  assert (Hd : drawn_from m dialogue).
  { apply drawn_from_part. intros c Hc. apply take_until_part in Hc.
    destruct m; [destruct Hc|now right]. }
  assert (Ha : drawn_from m attribution).
  { apply drawn_from_part. intros c Hc. now apply in_skipn in Hc. }
  assert (Hout : forall a, drawn_from m a ->
                           drawn_from m ([dquote] ++ dialogue ++ [dquote] ++ a)).
  { intros a Hdrawn. repeat apply drawn_from_app; assumption. }
  destruct (contains "said" attribution
            && (length (split_ws attribution) <? 5)).
  - unfold random_choice. cbv beta iota. cbn [fst]. apply Hout.
    apply drawn_from_replace; [exact Ha|].
    apply drawn_from_app; [now apply drawn_from_inserted|].
    apply drawn_from_inserted.
    match goal with
    | |- context [@nth ?A ?i ?l ?d] =>
        pose proof (@nth_in_or_default A i l d) as H;
        set (emotion := @nth A i l d) in *; clearbody emotion
    end.
    destruct H as [H|H].
    + cbn [In] in H.
      repeat (destruct H as [<-|H]; [reflexivity|]). destruct H.
    + now rewrite H.
  - cbn [fst]. now apply Hout.
Qed.

Lemma comprehensive_rewrite_drawn env k text problems :
  drawn_from text (fst (_comprehensive_rewrite env k text problems)).
Proof.
  unfold _comprehensive_rewrite. cbv zeta.
  apply drawn_from_trans with (_moderate_rewrite text problems);
    [apply moderate_rewrite_drawn|].
  set (moderate := _moderate_rewrite text problems).
  set (pattern := cat _).
  pose proof (@subst_st_drawn (improve_dialogue env) dquote
                (improve_dialogue_drawn env)
                (scan false pattern moderate)) as H.
  unfold scan in *. rewrite tokens_flatten in H. apply H.
  apply tokens_head. intros prev c s rest.
  unfold match_at, pattern. cbn [cat exec]. unfold chr_ok.
  destruct (Ascii.eqb_spec c dquote); [auto|discriminate].
Qed.

Lemma apply_preservation_controls_drawn env rewritten original controls :
  drawn_from original rewritten ->
  drawn_from original
    (_apply_preservation_controls env rewritten original controls).
Proof.
  intros Hr. unfold _apply_preservation_controls. cbv zeta.
  set (kept := match preserve_dialogue controls with
               | Some dialogues => _
               | None => rewritten
               end).
  assert (Hkept : drawn_from original kept).
  { unfold kept. destruct (preserve_dialogue controls) as [dialogues|];
      [|exact Hr].
    clear kept. revert rewritten Hr.
    induction dialogues as [|d ds IH]; intros rewritten Hr; [exact Hr|].
    cbn [fold_left]. apply IH.
    destruct (contains d original) eqn:E; cbn [andb]; [|exact Hr].
    destruct (negb (contains d rewritten)); [|exact Hr].
    repeat apply drawn_from_app;
      [exact Hr|now apply drawn_from_inserted
      |now apply drawn_from_contained]. }
  destruct (preserve_character_names controls); [|exact Hkept].
  generalize (set_order env
                (set_diff (dedup (findall false QualityAssessor.capitalized
                                    original))
                          (dedup (findall false QualityAssessor.capitalized
                                    kept)))).
  intros names. generalize dependent kept.
  induction names as [|name names IH]; intros kept Hkept; [exact Hkept|].
  cbn [fold_left]. apply IH.
  destruct (negb (mem name _)); [|exact Hkept].
  destruct (contains (" " ++ name ++ " ") original) eqn:E; cbn [andb];
    [|exact Hkept].
  destruct (negb (contains _ kept)); [|exact Hkept].
  apply drawn_from_replace1; [exact Hkept|].
  now apply drawn_from_contained.
Qed.

Lemma generate_rewrite_drawn env k text problems intensity controls :
  drawn_from text
    (fst (_generate_rewrite env k text problems intensity controls)).
Proof.
  unfold _generate_rewrite. cbv zeta.
  assert (Htier :
    drawn_from text
      (fst match intensity with
           | LIGHT => (_light_rewrite text problems, k)
           | MODERATE => (_moderate_rewrite text problems, k)
           | COMPREHENSIVE => _comprehensive_rewrite env k text problems
           end)).
  { destruct intensity; cbn [fst];
      [apply light_rewrite_drawn|apply moderate_rewrite_drawn
      |apply comprehensive_rewrite_drawn]. }
  destruct (match intensity with
            | LIGHT => _
            | MODERATE => _
            | COMPREHENSIVE => _
            end) as [rewritten k']. cbn [fst] in *.
  destruct controls as [controls|]; [|exact Htier].
  now apply apply_preservation_controls_drawn.
Qed.

Section LoopDrawn.

Variable env : Env.
Variable intensity : RewriteIntensity.
Variable controls : option PreservationControls.
Variable max_iterations : Z.
Variable baseline : QualityMetrics.
Variable original : str.

Lemma rewrite_loop_drawn remaining :
  forall current_text problems iterations k text n,
    drawn_from original current_text ->
    rewrite_loop env intensity controls max_iterations baseline
      remaining current_text problems iterations k = Ok (text, n) ->
    drawn_from original text.
Proof.
  induction remaining as [|remaining IH];
    intros current_text problems iterations k text n Hc H.
  - cbn [rewrite_loop] in H. apply Ok_inj in H. inversion H; subst.
    exact Hc.
  - rewrite rewrite_loop_eq in H. cbv zeta in H.
    pose proof (generate_rewrite_drawn env k current_text problems intensity
                  controls) as Hnew.
    destruct (_generate_rewrite env k current_text problems intensity
                controls) as [rewritten k'].
    cbn [fst] in Hnew.
    assert (Hr : drawn_from original rewritten)
      by (now apply drawn_from_trans with current_text).
    apply bind_ok in H. destruct H as (nm & _ & H).
    destruct (is_better_than nm baseline).
    + destruct (Qltb 0.9 (overall_score nm)).
      { apply Ok_inj in H. inversion H; subst. exact Hr. }
      apply bind_ok in H. destruct H as (problems' & _ & H).
      destruct (Qltb (severity_score problems') 0.2).
      { apply Ok_inj in H. inversion H; subst. exact Hr. }
      exact (IH _ _ _ _ _ _ Hr H).
    + destruct (Z.of_nat (iterations + 1) <? max_iterations)%Z.
      * exact (IH _ _ _ _ _ _ Hc H).
      * apply Ok_inj in H. inversion H; subst. exact Hc.
Qed.

End LoopDrawn.

End Tiers.

(** X17. Each character of the text that [rewrite_chapter] returns is a
    character of the chapter, or a lower-case letter, a space, a period or
    a line break: whatever the tier and the controls, the rewrite brings in
    no digit, no capital letter, no quote and no other punctuation. *)
Theorem rewrite_chapter_no_new_characters (env : Env) (manuscript : str)
    (requested : option Z) (intensity : RewriteIntensity)
    (controls : option PreservationControls) (max_iterations : Z)
    (text : str) (report : RewriteReport) :
  ChapterRewriter.rewrite_chapter env manuscript requested intensity controls
    max_iterations = Ok (text, report) ->
  exists target,
    ChapterRewriter.select_chapter manuscript requested = Ok target /\
    forall c, In c text ->
              In c (chapter_text manuscript target) \/
              islower_az c = true \/ c = " "%char \/ c = "."%char \/
              c = newline.
Proof.
  intros H. apply rewrite_chapter_run in H.
  destruct H as (target & problems & Hsel & _ & _ & Hloop & _).
  exists target. split; [exact Hsel|]. intros c Hc.
  apply rewrite_loop_drawn with (original := chapter_text manuscript target)
    in Hloop; [|apply drawn_from_refl].
  destruct (Hloop c Hc) as [H|H]; [now left|right].
  unfold inserted in H. apply orb_true_iff in H.
  destruct H as [H|H]; [now left|right].
  unfold one_of in H. cbn [app existsb] in H.
  repeat (apply orb_true_iff in H; destruct H as [H|H];
          [apply Ascii.eqb_eq in H; auto|]).
  discriminate.
Qed.

Lemma rewrite_chapter_no_new_characters_witness :
  exists text report,
    ChapterRewriter.rewrite_chapter env0 "So Beverly asked did he go"
      (Some 1%Z) COMPREHENSIVE None 2 = Ok (text, report) /\
    ~ In "0"%char text.
Proof.
  eexists _, _. split.
  - vm_compute. reflexivity.
  - edestruct (@rewrite_chapter_no_new_characters env0
                 "So Beverly asked did he go" (Some 1%Z) COMPREHENSIVE None 2)
      as (target & Hsel & H).
    + vm_compute. reflexivity.
    + intros Hc. apply H in Hc. vm_compute in Hsel.
      apply Ok_inj in Hsel. subst target.
      destruct Hc as [Hc|[Hc|[Hc|[Hc|Hc]]]]; try discriminate.
      vm_compute in Hc.
      repeat (destruct Hc as [Hc|Hc]; [discriminate|]). exact Hc.
Defined.

(** X18. On a text without a double quote the COMPREHENSIVE tier returns
    what the MODERATE tier returns, and draws no random choice. *)
Theorem comprehensive_rewrite_without_quotes (env : Env) (k : nat)
    (text : str) (problems : ProblemAnalysis) :
  ~ In dquote text ->
  ChapterRewriter._comprehensive_rewrite env k text problems =
  (ChapterRewriter._moderate_rewrite text problems, k).
Proof.
  intros Hq. unfold ChapterRewriter._comprehensive_rewrite. cbv zeta.
  set (moderate := ChapterRewriter._moderate_rewrite text problems).
  assert (Hm : ~ In dquote moderate).
  { intros H. apply moderate_rewrite_drawn in H.
    destruct H as [H|H]; [contradiction|discriminate]. }
  set (pattern := cat _). unfold scan.
  assert (Hscan : forall s prev,
             ~ In dquote s -> tokens false pattern prev s 0 = map inl s).
  { induction s as [|c s IH]; intros prev Hs; [reflexivity|].
    cbn [tokens map].
    assert (E : match_at false pattern prev (c :: s) = None).
    { unfold match_at, pattern. cbn [cat exec]. unfold chr_ok.
      destruct (Ascii.eqb_spec c dquote) as [->|]; [|reflexivity].
      exfalso. apply Hs. now left. }
    rewrite E. f_equal. apply IH. intros H. apply Hs. now right. }
  rewrite Hscan by exact Hm. clear Hscan Hm.
  induction moderate as [|c s IH]; [reflexivity|].
  cbn [map ChapterRewriter.subst_st]. now rewrite IH.
Qed.

Lemma comprehensive_rewrite_without_quotes_witness :
  ChapterRewriter._comprehensive_rewrite env0 0 "He said no."
    {| structural_issues := []; narrative_issues := [];
       character_issues := []; pacing_issues := [];
       dialogue_issues := []; prose_issues := [];
       severity_score := 0.0%Q |}
  = ("He said no.", 0).
Proof.
  rewrite comprehensive_rewrite_without_quotes.
  - vm_compute. reflexivity.
  - vm_compute. intuition discriminate.
Defined.

(** ** What [rewrite_chapter] raises *)

Section Exceptions.

Import QualityAssessor ProblemAnalyzer ChapterRewriter.

Lemma assess_quality_exception text e :
  assess_quality text = Raise e -> e = ZeroDivisionError.
Proof.
  intros H. destruct (punctuation_text text) eqn:E.
  - apply only_punctuation_iff, assess_quality_raises in E. congruence.
  - assert (Hn : ~ only_punctuation text).
    { intros Hp. apply only_punctuation_iff in Hp. congruence. }
    destruct (assess_quality_returns Hn) as (m & Hm). congruence.
Qed.

Lemma bind_raise {A B} (m : result A) (f : A -> result B) e :
  bind m f = Raise e ->
  m = Raise e \/ exists a, m = Ok a /\ f a = Raise e.
Proof.
  destruct m as [a|e']; cbn [bind]; intros H; [right; eauto|left].
  inversion H. reflexivity.
Qed.

Lemma rewrite_loop_exception env intensity controls max_iterations baseline
    remaining :
  forall current_text problems iterations k e,
    rewrite_loop env intensity controls max_iterations baseline remaining
      current_text problems iterations k = Raise e ->
    e = ZeroDivisionError.
Proof.
  induction remaining as [|remaining IH];
    intros current_text problems iterations k e H; [discriminate|].
  rewrite rewrite_loop_eq in H. cbv zeta in H.
  destruct (_generate_rewrite env k current_text problems intensity controls)
    as [rewritten k'].
  apply bind_raise in H.
  destruct H as [H|(nm & _ & H)]; [now apply assess_quality_exception in H|].
  destruct (is_better_than nm baseline).
  - destruct (Qltb 0.9 (overall_score nm)); [discriminate|].
    destruct (analyze_problems_total rewritten) as [p Hp].
    rewrite Hp in H. cbn [bind] in H.
    destruct (Qltb (severity_score p) 0.2); [discriminate|].
    now apply IH in H.
  - destruct (Z.of_nat (iterations + 1) <? max_iterations)%Z;
      [now apply IH in H|discriminate].
Qed.

End Exceptions.

(** X19. [rewrite_chapter] raises two exceptions only: [ValueError] for a
    requested chapter number that no boundary bears, and
    [ZeroDivisionError], which comes from the assessment of a text; the
    errors of [statistics] never get out. *)
Theorem rewrite_chapter_exceptions (env : Env) (manuscript : str)
    (requested : option Z) (intensity : RewriteIntensity)
    (controls : option PreservationControls) (max_iterations : Z) (e : exn) :
  ChapterRewriter.rewrite_chapter env manuscript requested intensity controls
    max_iterations = Raise e ->
  e = ZeroDivisionError \/
  exists n,
    requested = Some n /\
    e = ValueError ("Chapter " ++ ChapterRewriter.str_of_Z n ++ " not found") /\
    ((n < 1)%Z \/
     (Z.of_nat (length (ChapterDetector.detect_chapters manuscript)) < n)%Z).
Proof.
  intros H. unfold ChapterRewriter.rewrite_chapter in H.
  apply bind_raise in H. destruct H as [H|(target & _ & H)].
  { apply select_chapter_raise in H.
    destruct H as [(n & -> & -> & Hn)|(_ & c & _ & Hc)];
      [right|left; now apply assess_quality_exception in Hc].
    exists n. repeat split.
    destruct (detect_chapters_inv manuscript) as (Hnum & _).
    destruct (Z.ltb_spec n 1) as [|Hlo]; [now left|right].
    destruct (Z.ltb_spec
                (Z.of_nat (length (ChapterDetector.detect_chapters manuscript)))
                n) as [|Hhi]; [assumption|exfalso].
    assert (Hin : In (Z.to_nat n)
                     (map chapter_number
                          (ChapterDetector.detect_chapters manuscript))).
    { rewrite Hnum. apply in_seq. lia. }
    apply in_map_iff in Hin. destruct Hin as (c & Hc & Hin).
    apply (Hn c Hin). lia. }
  apply bind_raise in H.
  destruct H as [H|(om & _ & H)];
    [left; now apply assess_quality_exception in H|].
  destruct (analyze_problems_total (chapter_text manuscript target))
    as [p Hp].
  fold (chapter_text manuscript target) in H. rewrite Hp in H.
  cbn [bind] in H. apply bind_raise in H.
  destruct H as [H|([current n] & _ & H)];
    [left; now apply rewrite_loop_exception in H|].
  apply bind_raise in H.
  destruct H as [H|(fm & _ & H)];
    [left; now apply assess_quality_exception in H|discriminate].
Qed.

Lemma rewrite_chapter_exceptions_witness :
  exists e,
    ChapterRewriter.rewrite_chapter env0 "Beautifully ." None LIGHT None 1
    = Raise e /\ e = ZeroDivisionError.
Proof.
  eexists. split; [vm_compute; reflexivity|].
  destruct (@rewrite_chapter_exceptions env0 "Beautifully ." None LIGHT None 1
              ZeroDivisionError) as [H|(n & Hn & _)].
  - vm_compute. reflexivity.
  - exact H.
  - discriminate Hn.
Defined.
